(** * kgo-verifier: the transactional producer worker

    A shallow embedding of
    [pkg/worker/verifier/transactional_producer_worker.go]
    and the properties of it that the specification states.

    Conventions of the embedding.
    - Go's [int64] (and [int], 64 bits wide on the supported platforms) is
      a [Z] kept in the signed range by [wrap64]; every [+], [-] and [*]
      of the source is [add64], [sub64], [mul64].
    - The protocol client, the random source and the clock are the
      environment: every value the source reads from them is a field of an
      oracle record, and every call the source makes to the client is
      appended to a ghost log ([calls]).
    - The completion callbacks run concurrently with the dispatch loop; an
      epoch is a state machine whose events are either a move of the
      dispatch loop or the run of one callback, in any order that the
      blocking primitives (semaphore, wait group) allow. *)

From Stdlib Require Import ZArith Lia Bool Ascii String.
From stdpp Require Import base tactics option list strings pretty.

Local Open Scope Z_scope.

(** ** 64-bit integers *)

Definition wrap64 (z : Z) : Z := (z + 2 ^ 63) mod 2 ^ 64 - 2 ^ 63.
Definition add64 (a b : Z) : Z := wrap64 (a + b).
Definition sub64 (a b : Z) : Z := wrap64 (a - b).
Definition mul64 (a b : Z) : Z := wrap64 (a * b).

Definition int64_min : Z := - 2 ^ 63.
Definition int64_max : Z := 2 ^ 63 - 1.
Definition in_int64 (z : Z) : Prop := int64_min <= z <= int64_max.

(** [len(x)] as an [int64]. *)
Definition len64 {A} (l : list A) : Z := Z.of_nat (length l).

(** Go's [error] values; [None] is [nil]. *)
Definition error := string.

(** ** [fmt.Fprintf] with the verbs of [newRecord]

    [%0wd] prints the decimal digits of the absolute value, left-padded
    with zeros to [w] characters; a minus sign, when there is one, comes
    first and counts towards the width. Longer numbers are never cut. *)

Fixpoint zeros (k : nat) : string :=
  match k with
  | O => EmptyString
  | S k' => String "0" (zeros k')
  end.

Definition fmt_d0 (w : nat) (v : Z) : string :=
  let digits := pretty (Z.abs_N v) in
  if v <? 0
  then "-" +:+ zeros (w - 1 - String.length digits) +:+ digits
  else zeros (w - String.length digits) +:+ digits.

(** ** Records handed to the client ([kgo.Record]) *)

Record KRecord := mkRecord {
  Key : string;
  Value : list Byte.byte;
  Timestamp : option Z;         (* [None]: the zero time, filled by the client *)
  Partition : Z;
  Offset : Z;
}.

(** [kgo.KeySliceRecord]: key and value set, every other field zero. *)
Definition KeySliceRecord (key : string) (value : list Byte.byte) : KRecord :=
  {| Key := key; Value := value; Timestamp := None; Partition := 0; Offset := 0 |}.

Definition with_Timestamp (t : Z) (r : KRecord) : KRecord :=
  {| Key := Key r; Value := Value r; Timestamp := Some t;
     Partition := Partition r; Offset := Offset r |}.
Definition with_Partition (p : Z) (r : KRecord) : KRecord :=
  {| Key := Key r; Value := Value r; Timestamp := Timestamp r;
     Partition := p; Offset := Offset r |}.
Definition with_Offset (o : Z) (r : KRecord) : KRecord :=
  {| Key := Key r; Value := Value r; Timestamp := Timestamp r;
     Partition := Partition r; Offset := o |}.

(** ** Configuration, status and worker *)

Record TransactionalProducerConfig := mkConfig {
  nPartitions : Z;              (* int32 *)
  messageSize : Z;              (* int *)
  messageCount : Z;             (* int *)
  cfg_fakeTimestampMs : Z;      (* int64 *)
  msgsPerTransaction : Z;       (* uint, in [0, 2^64) *)
}.

(** Modelled from the spec: [worker.HistogramSummary] is declared in
    [pkg/worker], outside the sources at hand; the specification describes it
    as a count and distribution percentiles. No property below looks inside. *)
Record HistogramSummary := mkSummary {
  hs_count : Z;
  hs_percentiles : list Z;
}.

Record TransactionalProducerWorkerStatus := mkStatus {
  Sent : Z;
  Acked : Z;
  BadOffsets : Z;
  FailedTransactions : Z;
  Restarts : Z;
  latency : list Z;             (* the samples given to [latency.Update] *)
  Latency : HistogramSummary;
  Active : bool;
  lastCheckpoint : Z;           (* a time, in nanoseconds *)
}.

(** [BadOffset{partition, offset}]: the type is declared beside the
    validator; the source builds it positionally. *)
Record BadOffset := mkBadOffset {
  bo_partition : Z;
  bo_offset : Z;
}.

Record TransactionalProducerWorker := mkWorker {
  config : TransactionalProducerConfig;
  Status : TransactionalProducerWorkerStatus;
  validOffsets : list (Z * Z);  (* the [Insert(partition, offset)] calls, in order *)
  fakeTimestampMs : Z;
}.

Definition NewTransactionalProducerWorkerStatus (now : Z)
  : TransactionalProducerWorkerStatus :=
  {| Sent := 0; Acked := 0; BadOffsets := 0; FailedTransactions := 0;
     Restarts := 0; latency := []; Latency := mkSummary 0 [];
     Active := false; lastCheckpoint := now |}.

(** Field updates, one per field the source assigns. *)
Definition set_Sent (v : Z) (s : TransactionalProducerWorkerStatus) :=
  {| Sent := v; Acked := Acked s; BadOffsets := BadOffsets s;
     FailedTransactions := FailedTransactions s; Restarts := Restarts s;
     latency := latency s; Latency := Latency s; Active := Active s;
     lastCheckpoint := lastCheckpoint s |}.
Definition set_Acked (v : Z) (s : TransactionalProducerWorkerStatus) :=
  {| Sent := Sent s; Acked := v; BadOffsets := BadOffsets s;
     FailedTransactions := FailedTransactions s; Restarts := Restarts s;
     latency := latency s; Latency := Latency s; Active := Active s;
     lastCheckpoint := lastCheckpoint s |}.
Definition set_BadOffsets (v : Z) (s : TransactionalProducerWorkerStatus) :=
  {| Sent := Sent s; Acked := Acked s; BadOffsets := v;
     FailedTransactions := FailedTransactions s; Restarts := Restarts s;
     latency := latency s; Latency := Latency s; Active := Active s;
     lastCheckpoint := lastCheckpoint s |}.
Definition set_FailedTransactions (v : Z) (s : TransactionalProducerWorkerStatus) :=
  {| Sent := Sent s; Acked := Acked s; BadOffsets := BadOffsets s;
     FailedTransactions := v; Restarts := Restarts s;
     latency := latency s; Latency := Latency s; Active := Active s;
     lastCheckpoint := lastCheckpoint s |}.
Definition set_Restarts (v : Z) (s : TransactionalProducerWorkerStatus) :=
  {| Sent := Sent s; Acked := Acked s; BadOffsets := BadOffsets s;
     FailedTransactions := FailedTransactions s; Restarts := v;
     latency := latency s; Latency := Latency s; Active := Active s;
     lastCheckpoint := lastCheckpoint s |}.
Definition set_latency (v : list Z) (s : TransactionalProducerWorkerStatus) :=
  {| Sent := Sent s; Acked := Acked s; BadOffsets := BadOffsets s;
     FailedTransactions := FailedTransactions s; Restarts := Restarts s;
     latency := v; Latency := Latency s; Active := Active s;
     lastCheckpoint := lastCheckpoint s |}.
Definition set_Latency (v : HistogramSummary) (s : TransactionalProducerWorkerStatus) :=
  {| Sent := Sent s; Acked := Acked s; BadOffsets := BadOffsets s;
     FailedTransactions := FailedTransactions s; Restarts := Restarts s;
     latency := latency s; Latency := v; Active := Active s;
     lastCheckpoint := lastCheckpoint s |}.
Definition set_Active (v : bool) (s : TransactionalProducerWorkerStatus) :=
  {| Sent := Sent s; Acked := Acked s; BadOffsets := BadOffsets s;
     FailedTransactions := FailedTransactions s; Restarts := Restarts s;
     latency := latency s; Latency := Latency s; Active := v;
     lastCheckpoint := lastCheckpoint s |}.
Definition set_lastCheckpoint (v : Z) (s : TransactionalProducerWorkerStatus) :=
  {| Sent := Sent s; Acked := Acked s; BadOffsets := BadOffsets s;
     FailedTransactions := FailedTransactions s; Restarts := Restarts s;
     latency := latency s; Latency := Latency s; Active := Active s;
     lastCheckpoint := v |}.

Definition set_Status (s : TransactionalProducerWorkerStatus)
    (pw : TransactionalProducerWorker) :=
  {| config := config pw; Status := s; validOffsets := validOffsets pw;
     fakeTimestampMs := fakeTimestampMs pw |}.
Definition upd_Status (f : TransactionalProducerWorkerStatus -> TransactionalProducerWorkerStatus)
    (pw : TransactionalProducerWorker) := set_Status (f (Status pw)) pw.
Definition set_validOffsets (v : list (Z * Z)) (pw : TransactionalProducerWorker) :=
  {| config := config pw; Status := Status pw; validOffsets := v;
     fakeTimestampMs := fakeTimestampMs pw |}.
Definition set_fakeTimestampMs (v : Z) (pw : TransactionalProducerWorker) :=
  {| config := config pw; Status := Status pw; validOffsets := validOffsets pw;
     fakeTimestampMs := v |}.

(** [NewTransactionalProducerWorker]; [LoadTopicOffsetRanges] is outside the
    sources, so the loaded ledger is an argument. *)
Definition NewTransactionalProducerWorker (cfg : TransactionalProducerConfig)
    (loaded : list (Z * Z)) (now : Z) : TransactionalProducerWorker :=
  {| config := cfg; Status := NewTransactionalProducerWorkerStatus now;
     validOffsets := loaded; fakeTimestampMs := cfg_fakeTimestampMs cfg |}.

(** [OnAcked] and [OnBadOffset]: one increment each, under the status lock. *)
Definition OnAcked (s : TransactionalProducerWorkerStatus) :=
  set_Acked (add64 (Acked s) 1) s.
Definition OnBadOffset (s : TransactionalProducerWorkerStatus) :=
  set_BadOffsets (add64 (BadOffsets s) 1) s.


(** [GetStatus]: refresh the public summary from the private histogram.
    [worker.SummarizeHistogram] is outside the sources and is an argument. *)
Definition GetStatus (SummarizeHistogram : list Z -> HistogramSummary)
    (pw : TransactionalProducerWorker) : TransactionalProducerWorker :=
  upd_Status (fun s => set_Latency (SummarizeHistogram (latency s)) s) pw.

(** ** How a call can end other than by returning *)

Inductive outcome (A : Type) :=
| Ok (a : A)
| Exit        (* [util.Chk] saw an error: the process ends *)
| Panic.      (* a run-time panic of Go *)
Arguments Ok {A} a.
Arguments Exit {A}.
Arguments Panic {A}.

(** Modelled from the spec: [util.Chk] lives in [pkg/util], outside the
    sources at hand. The specification calls a failed delivery "a fatal
    condition for the run" and a failed ledger store "a hard failure": on a
    non-nil error [Chk] ends the process, on [nil] it does nothing. *)
Definition Chk {A} (err : option error) (k : outcome A) : outcome A :=
  match err with
  | Some _ => Exit
  | None => k
  end.

(** ** [newRecord] *)

Definition newRecord (pw : TransactionalProducerWorker)
    (producerId sequence : Z) (aborted : bool)
  : outcome (KRecord * TransactionalProducerWorker) :=
  let key :=
    if negb aborted
    then fmt_d0 6 producerId +:+ "." +:+ fmt_d0 18 sequence
    else "ABORTED MSG: " +:+ fmt_d0 6 producerId +:+ "." +:+ fmt_d0 18 sequence in
  (* make([]byte, n) panics on a negative length *)
  if messageSize (config pw) <? 0 then Panic else
  let payload := replicate (Z.to_nat (messageSize (config pw))) Byte.x00 in
  let r := KeySliceRecord key payload in
  if negb (fakeTimestampMs pw =? -1)
  then Ok (with_Timestamp (mul64 (fakeTimestampMs pw) 1000000) r,
           set_fakeTimestampMs (add64 (fakeTimestampMs pw) 1) pw)
  else Ok (r, pw).

(** ** [encoding/json] on the status struct

    What [json.Marshal] writes for a struct without embedded fields:
    unexported fields are left out; an exported field is named by its [json]
    tag, or by its Go name when it has none; of several fields with one name
    the tagged one wins, and when two of them are both tagged (or both
    untagged) the name is dropped altogether, without an error
    ([typeFields] and [dominantField] of the encoder). *)

Inductive json :=
| JNum (z : Z)
| JBool (b : bool)
| JSummary (h : HistogramSummary)
| JNone.                        (* a value the encoder never reaches *)

Record field := mkField {
  goName : string;
  tag : option string;
  fvalue : json;
}.

Definition exported (f : field) : bool :=
  match goName f with
  | String c _ => ((65 <=? Ascii.nat_of_ascii c) && (Ascii.nat_of_ascii c <=? 90))%nat
  | EmptyString => false
  end.

Definition json_name (f : field) : string := default (goName f) (tag f).
Definition tagged (f : field) : bool := bool_decide (is_Some (tag f)).

(** The encoder's order within one name: tagged fields first. *)
Definition by_tag (fs : list field) : list field :=
  List.filter tagged fs ++ List.filter (fun f => negb (tagged f)) fs.

Definition dominantField (fs : list field) : option field :=
  match fs with
  | f0 :: f1 :: _ => if eqb (tagged f0) (tagged f1) then None else Some f0
  | [f0] => Some f0
  | [] => None
  end.

Definition typeFields (fs : list field) : list field :=
  let visible := List.filter exported fs in
  List.filter
    (fun f =>
       match dominantField
               (by_tag (List.filter (fun g => String.eqb (json_name g) (json_name f)) visible)) with
       | Some d => String.eqb (goName d) (goName f)
       | None => false
       end)
    visible.

Definition json_Marshal (fs : list field) : list (string * json) :=
  map (fun f => (json_name f, fvalue f)) (typeFields fs).

(** The fields of [TransactionalProducerWorkerStatus], in declaration order,
    each with the tag the source gives it. *)
Definition status_fields (s : TransactionalProducerWorkerStatus) : list field :=
  [ mkField "Sent" (Some "sent") (JNum (Sent s));
    mkField "Acked" (Some "acked") (JNum (Acked s));
    mkField "BadOffsets" (Some "bad_offsets") (JNum (BadOffsets s));
    mkField "FailedTransactions" (Some "failed_transactions") (JNum (FailedTransactions s));
    mkField "Restarts" (Some "restarts") (JNum (Restarts s));
    mkField "latency" None JNone;
    mkField "Latency" (Some "latency") (JSummary (Latency s));
    mkField "Active" (Some "latency") (JBool (Active s));
    mkField "lock" None JNone;
    mkField "lastCheckpoint" None JNone ].

(** [json.Marshal(pw.Status)], and the same encoding of what [GetStatus]
    returns. *)
Definition marshal_Status (s : TransactionalProducerWorkerStatus) : list (string * json) :=
  json_Marshal (status_fields s).

Definition keys (o : list (string * json)) : list string := map fst o.

(** [produceCheckpoint]: store the ledger, then log the encoded status. The
    result of [validOffsets.Store()] comes from the environment. *)
Definition produceCheckpoint (store : option error) (pw : TransactionalProducerWorker)
  : outcome TransactionalProducerWorker :=
  Chk store (Ok pw).

(** ** One epoch: [produceInner] as a state machine *)

(** The calls made to the protocol client, with what each one returned
    (ghost state: the source keeps no such log). *)
Inductive ClientCall :=
| CBeginTransaction (res : option error)
| CFlush (res : option error)
| CEndTransaction (commit : bool) (res : option error)
| CProduce (r : KRecord) (currentOffset : Z).
                                (* the record, and the offset its callback expects *)

(** A record given to [client.Produce] whose callback has not run yet,
    with the two variables its closure captured. *)
Record Pending := mkPending {
  pd_record : KRecord;
  pd_currentOffset : Z;
  pd_sentAt : Z;
}.

(** Where the goroutine of [produceInner] stands. *)
Inductive Pc :=
| LoopTop        (* about to evaluate [i < n && len(bad_offsets) == 0] *)
| Acquire        (* the condition held; in [concurrent.Acquire] *)
| Finalize       (* the loop is left; about to flush and end the transaction *)
| Drain          (* in [wg.Wait()] *)
| Returned (n_produced : Z) (bad : list BadOffset) (err : option error)
| Exited         (* [util.Chk] ended the process *)
| Panicked       (* a run-time panic *)
| Deadlocked.    (* a callback is stuck sending on a full channel *)

(** The worker, the local variables of [produceInner], and the ghost log. *)
Record Machine := mkMachine {
  pw : TransactionalProducerWorker;
  arg_n : Z;
  currentOffsets : list Z;
  errored : bool;
  produced : Z;
  bad_offsets : list BadOffset;     (* the buffered channel, oldest first *)
  willAbort : bool;
  loop_i : Z;
  inflight : list Pending;          (* one semaphore unit and one [wg] count each *)
  calls : list ClientCall;
  pc : Pc;
}.

Definition set_pw v (m : Machine) :=
  {| pw := v; arg_n := arg_n m; currentOffsets := currentOffsets m; errored := errored m;
     produced := produced m; bad_offsets := bad_offsets m; willAbort := willAbort m;
     loop_i := loop_i m; inflight := inflight m; calls := calls m; pc := pc m |}.
Definition set_currentOffsets v (m : Machine) :=
  {| pw := pw m; arg_n := arg_n m; currentOffsets := v; errored := errored m;
     produced := produced m; bad_offsets := bad_offsets m; willAbort := willAbort m;
     loop_i := loop_i m; inflight := inflight m; calls := calls m; pc := pc m |}.
Definition set_errored v (m : Machine) :=
  {| pw := pw m; arg_n := arg_n m; currentOffsets := currentOffsets m; errored := v;
     produced := produced m; bad_offsets := bad_offsets m; willAbort := willAbort m;
     loop_i := loop_i m; inflight := inflight m; calls := calls m; pc := pc m |}.
Definition set_produced v (m : Machine) :=
  {| pw := pw m; arg_n := arg_n m; currentOffsets := currentOffsets m; errored := errored m;
     produced := v; bad_offsets := bad_offsets m; willAbort := willAbort m;
     loop_i := loop_i m; inflight := inflight m; calls := calls m; pc := pc m |}.
Definition set_bad_offsets v (m : Machine) :=
  {| pw := pw m; arg_n := arg_n m; currentOffsets := currentOffsets m; errored := errored m;
     produced := produced m; bad_offsets := v; willAbort := willAbort m;
     loop_i := loop_i m; inflight := inflight m; calls := calls m; pc := pc m |}.
Definition set_willAbort v (m : Machine) :=
  {| pw := pw m; arg_n := arg_n m; currentOffsets := currentOffsets m; errored := errored m;
     produced := produced m; bad_offsets := bad_offsets m; willAbort := v;
     loop_i := loop_i m; inflight := inflight m; calls := calls m; pc := pc m |}.
Definition set_loop_i v (m : Machine) :=
  {| pw := pw m; arg_n := arg_n m; currentOffsets := currentOffsets m; errored := errored m;
     produced := produced m; bad_offsets := bad_offsets m; willAbort := willAbort m;
     loop_i := v; inflight := inflight m; calls := calls m; pc := pc m |}.
Definition set_inflight v (m : Machine) :=
  {| pw := pw m; arg_n := arg_n m; currentOffsets := currentOffsets m; errored := errored m;
     produced := produced m; bad_offsets := bad_offsets m; willAbort := willAbort m;
     loop_i := loop_i m; inflight := v; calls := calls m; pc := pc m |}.
Definition set_calls v (m : Machine) :=
  {| pw := pw m; arg_n := arg_n m; currentOffsets := currentOffsets m; errored := errored m;
     produced := produced m; bad_offsets := bad_offsets m; willAbort := willAbort m;
     loop_i := loop_i m; inflight := inflight m; calls := v; pc := pc m |}.
Definition set_pc v (m : Machine) :=
  {| pw := pw m; arg_n := arg_n m; currentOffsets := currentOffsets m; errored := errored m;
     produced := produced m; bad_offsets := bad_offsets m; willAbort := willAbort m;
     loop_i := loop_i m; inflight := inflight m; calls := calls m; pc := v |}.

Definition upd_status (f : TransactionalProducerWorkerStatus -> TransactionalProducerWorkerStatus)
    (m : Machine) : Machine := set_pw (upd_Status f (pw m)) m.
Definition log_call (c : ClientCall) (m : Machine) : Machine :=
  set_calls (calls m ++ [c]) m.

(** [pw.Status.FailedTransactions += 1] *)
Definition count_failed (m : Machine) : Machine :=
  upd_status (fun s => set_FailedTransactions (add64 (FailedTransactions s) 1) s) m.

(** [for i, _ := range currentOffsets { currentOffsets[i] += d }] *)
Definition bump_all (d : Z) (offs : list Z) : list Z := (fun o => add64 o d) <$> offs.

(** *** What the environment supplies *)

(** To the opening of an epoch. *)
Record StartOracle := mkStart {
  s_client : option error;      (* [kgo.NewClient] *)
  s_offsets : list Z;           (* [GetOffsets(client, topic, nPartitions, -1)] *)
  s_begin : option error;       (* the first [client.BeginTransaction] *)
  s_roll : bool;                (* [abortRate >= rand.Float64()] *)
}.

(** To one move of the dispatch goroutine; a move reads the fields it needs. *)
Record MainOracle := mkOracle {
  o_p : Z;                      (* [rand.Int31n(nPartitions)] *)
  o_flush : option error;       (* [client.Flush] *)
  o_end : option error;         (* [client.EndTransaction] *)
  o_begin : option error;       (* [client.BeginTransaction] *)
  o_roll : bool;                (* [abortRate >= rand.Float64()] *)
  o_sentAt : Z;                 (* [time.Now()] before the dispatch *)
  o_since : Z;                  (* the clock read by [time.Since] *)
  o_now : Z;                    (* [time.Now()] stored in [lastCheckpoint] *)
  o_store : option error;       (* [validOffsets.Store()] *)
}.

Inductive Event :=
| EvMain (o : MainOracle)       (* the dispatch goroutine moves *)
| EvAck (k : nat) (offset : Z) (err : option error) (now : Z).
                                (* the callback of in-flight record [k] runs *)

(** *** The opening: lines 172-217 *)

Definition produceInner_begin (w : TransactionalProducerWorker) (n : Z) (so : StartOracle)
  : Machine :=
  let m0 := {| pw := w; arg_n := n; currentOffsets := []; errored := false;
               produced := 0; bad_offsets := []; willAbort := false; loop_i := 0;
               inflight := []; calls := []; pc := LoopTop |} in
  match s_client so with
  | Some err => set_pc (Returned 0 [] (Some err)) m0
  | None =>
    let m := set_currentOffsets (s_offsets so) m0 in
    let m := log_call (CBeginTransaction (s_begin so)) m in
    match s_begin so with
    | Some err => set_pc (Returned 0 [] (Some err)) (count_failed m)
    | None =>
      let m := set_currentOffsets (bump_all 1 (currentOffsets m)) m in
      set_willAbort (s_roll so) m
    end
  end.

(** *** The body of the dispatch loop: lines 220-300 *)

Inductive flow :=
| FNext (m : Machine)           (* the iteration ran to its end *)
| FBreak (m : Machine)          (* [break] *)
| FStop (how : Pc) (m : Machine).  (* the process ended *)

(** [errored = true; pw.Status.FailedTransactions += 1] *)
Definition fail_transaction (m : Machine) : Machine :=
  count_failed (set_errored true m).

(** Lines 226-261, entered when [i > 0 && i % msgsPerTransaction == 0]. *)
Definition boundary (o : MainOracle) (m : Machine) : flow :=
  let m := log_call (CFlush (o_flush o)) m in
  match o_flush o with
  | Some _ => FBreak (fail_transaction m)
  | None =>
    let m := log_call (CEndTransaction (negb (willAbort m)) (o_end o)) m in
    match o_end o with
    | Some _ => FBreak (fail_transaction m)
    | None =>
      let m := log_call (CBeginTransaction (o_begin o)) m in
      match o_begin o with
      | Some _ => FBreak (fail_transaction m)
      | None =>
        let m := set_currentOffsets
                   (bump_all (if negb (willAbort m) then 2 else 1) (currentOffsets m)) m in
        FNext (set_willAbort (o_roll o) m)
      end
    end
  end.

(** Lines 264-300: take the cursor, build and dispatch the record, and
    checkpoint when five seconds have passed. *)
Definition dispatch (o : MainOracle) (p : Z) (m : Machine) : flow :=
  match currentOffsets m !! Z.to_nat p with
  | None => FStop Panicked m                      (* index out of range *)
  | Some currentOffset =>
    let m := set_currentOffsets
               (<[Z.to_nat p := add64 currentOffset 1]> (currentOffsets m)) m in
    match newRecord (pw m) 0 currentOffset (willAbort m) with
    | Exit => FStop Exited m
    | Panic => FStop Panicked m
    | Ok (r, w) =>
      let m := set_pw w m in
      let r := with_Partition p r in
      let m := set_inflight (inflight m ++ [mkPending r currentOffset (o_sentAt o)]) m in
      let m := log_call (CProduce r currentOffset) m in
      let next m := FNext (set_loop_i (add64 (loop_i m) 1) m) in
      if 5000000000 <? o_since o - lastCheckpoint (Status (pw m)) then
        let m := upd_status (set_lastCheckpoint (o_now o)) m in
        match produceCheckpoint (o_store o) (pw m) with
        | Ok w => next (set_pw w m)
        | Exit => FStop Exited m
        | Panic => FStop Panicked m
        end
      else next m
    end
  end.

Definition loop_body (o : MainOracle) (m : Machine) : flow :=
  let m := set_produced (add64 (produced m) 1) m in
  let m := upd_status (fun s => set_Sent (add64 (Sent s) 1) s) m in
  (* rand.Int31n panics unless its argument is positive *)
  if nPartitions (config (pw m)) <=? 0 then FStop Panicked m else
  let p := o_p o in
  let per := wrap64 (msgsPerTransaction (config (pw m))) in
  if 0 <? loop_i m then
    (* the remainder panics on a zero divisor *)
    if per =? 0 then FStop Panicked m else
    if Z.rem (loop_i m) per =? 0 then
      match boundary o m with
      | FNext m => dispatch o p m
      | other => other
      end
    else dispatch o p m
  else dispatch o p m.

(** *** After the loop: lines 303-333 *)

Definition finalize (o : MainOracle) (m : Machine) : Machine :=
  let m := log_call (CFlush (o_flush o)) m in
  let m := match o_flush o with Some _ => fail_transaction m | None => m end in
  let m := log_call (CEndTransaction (negb (willAbort m)) (o_end o)) m in
  match o_end o with Some _ => fail_transaction m | None => m end.

(** Past [wg.Wait()]: close the channel, checkpoint, return. *)
Definition finish (o : MainOracle) (m : Machine) : Machine :=
  match produceCheckpoint (o_store o) (pw m) with
  | Exit => set_pc Exited m
  | Panic => set_pc Panicked m
  | Ok w =>
    let m := set_pw w m in
    if errored m then
      let r := bad_offsets m in
      let successful_produced := sub64 (produced m) (len64 r) in
      set_pc (Returned successful_produced r None) (set_bad_offsets [] m)
    else set_pc (Returned (produced m) [] None) m
  end.

(** *** The completion callback: lines 272-291 *)

Definition handler (currentOffset sentAt : Z) (r : KRecord) (err : option error) (now : Z)
    (m : Machine) : Machine :=
  match Chk err (Ok tt) with
  | Exit => set_pc Exited m
  | Panic => set_pc Panicked m
  | Ok _ =>
    if negb (Offset r =? currentOffset) then
      let m := upd_status OnBadOffset m in
      (* a send on a full channel never completes *)
      if 16384 <=? len64 (bad_offsets m) then set_pc Deadlocked m else
      let m := set_bad_offsets (bad_offsets m ++ [mkBadOffset (Partition r) (Offset r)]) m in
      set_errored true m
    else
      let ackLatency := now - sentAt in
      let m := upd_status OnAcked m in
      let m := upd_status (fun s => set_latency (latency s ++ [Z.quot ackLatency 1000]) s) m in
      set_pw (set_validOffsets (validOffsets (pw m) ++ [(Partition r, Offset r)]) (pw m)) m
  end.

(** *** Steps and runs *)

Definition running (p : Pc) : bool :=
  match p with
  | LoopTop | Acquire | Finalize | Drain => true
  | _ => false
  end.

(** One event; [None] when the state does not allow it: the semaphore has no
    unit left, the wait group is not at zero, the random partition is outside
    [0, nPartitions), there is no such in-flight record, or the goroutine has
    ended. *)
Definition step (m : Machine) (ev : Event) : option Machine :=
  match ev with
  | EvMain o =>
    match pc m with
    | LoopTop =>
      if (loop_i m <? arg_n m) && (len64 (bad_offsets m) =? 0)
      then Some (set_pc Acquire m)
      else Some (set_pc Finalize m)
    | Acquire =>
      if negb (len64 (inflight m) <? 4096) then None else
      if (0 <? nPartitions (config (pw m)))
         && negb ((0 <=? o_p o) && (o_p o <? nPartitions (config (pw m))))
      then None else
      Some match loop_body o m with
           | FNext m' => set_pc LoopTop m'
           | FBreak m' => set_pc Finalize m'
           | FStop how m' => set_pc how m'
           end
    | Finalize => Some (set_pc Drain (finalize o m))
    | Drain =>
      match inflight m with
      | [] => Some (finish o m)
      | _ :: _ => None
      end
    | _ => None
    end
  | EvAck k offset err now =>
    if running (pc m) then
      match inflight m !! k with
      | None => None
      | Some pd =>
        let m := set_inflight (delete k (inflight m)) m in
        Some (handler (pd_currentOffset pd) (pd_sentAt pd)
                      (with_Offset offset (pd_record pd)) err now m)
      end
    else None
  end.

Fixpoint run (m : Machine) (evs : list Event) : option Machine :=
  match evs with
  | [] => Some m
  | ev :: evs' =>
    match step m ev with
    | Some m' => run m' evs'
    | None => None
    end
  end.

(** [produceInner(n)] against one epoch's environment. *)
Definition produceInner (w : TransactionalProducerWorker) (n : Z)
    (env : StartOracle * list Event) : option Machine :=
  run (produceInner_begin w n (fst env)) (snd env).

(** ** The retry loop: [Wait] *)

Inductive WaitOutcome :=
| WaitReturned (err : option error)   (* [Wait] returned *)
| WaitStopped (how : Pc)              (* the process ended inside an epoch *)
| WaitRunning                         (* the environment's script ended first *)
| WaitInvalid.                        (* the script names an event the state does not allow *)

(** One call of [produceInner] (ghost): the worker and the argument it was
    called with, and the state it ended in. *)
Record Invocation := mkInvocation {
  inv_pw : TransactionalProducerWorker;
  inv_n : Z;
  inv_end : option Machine;
}.

Record WaitResult := mkWaitResult {
  w_outcome : WaitOutcome;
  w_pw : TransactionalProducerWorker;
  w_invocations : list Invocation;
}.

(** The [for] loop of [Wait]; one environment per epoch. *)
Fixpoint Wait_loop (envs : list (StartOracle * list Event))
    (w : TransactionalProducerWorker) (n : Z) : WaitResult :=
  match envs with
  | [] => mkWaitResult WaitRunning w []
  | env :: envs' =>
    match produceInner w n env with
    | None => mkWaitResult WaitInvalid w [mkInvocation w n None]
    | Some m =>
      let here := mkInvocation w n (Some m) in
      match pc m with
      | Returned n_produced bad (Some err) =>
        mkWaitResult (WaitReturned (Some err)) (pw m) [here]
      | Returned n_produced bad None =>
        let n' := sub64 n n_produced in
        if n' <=? 0 then mkWaitResult (WaitReturned None) (pw m) [here]
        else
          (* Record that we took another run at produceInner *)
          let w' := upd_Status (fun s => set_Restarts (add64 (Restarts s) 1) s) (pw m) in
          let rest := Wait_loop envs' w' n' in
          mkWaitResult (w_outcome rest) (w_pw rest) (here :: w_invocations rest)
      | Exited | Panicked | Deadlocked => mkWaitResult (WaitStopped (pc m)) (pw m) [here]
      | LoopTop | Acquire | Finalize | Drain => mkWaitResult WaitRunning (pw m) [here]
      end
    end
  end.

Definition Wait (envs : list (StartOracle * list Event)) (w : TransactionalProducerWorker)
  : WaitResult :=
  let w := upd_Status (set_Active true) w in
  let n := wrap64 (messageCount (config w)) in
  let res := Wait_loop envs w n in
  (* the deferred [pw.Status.Active = false] runs on return and on a panic *)
  match w_outcome res with
  | WaitReturned _ | WaitStopped Panicked =>
    mkWaitResult (w_outcome res) (upd_Status (set_Active false) (w_pw res)) (w_invocations res)
  | _ => res
  end.

(** ** The key layout the specification describes

    A number written in exactly [w] decimal digits, most significant first:
    the [k]-th digit from the right is [(v / 10^k) mod 10]. *)

Definition digit_char (d : N) : ascii := ascii_of_N (48 + d).

Fixpoint fixed_digits (w : nat) (v : N) (acc : string) : string :=
  match w with
  | O => acc
  | S w' => fixed_digits w' (v `div` 10)%N (String (digit_char (v `mod` 10)%N) acc)
  end.

Definition fixed_width (w : nat) (v : Z) : string := fixed_digits w (Z.to_N v) "".

(** ** Reading the ghost log and the state *)

(** The (partition, predicted offset) of every record given to
    [client.Produce], in dispatch order. *)
Definition predictions (cs : list ClientCall) : list (Z * Z) :=
  omap (fun c => match c with
                 | CProduce r currentOffset => Some (Partition r, currentOffset)
                 | _ => None
                 end) cs.

(** The records given to [client.Produce]. *)
Definition dispatched (cs : list ClientCall) : list KRecord :=
  omap (fun c => match c with CProduce r _ => Some r | _ => None end) cs.

(** A begin, flush or end of a transaction that returned an error. *)
Definition failed_call (c : ClientCall) : bool :=
  match c with
  | CBeginTransaction (Some _) | CFlush (Some _) | CEndTransaction _ (Some _) => true
  | _ => false
  end.

Definition failures (cs : list ClientCall) : list ClientCall := List.filter failed_call cs.

Definition pending_pairs (l : list Pending) : list (Z * Z) :=
  (fun pd => (Partition (pd_record pd), pd_currentOffset pd)) <$> l.

(** The bad offsets recorded so far: in the channel while the epoch runs, in
    the returned list afterwards. *)
Definition bad_list (m : Machine) : list BadOffset :=
  match pc m with
  | Returned _ r _ => r
  | _ => bad_offsets m
  end.

Global Arguments bump_all : simpl never.
Global Arguments predictions : simpl never.
Global Arguments dispatched : simpl never.
Global Arguments failures : simpl never.
Global Arguments pending_pairs : simpl never.
Global Arguments len64 : simpl never.

(** The iteration that starts at [loop_i m] crosses a batch boundary. *)
Definition at_boundary (m : Machine) : bool :=
  (0 <? loop_i m) && (Z.rem (loop_i m) (wrap64 (msgsPerTransaction (config (pw m)))) =? 0).

(** The control records a completed boundary is known to leave in every
    partition: one for the begin, one more for a commit. *)
Definition boundary_delta (aborted : bool) : Z := if aborted then 1 else 2.

(** ** The paths through one iteration, named

    Each function below is the state after one stretch of the loop body on
    the path where nothing fails; the case lemmas of [loop_body] are stated
    with them. *)

(** Lines 221-222: the iteration is counted. *)
Definition entered (m : Machine) : Machine :=
  upd_status (fun s => set_Sent (add64 (Sent s) 1) s)
    (set_produced (add64 (produced m) 1) m).

(** Lines 226-261 with the three calls successful. *)
Definition crossed (o : MainOracle) (m : Machine) : Machine :=
  set_willAbort (o_roll o)
    (set_currentOffsets (bump_all (boundary_delta (willAbort m)) (currentOffsets m))
       (set_calls (calls m ++ [CFlush None; CEndTransaction (negb (willAbort m)) None;
                               CBeginTransaction None]) m)).

(** Lines 264-300 for the record [r] predicted at [c]; [w] is the worker
    after [newRecord] and the checkpoint. *)
Definition sent_one (o : MainOracle) (c : Z) (r : KRecord) (w : TransactionalProducerWorker)
    (m : Machine) : Machine :=
  set_loop_i (add64 (loop_i m) 1)
    (set_pw w
       (set_calls (calls m ++ [CProduce r c])
          (set_inflight (inflight m ++ [mkPending r c (o_sentAt o)])
             (set_currentOffsets (<[Z.to_nat (o_p o) := add64 c 1]> (currentOffsets m)) m)))).

(** A failed call of a boundary: the calls made, the last one failing. *)
Definition broke (cs : list ClientCall) (m : Machine) : Machine :=
  fail_transaction (set_calls (calls m ++ cs) m).

(** The counters and flags of the status are untouched (the checkpoint time
    and the latency summary may differ). *)
Definition status_frame (s s' : TransactionalProducerWorkerStatus) : Prop :=
  Sent s' = Sent s /\ Acked s' = Acked s /\ BadOffsets s' = BadOffsets s /\
  FailedTransactions s' = FailedTransactions s /\ Restarts s' = Restarts s /\
  latency s' = latency s /\ Active s' = Active s.

Definition worker_frame (w w' : TransactionalProducerWorker) : Prop :=
  config w' = config w /\ validOffsets w' = validOffsets w /\
  status_frame (Status w) (Status w').

(** Only the failed-transaction counter moved, by [k] increments. *)
Definition failed_frame (k : nat) (w w' : TransactionalProducerWorker) : Prop :=
  config w' = config w /\ validOffsets w' = validOffsets w /\
  Sent (Status w') = Sent (Status w) /\ Acked (Status w') = Acked (Status w) /\
  BadOffsets (Status w') = BadOffsets (Status w) /\
  Restarts (Status w') = Restarts (Status w) /\
  latency (Status w') = latency (Status w) /\ Active (Status w') = Active (Status w) /\
  FailedTransactions (Status w')
  = Nat.iter k (fun x => add64 x 1) (FailedTransactions (Status w)).

(** ** The transitions of the machine, one per path through the source

    [step] computes; [transition] lists its cases, each with the state it
    leads to. The two are related by [step_transition]. *)

Inductive transition (m : Machine) : Event -> Machine -> Prop :=
| T_enter o :
    (* the loop condition holds *)
    pc m = LoopTop -> loop_i m < arg_n m -> bad_offsets m = [] ->
    transition m (EvMain o) (set_pc Acquire m)
| T_leave o :
    (* the loop condition fails *)
    pc m = LoopTop -> ~ (loop_i m < arg_n m /\ bad_offsets m = []) ->
    transition m (EvMain o) (set_pc Finalize m)
| T_send o m1 c r0 w1 w2 :
    (* a whole iteration: a boundary when one is due, then one record *)
    pc m = Acquire -> len64 (inflight m) < 4096 ->
    0 <= o_p o < nPartitions (config (pw m)) ->
    (at_boundary m = true -> o_flush o = None /\ o_end o = None /\ o_begin o = None) ->
    m1 = (if at_boundary m then crossed o (entered m) else entered m) ->
    currentOffsets m1 !! Z.to_nat (o_p o) = Some c ->
    newRecord (pw m1) 0 c (willAbort m1) = Ok (r0, w1) ->
    worker_frame w1 w2 ->
    transition m (EvMain o) (set_pc LoopTop (sent_one o c (with_Partition (o_p o) r0) w2 m1))
| T_break o cs :
    (* a call of the boundary failed: [break] *)
    pc m = Acquire -> len64 (inflight m) < 4096 ->
    at_boundary m = true -> length (failures cs) = 1%nat -> predictions cs = [] ->
    transition m (EvMain o) (set_pc Finalize (broke cs (entered m)))
| T_stop o how m' cs :
    (* a panic, or a failed store at the checkpoint *)
    pc m = Acquire -> len64 (inflight m) < 4096 ->
    how = Exited \/ how = Panicked ->
    calls m' = calls m ++ cs -> (length (dispatched cs) <= 1)%nat ->
    transition m (EvMain o) (set_pc how m')
| T_finalize o :
    pc m = Finalize ->
    transition m (EvMain o) (set_pc Drain (finalize o m))
| T_return o :
    pc m = Drain -> inflight m = [] ->
    transition m (EvMain o) (finish o m)
| T_ack k offset err now pd :
    running (pc m) = true -> inflight m !! k = Some pd ->
    transition m (EvAck k offset err now)
      (handler (pd_currentOffset pd) (pd_sentAt pd) (with_Offset offset (pd_record pd))
               err now (set_inflight (delete k (inflight m)) m)).

(** ** The invariant of a running epoch

    [w] is the worker [produceInner] was called on and [n] its argument. *)

Definition alive (p : Pc) : Prop := p <> Exited /\ p <> Panicked /\ p <> Deadlocked.

Record epoch_inv (w : TransactionalProducerWorker) (n : Z) (m : Machine) : Prop := {
  inv_alive : alive (pc m);
  inv_arg : arg_n m = n;
  inv_config : config (pw m) = config w;
  (* [i] counts the records dispatched *)
  inv_i : loop_i m = len64 (predictions (calls m));
  inv_i_le : loop_i m <= Z.max 0 n;
  inv_i_lt : pc m = Acquire -> loop_i m < n;
  (* [produced] is [i], or one more once a failed boundary has left the loop *)
  inv_produced :
    produced m = loop_i m \/
    (produced m = loop_i m + 1 /\ loop_i m < n /\ failures (calls m) <> [] /\
     pc m <> LoopTop /\ pc m <> Acquire);
  inv_clean : failures (calls m) = [] -> produced m = loop_i m;
  (* [errored] records a bad offset or a failed transaction call *)
  inv_errored : errored m = true <-> (bad_list m <> [] \/ failures (calls m) <> []);
  (* every ledger entry and every in-flight record is a dispatched record,
     no record twice *)
  inv_ledger :
    exists added,
      validOffsets (pw m) = validOffsets w ++ added /\
      added ++ pending_pairs (inflight m) ⊆+ predictions (calls m) /\
      len64 (predictions (calls m))
        = len64 added + len64 (bad_list m) + len64 (inflight m);
  (* the semaphore bounds the channel *)
  inv_capacity :
    len64 (inflight m) <= 4096 /\
    len64 (bad_offsets m) + len64 (inflight m) <= 4097 /\
    (bad_offsets m = [] \/ pc m = Acquire ->
     len64 (bad_offsets m) + len64 (inflight m) <= 4096);
  inv_returned :
    forall c r e, pc m = Returned c r e ->
      e = None /\ inflight m = [] /\ c = produced m - len64 r /\
      (errored m = false -> r = []);
  (* an epoch touches neither the restart counter nor the active flag *)
  inv_restarts : Restarts (Status (pw m)) = Restarts (Status w);
  inv_active : Active (Status (pw m)) = Active (Status w);
}.

(** The counters of the status, each the count of its events. *)
Record counters_inv (w : TransactionalProducerWorker) (m : Machine) : Prop := {
  cnt_sent : Sent (Status (pw m)) = wrap64 (Sent (Status w) + produced m);
  cnt_acked :
    Acked (Status (pw m))
    = wrap64 (Acked (Status w) + (len64 (validOffsets (pw m)) - len64 (validOffsets w)));
  cnt_bad : BadOffsets (Status (pw m)) = wrap64 (BadOffsets (Status w) + len64 (bad_list m));
  cnt_failed :
    FailedTransactions (Status (pw m))
    = wrap64 (FailedTransactions (Status w) + len64 (failures (calls m)));
  cnt_latency :
    exists samples,
      latency (Status (pw m)) = latency (Status w) ++ samples /\
      len64 samples = len64 (validOffsets (pw m)) - len64 (validOffsets w);
}.

(** The counters are [int64] values. *)
Definition wf_status (s : TransactionalProducerWorkerStatus) : Prop :=
  in_int64 (Sent s) /\ in_int64 (Acked s) /\ in_int64 (BadOffsets s) /\
  in_int64 (FailedTransactions s) /\ in_int64 (Restarts s).

(** The states an epoch can be in. *)
Definition reachable (w : TransactionalProducerWorker) (n : Z) (so : StartOracle)
    (m : Machine) : Prop :=
  exists evs, produceInner w n (so, evs) = Some m.

(** The state a started epoch begins in. *)
Definition started (w : TransactionalProducerWorker) (n : Z) (so : StartOracle) : Machine :=
  {| pw := w; arg_n := n; currentOffsets := bump_all 1 (s_offsets so); errored := false;
     produced := 0; bad_offsets := []; willAbort := s_roll so; loop_i := 0;
     inflight := []; calls := [CBeginTransaction None]; pc := LoopTop |}.

(** How far one completed iteration moves the cursor of partition [q]. *)
Definition advance (m : Machine) (o : MainOracle) (q : nat) : Z :=
  (if at_boundary m then boundary_delta (willAbort m) else 0)
  + (if decide (q = Z.to_nat (o_p o)) then 1 else 0).

(** The calls one completed iteration makes before it dispatches. *)
Definition boundary_calls (m : Machine) : list ClientCall :=
  if at_boundary m
  then [CFlush None; CEndTransaction (negb (willAbort m)) None; CBeginTransaction None]
  else [].

(** ** A small run, used to exercise the statements

    Two partitions at offsets 10 and 20, two one-byte messages, one message
    per transaction, the wall clock for timestamps. *)

Definition ex_config : TransactionalProducerConfig :=
  {| nPartitions := 2; messageSize := 1; messageCount := 2;
     cfg_fakeTimestampMs := -1; msgsPerTransaction := 1 |}.

Definition ex_worker : TransactionalProducerWorker :=
  NewTransactionalProducerWorker ex_config [] 0.

Definition ex_start : StartOracle :=
  {| s_client := None; s_offsets := [10; 20]; s_begin := None; s_roll := false |}.

(** An environment in which every call succeeds and no checkpoint is due. *)
Definition ex_oracle (p : Z) (roll : bool) : MainOracle :=
  {| o_p := p; o_flush := None; o_end := None; o_begin := None; o_roll := roll;
     o_sentAt := 5; o_since := 6; o_now := 6; o_store := None |}.

(** The first message goes to partition 0 and is acknowledged at 11; the
    loop then stands before the iteration that crosses the boundary. *)
Definition ex_first : list Event :=
  [EvMain (ex_oracle 0 false); EvMain (ex_oracle 0 false);
   EvAck 0 11 None 2005; EvMain (ex_oracle 0 false)].

(** The second message goes to partition 1, in a transaction that will be
    aborted; the loop ends and the transaction is closed. *)
Definition ex_second : list Event :=
  [EvMain (ex_oracle 1 true); EvMain (ex_oracle 0 false); EvMain (ex_oracle 0 false)].

(** The whole epoch, the second message acknowledged at [offset]. *)
Definition ex_epoch (offset : Z) : StartOracle * list Event :=
  (ex_start, ex_first ++ ex_second ++ [EvAck 0 offset None 9000; EvMain (ex_oracle 0 false)]).

Definition state_after (env : StartOracle * list Event) : Machine :=
  default (started ex_worker 2 ex_start) (produceInner ex_worker 2 env).

Definition ex_m1 : Machine := Eval vm_compute in state_after (ex_start, ex_first).
Definition ex_m2 : Machine :=
  Eval vm_compute in state_after (ex_start, ex_first ++ [EvMain (ex_oracle 1 true)]).


(** A bad offset arrives while the loop is already past its check: the first
    record of the small run is acknowledged at 12 instead of 11 after the
    second iteration has been entered. *)
Definition ex_late_bad : list Event :=
  [EvMain (ex_oracle 0 false); EvMain (ex_oracle 0 false); EvMain (ex_oracle 0 false);
   EvAck 0 12 None 2005].
Definition ex_m5 : Machine := Eval vm_compute in state_after (ex_start, ex_late_bad).
Definition ex_m6 : Machine :=
  Eval vm_compute in state_after (ex_start, ex_late_bad ++ [EvMain (ex_oracle 1 true)]).

(** The end of the small run when the second record is acknowledged at 24
    instead of 23. *)
Definition ex_m7 : Machine := Eval vm_compute in state_after (ex_epoch 24).

(** ** The retry loop in the words of the specification *)

(** What an invocation of the epoch runner returned, if it returned. *)
Definition inv_value (i : Invocation) : option (Z * list BadOffset * option error) :=
  match inv_end i with
  | Some m =>
    match pc m with
    | Returned c r e => Some (c, r, e)
    | _ => None
    end
  | None => None
  end.

(** Its successful count. *)
Definition inv_count (i : Invocation) : Z :=
  match inv_value i with
  | Some (c, _, _) => c
  | None => 0
  end.

(** The count still to be produced after the given invocations: the total
    less each epoch's successful count. *)
Fixpoint remaining (total : Z) (invs : list Invocation) : Z :=
  match invs with
  | [] => total
  | i :: invs' => remaining (total - inv_count i) invs'
  end.

(** [k] increments of a counter. *)
Definition incremented (k : nat) (x : Z) : Z := Nat.iter k (fun x => add64 x 1) x.

(** An epoch of the small run in which the client reports a delivery
    failure for the first record. *)
Definition ex_delivery_failure : StartOracle * list Event :=
  (ex_start,
   [EvMain (ex_oracle 0 false); EvMain (ex_oracle 0 false);
    EvAck 0 0 (Some "delivery failed") 2005]).

(** An epoch whose client cannot be built, and one whose first transaction
    cannot be begun. *)
Definition ex_no_client : StartOracle * list Event :=
  ({| s_client := Some "no broker"; s_offsets := []; s_begin := None; s_roll := false |}, []).
Definition ex_no_begin : StartOracle * list Event :=
  ({| s_client := None; s_offsets := [10; 20]; s_begin := Some "begin failed";
      s_roll := false |}, []).

(** An epoch of the small run in which [EndTransaction] fails at the
    boundary before the second message; every later call succeeds. *)
Definition ex_end_fails : MainOracle :=
  {| o_p := 1; o_flush := None; o_end := Some "end failed"; o_begin := None;
     o_roll := false; o_sentAt := 5; o_since := 6; o_now := 6; o_store := None |}.
Definition ex_boundary_failure : StartOracle * list Event :=
  (ex_start,
   ex_first ++ [EvMain ex_end_fails; EvMain (ex_oracle 0 false); EvMain (ex_oracle 0 false)]).
Definition ex_m8 : Machine := Eval vm_compute in state_after (ex_start, ex_first ++ [EvMain ex_end_fails]).
Definition ex_m9 : Machine := Eval vm_compute in state_after ex_boundary_failure.

(** ** Environments used to drive an epoch to its return

    [quiet]: every client call succeeds (used where the clock is not read);
    [failing_flush]: the flush fails; [calm m]: every call succeeds and no
    checkpoint is due in state [m]. *)
Definition quiet : MainOracle :=
  {| o_p := 0; o_flush := None; o_end := None; o_begin := None; o_roll := false;
     o_sentAt := 0; o_since := 0; o_now := 0; o_store := None |}.
Definition calm (m : Machine) : MainOracle :=
  {| o_p := 0; o_flush := None; o_end := None; o_begin := None; o_roll := false;
     o_sentAt := 0; o_since := lastCheckpoint (Status (pw m)); o_now := 0; o_store := None |}.

(** ** Further readings of the state, for the properties beyond the claims *)

(** How many transaction calls can have failed, by where the epoch stands:
    none while the loop runs, one when a boundary has left it, two more
    while the transaction is closed. *)
Definition failures_bound (m : Machine) : Prop :=
  (pc m = LoopTop \/ pc m = Acquire -> failures (calls m) = []) /\
  (pc m = Finalize -> (length (failures (calls m)) <= 1)%nat) /\
  (length (failures (calls m)) <= 3)%nat.


(** *** The log, step by step

    What one event adds to the log of client calls, and what it does to the
    variables the log depends on. *)

(** The calls of a boundary that stops at its first failing call. *)
Definition break_shape (wa : bool) (o : MainOracle) (cs : list ClientCall) : Prop :=
  (is_Some (o_flush o) /\ cs = [CFlush (o_flush o)]) \/
  (is_Some (o_end o) /\ cs = [CFlush None; CEndTransaction (negb wa) (o_end o)]) \/
  (is_Some (o_begin o) /\
   cs = [CFlush None; CEndTransaction (negb wa) None; CBeginTransaction (o_begin o)]).

(** The cursors an iteration dispatches from: moved by the boundary when it
    crosses one. *)
Definition cursors_at_dispatch (m : Machine) : list Z :=
  if at_boundary m
  then bump_all (boundary_delta (willAbort m)) (currentOffsets m)
  else currentOffsets m.

Inductive log_step (m : Machine) (ev : Event) (m' : Machine) : Prop :=
| LS_quiet :
    (* the loop condition, the drain, the return, a callback *)
    calls m' = calls m -> willAbort m' = willAbort m -> loop_i m' = loop_i m ->
    currentOffsets m' = currentOffsets m ->
    fakeTimestampMs (pw m') = fakeTimestampMs (pw m) ->
    (pc m' = pc m \/
     (pc m = LoopTop /\ (pc m' = Acquire \/ pc m' = Finalize)) \/
     (pc m = Drain /\ exists c r e, pc m' = Returned c r e)) ->
    log_step m ev m'
| LS_send o c r0 w0 w1 :
    (* a whole iteration *)
    ev = EvMain o -> pc m = Acquire ->
    0 <= o_p o < nPartitions (config (pw m)) ->
    calls m' = calls m ++ boundary_calls m ++ [CProduce (with_Partition (o_p o) r0) c] ->
    willAbort m' = (if at_boundary m then o_roll o else willAbort m) ->
    loop_i m' = add64 (loop_i m) 1 ->
    cursors_at_dispatch m !! Z.to_nat (o_p o) = Some c ->
    currentOffsets m' = <[Z.to_nat (o_p o) := add64 c 1]> (cursors_at_dispatch m) ->
    config w0 = config (pw m) -> fakeTimestampMs w0 = fakeTimestampMs (pw m) ->
    newRecord w0 0 c (willAbort m') = Ok (r0, w1) ->
    fakeTimestampMs (pw m') = fakeTimestampMs w1 ->
    pc m' = LoopTop ->
    log_step m ev m'
| LS_break o cs :
    (* a call of the boundary failed *)
    ev = EvMain o -> pc m = Acquire -> at_boundary m = true ->
    break_shape (willAbort m) o cs ->
    calls m' = calls m ++ cs -> willAbort m' = willAbort m -> loop_i m' = loop_i m ->
    currentOffsets m' = currentOffsets m ->
    fakeTimestampMs (pw m') = fakeTimestampMs (pw m) ->
    pc m' = Finalize ->
    log_step m ev m'
| LS_finalize o :
    ev = EvMain o -> pc m = Finalize ->
    calls m' = calls m ++ [CFlush (o_flush o); CEndTransaction (negb (willAbort m)) (o_end o)] ->
    willAbort m' = willAbort m -> loop_i m' = loop_i m ->
    currentOffsets m' = currentOffsets m ->
    fakeTimestampMs (pw m') = fakeTimestampMs (pw m) ->
    pc m' = Drain ->
    log_step m ev m'.

(** *** Transactions in the log *)

(** The key carries the sentinel of an aborted transaction. *)
Definition aborted_key (r : KRecord) : bool := String.prefix "ABORTED MSG: " (Key r).

(** The records given to the client since the last [BeginTransaction] that
    succeeded: the records of the transaction that is open at the end of the
    log. *)
Definition note_call (acc : list KRecord) (c : ClientCall) : list KRecord :=
  match c with
  | CBeginTransaction None => []
  | CProduce r _ => acc ++ [r]
  | _ => acc
  end.
Definition open_records (cs : list ClientCall) : list KRecord := fold_left note_call cs [].

(** Every [EndTransaction] of the log asks for the fate that the keys of the
    transaction's records announce: a commit when none carries the sentinel,
    an abort when all do. *)
Definition ends_match_keys (cs : list ClientCall) : Prop :=
  forall k commit res,
    cs !! k = Some (CEndTransaction commit res) ->
    Forall (fun r => aborted_key r = negb commit) (open_records (take k cs)).

Definition sentinel_inv (cs : list ClientCall) (wa : bool) : Prop :=
  Forall (fun r => aborted_key r = wa) (open_records cs) /\ ends_match_keys cs.

(** What a call must satisfy to keep [sentinel_inv]. *)
Definition call_agrees (wa : bool) (c : ClientCall) : Prop :=
  match c with
  | CEndTransaction commit _ => commit = negb wa
  | CProduce r _ => aborted_key r = wa
  | _ => True
  end.

(** The number of records in each transaction of the log, newest first: a
    [BeginTransaction] that succeeds opens a transaction, and a record given
    to the client joins the one that is open. *)
Definition count_call (acc : list Z) (c : ClientCall) : list Z :=
  match c with
  | CBeginTransaction None => 0 :: acc
  | CProduce _ _ =>
    match acc with
    | b :: t => (b + 1) :: t
    | [] => []
    end
  | _ => acc
  end.
Definition batches (cs : list ClientCall) : list Z := fold_left count_call cs [].

(** With [i] records dispatched in batches of [q]: full transactions, and
    the open one. *)
Definition batch_inv (q i : Z) (bs : list Z) : Prop :=
  exists current closed,
    bs = current :: closed /\ Forall (fun b => b = q) closed /\
    i = current + q * len64 closed /\ 0 <= current <= q /\ (0 < i -> 0 < current).

(** The small run with fake timestamps that start at one second. *)
Definition ex_worker_ts : TransactionalProducerWorker :=
  NewTransactionalProducerWorker
    {| nPartitions := 2; messageSize := 1; messageCount := 2;
       cfg_fakeTimestampMs := 1000; msgsPerTransaction := 1 |} [] 0.
Definition ex_ts : Machine :=
  Eval vm_compute in
    default (started ex_worker_ts 2 ex_start) (produceInner ex_worker_ts 2 (ex_epoch 23)).

(** *** The cursors and the offsets predicted from them *)

(** The cursor of a partition is past the offset the partition started at,
    by at most three for every iteration and one for the opening; it is past
    every offset predicted for the partition; and the predictions for one
    partition increase in dispatch order. *)
Definition cursor_inv (so : StartOracle) (m : Machine) : Prop :=
  (forall q c, currentOffsets m !! q = Some c ->
     exists s, s_offsets so !! q = Some s /\ s < c <= s + 1 + 3 * loop_i m) /\
  (forall p a, (p, a) ∈ predictions (calls m) ->
     0 <= p /\ exists c, currentOffsets m !! Z.to_nat p = Some c /\ a < c) /\
  (forall (i j : nat) p a b, (i < j)%nat ->
     predictions (calls m) !! i = Some (p, a) ->
     predictions (calls m) !! j = Some (p, b) -> a < b).

(** The start offsets leave room for an epoch of [n] messages. *)
Definition offsets_have_room (so : StartOracle) (n : Z) : Prop :=
  forall s, s ∈ s_offsets so -> int64_min <= s /\ s + 1 + 3 * Z.max 0 n <= int64_max.

(** A worker without partitions and one with a batch size of zero, each
    about to run an iteration that panics: the first, and the second. *)
Definition ex_worker_none : TransactionalProducerWorker :=
  NewTransactionalProducerWorker
    {| nPartitions := 0; messageSize := 1; messageCount := 2;
       cfg_fakeTimestampMs := -1; msgsPerTransaction := 1 |} [] 0.
Definition ex_none : Machine :=
  Eval vm_compute in
    default (started ex_worker_none 2 ex_start)
      (produceInner ex_worker_none 2 (ex_start, [EvMain quiet])).
Definition ex_worker_zero : TransactionalProducerWorker :=
  NewTransactionalProducerWorker
    {| nPartitions := 2; messageSize := 1; messageCount := 2;
       cfg_fakeTimestampMs := -1; msgsPerTransaction := 0 |} [] 0.
Definition ex_zero : Machine :=
  Eval vm_compute in
    default (started ex_worker_zero 2 ex_start) (produceInner ex_worker_zero 2 (ex_start, ex_first)).

(** The small run when six seconds have passed at the first dispatch: a
    checkpoint is due, and it is stamped with the time read then. *)
Definition ex_late : MainOracle :=
  {| o_p := 0; o_flush := None; o_end := None; o_begin := None; o_roll := false;
     o_sentAt := 5; o_since := 6000000000; o_now := 6000000001; o_store := None |}.
Definition ex_acquire : Machine :=
  Eval vm_compute in
    default (started ex_worker 2 ex_start)
      (produceInner ex_worker 2 (ex_start, [EvMain (ex_oracle 0 false)])).
Definition ex_checkpointed : Machine :=
  Eval vm_compute in
    default (started ex_worker 2 ex_start)
      (produceInner ex_worker 2 (ex_start, [EvMain (ex_oracle 0 false); EvMain ex_late])).

(** *** The records and the order of the calls *)

(** What a record given to the client looks like, for the configuration
    [cfg] and the offset [c] predicted for it. *)
Definition well_formed_call (cfg : TransactionalProducerConfig) (call : ClientCall) : Prop :=
  match call with
  | CProduce r c =>
    0 <= Partition r < nPartitions cfg /\
    Offset r = 0 /\
    Value r = replicate (Z.to_nat (messageSize cfg)) Byte.x00 /\
    Key r = (if aborted_key r then "ABORTED MSG: " else "")
            +:+ fmt_d0 6 0 +:+ "." +:+ fmt_d0 18 c
  | _ => True
  end.

(** Which call may come right after which: a record after a record or a
    begin that succeeded; a flush after a record, a begin, or a flush or an
    end that failed; an end after a flush; a begin after an end that
    succeeded. *)
Definition may_follow (a b : ClientCall) : bool :=
  match b, a with
  | CProduce _ _, (CProduce _ _ | CBeginTransaction None) => true
  | CFlush _, (CProduce _ _ | CBeginTransaction _ | CFlush (Some _)
               | CEndTransaction _ (Some _)) => true
  | CEndTransaction _ _, CFlush _ => true
  | CBeginTransaction _, CEndTransaction _ None => true
  | _, _ => false
  end.

(** The log is a chain of [may_follow]. *)
Fixpoint in_order (cs : list ClientCall) : bool :=
  match cs with
  | a :: (b :: _) as rest => may_follow a b && in_order rest
  | _ => true
  end.

(** The last call of the log is a record or a begin that succeeded: the
    transaction is open and nothing has failed. *)
Definition tail_open (cs : list ClientCall) : Prop :=
  match last cs with
  | Some (CProduce _ _ | CBeginTransaction None) => True
  | _ => False
  end.

(** The last call of the log failed. *)
Definition tail_failed (cs : list ClientCall) : Prop :=
  match last cs with
  | Some c => failed_call c = true
  | None => False
  end.

(** The last call of the log is an end of a transaction. *)
Definition tail_closed (cs : list ClientCall) : Prop :=
  match last cs with
  | Some (CEndTransaction _ _) => True
  | _ => False
  end.

Definition order_inv (m : Machine) : Prop :=
  in_order (calls m) = true /\
  head (calls m) = Some (CBeginTransaction None) /\
  (pc m = LoopTop \/ pc m = Acquire -> tail_open (calls m)) /\
  (pc m = Finalize -> tail_open (calls m) \/ tail_failed (calls m)) /\
  (pc m = Drain \/ (exists c r e, pc m = Returned c r e) -> tail_closed (calls m)).
(** * Properties *)

(** ** Arithmetic in range does not wrap *)

Lemma wrap64_id z : in_int64 z -> wrap64 z = z.
Proof.
  unfold in_int64, int64_min, int64_max, wrap64. intros Hz.
  rewrite Z.mod_small by lia. lia.
Qed.

Lemma wrap64_range z : in_int64 (wrap64 z).
Proof.
  unfold in_int64, int64_min, int64_max, wrap64.
  pose proof (Z.mod_pos_bound (z + 2 ^ 63) (2 ^ 64)). lia.
Qed.

Lemma add64_add64 a b c : add64 (add64 a b) c = wrap64 (a + b + c).
Proof.
  unfold add64, wrap64.
  replace ((a + b + 2 ^ 63) mod 2 ^ 64 - 2 ^ 63 + c + 2 ^ 63)
    with ((a + b + 2 ^ 63) mod 2 ^ 64 + c) by lia.
  rewrite Zplus_mod_idemp_l. f_equal. f_equal. lia.
Qed.

(** ** Strings *)

Lemma append_cons x (a b : string) : String x a +:+ b = String x (a +:+ b).
Proof. reflexivity. Qed.

Lemma append_assoc (a b c : string) : (a +:+ b) +:+ c = a +:+ (b +:+ c).
Proof. induction a as [|x a IH]; [done|]. rewrite !append_cons. by f_equal. Qed.

Lemma append_nil_r (a : string) : a +:+ "" = a.
Proof. induction a as [|x a IH]; [done|]. rewrite append_cons. by f_equal. Qed.

Lemma length_append (a b : string) :
  String.length (a +:+ b) = (String.length a + String.length b)%nat.
Proof. induction a as [|x a IH]; [done|]. rewrite append_cons. cbn. by f_equal. Qed.

Lemma zeros_snoc k : zeros k +:+ "0" = zeros (S k).
Proof.
  induction k as [|k IH]; [done|].
  change (zeros (S k)) with (String "0" (zeros k)) at 1. rewrite append_cons, IH. done.
Qed.

Lemma length_zeros k : String.length (zeros k) = k.
Proof. induction k as [|k IH]; [done|]. cbn. by f_equal. Qed.

Lemma pretty_N_char_digit d : (d < 10)%N -> pretty_N_char d = digit_char d.
Proof.
  intros Hd. assert (Hc : (d = 0 \/ d = 1 \/ d = 2 \/ d = 3 \/ d = 4 \/ d = 5
                           \/ d = 6 \/ d = 7 \/ d = 8 \/ d = 9)%N) by lia.
  destruct Hc as [->|[->|[->|[->|[->|[->|[->|[->|[->| ->]]]]]]]]]; reflexivity.
Qed.

Lemma pretty_N_go_acc x s : pretty_N_go x s = pretty_N_go x "" +:+ s.
Proof.
  revert s. induction (N.lt_wf_0 x) as [x _ IH]; intros s.
  destruct (decide (0 < x)%N) as [Hx|Hx].
  - rewrite (pretty_N_go_step x s), (pretty_N_go_step x "") by done.
    assert (Hlt : (x `div` 10 < x)%N) by (apply N.div_lt; lia).
    rewrite (IH _ Hlt (String _ s)), (IH _ Hlt (String _ "")).
    by rewrite append_assoc.
  - assert (x = 0%N) as -> by lia. by rewrite !pretty_N_go_0.
Qed.

Lemma fixed_digits_acc w x s : fixed_digits w x s = fixed_digits w x "" +:+ s.
Proof.
  revert x s. induction w as [|w IH]; intros x s; simpl; [done|].
  rewrite (IH _ (String _ s)), (IH _ (String _ "")). by rewrite append_assoc.
Qed.

Lemma fixed_digits_0 w : fixed_digits w 0 "" = zeros w.
Proof.
  induction w as [|w IH]; [done|].
  cbn [fixed_digits]. change (0 `div` 10)%N with 0%N.
  rewrite fixed_digits_acc, IH. apply zeros_snoc.
Qed.

Lemma length_fixed_digits w x s :
  String.length (fixed_digits w x s) = (w + String.length s)%nat.
Proof.
  revert x s. induction w as [|w IH]; intros x s; simpl; [done|].
  rewrite IH. simpl. lia.
Qed.

(** Below [10^w], padding the shortest decimal form with zeros gives the
    [w]-digit form. *)
Lemma pad_pretty_N_go w x :
  (x < 10 ^ N.of_nat w)%N ->
  zeros (w - String.length (pretty_N_go x "")) +:+ pretty_N_go x "" = fixed_digits w x "".
Proof.
  revert x. induction w as [|w IH]; intros x Hx.
  - assert (x = 0%N) as -> by (simpl in Hx; lia). by rewrite pretty_N_go_0.
  - destruct (decide (0 < x)%N) as [Hpos|Hzero].
    + rewrite (pretty_N_go_step x "") by done.
      rewrite pretty_N_go_acc. cbn [fixed_digits]. rewrite fixed_digits_acc.
      assert (Hdiv : (x `div` 10 < 10 ^ N.of_nat w)%N).
      { apply N.Div0.div_lt_upper_bound.
        replace (N.of_nat (S w)) with (N.succ (N.of_nat w)) in Hx by lia.
        rewrite N.pow_succ_r' in Hx. lia. }
      rewrite <- (IH _ Hdiv).
      rewrite length_append. cbn [String.length].
      replace (S w - (String.length (pretty_N_go (x `div` 10) "") + 1))%nat
        with (w - String.length (pretty_N_go (x `div` 10) ""))%nat by lia.
      rewrite pretty_N_char_digit by (apply N.mod_lt; lia).
      by rewrite append_assoc.
    + assert (x = 0%N) as -> by lia.
      rewrite pretty_N_go_0, fixed_digits_0. cbn [String.length].
      rewrite Nat.sub_0_r. apply append_nil_r.
Qed.

Lemma fmt_d0_fixed_width w v :
  (0 < w)%nat -> 0 <= v < 10 ^ Z.of_nat w -> fmt_d0 w v = fixed_width w v.
Proof.
  intros Hw [Hv0 Hv]. unfold fmt_d0, fixed_width.
  replace (v <? 0) with false by (symmetry; apply Z.ltb_ge; lia).
  replace (Z.abs_N v) with (Z.to_N v) by (destruct v; simpl; lia).
  unfold pretty, pretty_N. case_decide as Hz.
  - rewrite Hz, fixed_digits_0. cbn [String.length].
    destruct w as [|w]; [lia|]. replace (S w - 1)%nat with w by lia. apply zeros_snoc.
  - apply pad_pretty_N_go.
    assert (Hpow : Z.of_N (10 ^ N.of_nat w) = 10 ^ Z.of_nat w).
    { rewrite N2Z.inj_pow. f_equal. lia. }
    lia.
Qed.

(** ** Case lemmas of the machine *)

Lemma status_frame_refl s : status_frame s s.
Proof. by repeat split. Qed.

Lemma worker_frame_refl w : worker_frame w w.
Proof. repeat split. Qed.

Lemma worker_frame_trans w1 w2 w3 :
  worker_frame w1 w2 -> worker_frame w2 w3 -> worker_frame w1 w3.
Proof.
  unfold worker_frame, status_frame. intros H1 H2.
  destruct_and!. repeat split; congruence.
Qed.

Lemma newRecord_frame w pid sq ab r w' :
  newRecord w pid sq ab = Ok (r, w') -> worker_frame w w'.
Proof.
  unfold newRecord. intros H. repeat case_match; simplify_eq; repeat split.
Qed.

Lemma newRecord_total w pid sq ab :
  0 <= messageSize (config w) -> exists r w', newRecord w pid sq ab = Ok (r, w').
Proof.
  intros Hsz. unfold newRecord.
  replace (messageSize (config w) <? 0) with false by (symmetry; apply Z.ltb_ge; lia).
  case_match; eauto.
Qed.

Lemma dispatch_cases o m :
  match dispatch o (o_p o) m with
  | FNext m' =>
    exists c r0 w1 w2,
      currentOffsets m !! Z.to_nat (o_p o) = Some c /\
      newRecord (pw m) 0 c (willAbort m) = Ok (r0, w1) /\
      worker_frame w1 w2 /\
      m' = sent_one o c (with_Partition (o_p o) r0) w2 m
  | FBreak _ => False
  | FStop how m' =>
    (how = Exited \/ how = Panicked) /\
    exists cs, calls m' = calls m ++ cs /\ (length (dispatched cs) <= 1)%nat
  end.
Proof.
  unfold dispatch.
  destruct (currentOffsets m !! Z.to_nat (o_p o)) as [c|] eqn:Hc.
  2:{ split; [by right|]. exists []. split; [by rewrite app_nil_r | by cbv; lia]. }
  cbn [pw willAbort set_currentOffsets].
  destruct (newRecord (pw m) 0 c (willAbort m)) as [[r0 w1]| |] eqn:Hr.
  2:{ split; [by left|]. exists []. split; [by rewrite app_nil_r | by cbv; lia]. }
  2:{ split; [by right|]. exists []. split; [by rewrite app_nil_r | by cbv; lia]. }
  unfold produceCheckpoint, Chk.
  cbn [pw set_pw set_inflight log_call set_calls set_currentOffsets upd_status].
  destruct (5000000000 <? o_since o - lastCheckpoint (Status w1)).
  - destruct (o_store o).
    { split; [by left|]. eexists [_]. split; [done | by cbv; lia]. }
    exists c, r0, w1, (upd_Status (set_lastCheckpoint (o_now o)) w1).
    repeat split; done.
  - exists c, r0, w1, w1. repeat split; done.
Qed.

Lemma boundary_cases o m :
  match boundary o m with
  | FNext m' =>
    o_flush o = None /\ o_end o = None /\ o_begin o = None /\ m' = crossed o m
  | FBreak m' =>
    exists cs, m' = broke cs m /\ length (failures cs) = 1%nat /\ predictions cs = []
  | FStop _ _ => False
  end.
Proof.
  unfold boundary.
  destruct (o_flush o) as [e1|].
  { exists [CFlush (Some e1)]. by repeat split. }
  destruct (o_end o) as [e2|].
  { exists [CFlush None; CEndTransaction (negb (willAbort m)) (Some e2)].
    split; [|by split]. unfold broke, log_call. cbn. by rewrite <- app_assoc. }
  destruct (o_begin o) as [e3|].
  { exists [CFlush None; CEndTransaction (negb (willAbort m)) None; CBeginTransaction (Some e3)].
    split; [|by split]. unfold broke, log_call. cbn. by rewrite <- !app_assoc. }
  repeat split. unfold crossed, boundary_delta, log_call. cbn.
  rewrite <- !app_assoc. by destruct (willAbort m).
Qed.

Lemma loop_body_cases o m :
  match loop_body o m with
  | FNext m' =>
    0 < nPartitions (config (pw m)) /\
    (at_boundary m = true -> o_flush o = None /\ o_end o = None /\ o_begin o = None) /\
    exists c r0 w1 w2,
      let m1 := if at_boundary m then crossed o (entered m) else entered m in
      currentOffsets m1 !! Z.to_nat (o_p o) = Some c /\
      newRecord (pw m1) 0 c (willAbort m1) = Ok (r0, w1) /\
      worker_frame w1 w2 /\
      m' = sent_one o c (with_Partition (o_p o) r0) w2 m1
  | FBreak m' =>
    at_boundary m = true /\
    exists cs, m' = broke cs (entered m) /\ length (failures cs) = 1%nat /\ predictions cs = []
  | FStop how m' =>
    (how = Exited \/ how = Panicked) /\
    exists cs, calls m' = calls m ++ cs /\ (length (dispatched cs) <= 1)%nat
  end.
Proof.
  unfold loop_body. fold (entered m).
  change (nPartitions (config (pw (entered m)))) with (nPartitions (config (pw m))).
  change (loop_i (entered m)) with (loop_i m).
  change (msgsPerTransaction (config (pw (entered m))))
    with (msgsPerTransaction (config (pw m))).
  unfold at_boundary.
  assert (Hnone : exists cs, calls (entered m) = calls m ++ cs
                              /\ (length (dispatched cs) <= 1)%nat).
  { exists []. split; [by rewrite app_nil_r | by cbv; lia]. }
  destruct (nPartitions (config (pw m)) <=? 0) eqn:Hn; [split; [by right|done]|].
  apply Z.leb_gt in Hn.
  assert (Hsend : forall m1,
    (exists cs, calls m1 = calls m ++ cs /\ dispatched cs = []) ->
    m1 = (if (0 <? loop_i m)
             && (Z.rem (loop_i m) (wrap64 (msgsPerTransaction (config (pw m)))) =? 0)
          then crossed o (entered m) else entered m) ->
    ((0 <? loop_i m)
       && (Z.rem (loop_i m) (wrap64 (msgsPerTransaction (config (pw m)))) =? 0) = true ->
     o_flush o = None /\ o_end o = None /\ o_begin o = None) ->
    match dispatch o (o_p o) m1 with
    | FNext m' =>
      0 < nPartitions (config (pw m)) /\
      ((0 <? loop_i m)
         && (Z.rem (loop_i m) (wrap64 (msgsPerTransaction (config (pw m)))) =? 0) = true ->
       o_flush o = None /\ o_end o = None /\ o_begin o = None) /\
      exists c r0 w1 w2,
        let m1 := if (0 <? loop_i m)
                     && (Z.rem (loop_i m) (wrap64 (msgsPerTransaction (config (pw m)))) =? 0)
                  then crossed o (entered m) else entered m in
        currentOffsets m1 !! Z.to_nat (o_p o) = Some c /\
        newRecord (pw m1) 0 c (willAbort m1) = Ok (r0, w1) /\
        worker_frame w1 w2 /\
        m' = sent_one o c (with_Partition (o_p o) r0) w2 m1
    | FBreak m' =>
      (0 <? loop_i m)
        && (Z.rem (loop_i m) (wrap64 (msgsPerTransaction (config (pw m)))) =? 0) = true /\
      exists cs, m' = broke cs (entered m) /\ length (failures cs) = 1%nat /\ predictions cs = []
    | FStop how m' =>
      (how = Exited \/ how = Panicked) /\
      exists cs, calls m' = calls m ++ cs /\ (length (dispatched cs) <= 1)%nat
    end).
  { intros m1 (cs1 & Hcs1 & Hd1) Hm1 Hok. pose proof (dispatch_cases o m1) as Hd.
    destruct (dispatch o (o_p o) m1) as [m'| |]; [|done|].
    - destruct Hd as (c & r0 & w1 & w2 & ? & ? & ? & ->).
      split; [done|]. split; [done|]. exists c, r0, w1, w2. cbn zeta. by rewrite <- Hm1.
    - destruct Hd as (Hhow & cs & Hcs & Hlen). split; [done|].
      exists (cs1 ++ cs). rewrite Hcs, Hcs1, <- app_assoc. split; [done|].
      unfold dispatched in *. rewrite omap_app, Hd1. done. }
  assert (Hent : exists cs, calls (entered m) = calls m ++ cs /\ dispatched cs = []).
  { exists []. by rewrite app_nil_r. }
  destruct (0 <? loop_i m) eqn:Hi; cbn [andb] in *.
  - destruct (wrap64 (msgsPerTransaction (config (pw m))) =? 0) eqn:Hper;
      [split; [by right|done]|].
    destruct (Z.rem (loop_i m) (wrap64 (msgsPerTransaction (config (pw m)))) =? 0) eqn:Hrem.
    + pose proof (boundary_cases o (entered m)) as Hb.
      destruct (boundary o (entered m)) as [m1| m1 |]; [| |done].
      * destruct Hb as (? & ? & ? & ->). apply Hsend; [|done..].
        by eexists [_; _; _].
      * split; [done|]. destruct Hb as (cs & -> & ? & ?). by exists cs.
    + by apply Hsend.
  - by apply Hsend.
Qed.

Lemma step_transition m ev m' : step m ev = Some m' -> transition m ev m'.
Proof.
  unfold step. destruct ev as [o|k offset err now].
  - destruct (pc m) eqn:Hpc; try done.
    + destruct ((loop_i m <? arg_n m) && (len64 (bad_offsets m) =? 0)) eqn:Hc;
        intros [= <-].
      * apply andb_true_iff in Hc as [Hi Hb]. apply Z.ltb_lt in Hi. apply Z.eqb_eq in Hb.
        apply T_enter; [done..|]. unfold len64 in Hb. by destruct (bad_offsets m).
      * apply T_leave; [done|]. intros [Hi Hb].
        apply andb_false_iff in Hc as [Hc|Hc].
        -- apply Z.ltb_ge in Hc. lia.
        -- rewrite Hb in Hc. done.
    + destruct (len64 (inflight m) <? 4096) eqn:Hsem; [|done]. apply Z.ltb_lt in Hsem.
      cbn [negb].
      destruct ((0 <? nPartitions (config (pw m)))
                && negb ((0 <=? o_p o) && (o_p o <? nPartitions (config (pw m))))) eqn:Hp;
        [done|].
      intros [= <-]. pose proof (loop_body_cases o m) as Hl.
      destruct (loop_body o m) as [m1|m1|how m1].
      * destruct Hl as (Hn & Hok & c & r0 & w1 & w2 & Hc & Hr & Hf & ->).
        eapply T_send; try done.
        apply andb_false_iff in Hp as [Hp|Hp]; [apply Z.ltb_ge in Hp; lia|].
        apply negb_false_iff, andb_true_iff in Hp as [?%Z.leb_le ?%Z.ltb_lt]. lia.
      * destruct Hl as (Hb & cs & -> & ? & ?). by apply T_break.
      * destruct Hl as (? & cs & ? & ?). by eapply T_stop.
    + intros [= <-]. by apply T_finalize.
    + destruct (inflight m) eqn:Hin; [|done]. intros [= <-]. by apply T_return.
  - destruct (running (pc m)) eqn:Hrun; [|done].
    destruct (inflight m !! k) as [pd|] eqn:Hk; [|done].
    intros [= <-]. by apply T_ack.
Qed.

(** An invariant of every transition is an invariant of every run. *)
Lemma run_invariant (I : Machine -> Prop) :
  (forall m ev m', I m -> transition m ev m' -> I m') ->
  forall evs m m', I m -> run m evs = Some m' -> I m'.
Proof.
  intros Hstep evs. induction evs as [|ev evs IH]; intros m m' Hm Hrun; simpl in Hrun.
  - by simplify_eq.
  - destruct (step m ev) as [m1|] eqn:Hs; [|done].
    eapply IH; [|done]. eapply Hstep; [done|]. by apply step_transition.
Qed.

Lemma run_app m evs1 evs2 :
  run m (evs1 ++ evs2) = run m evs1 ≫= fun m1 => run m1 evs2.
Proof.
  revert m. induction evs1 as [|ev evs1 IH]; intros m; simpl; [done|].
  destruct (step m ev); simpl; [apply IH | done].
Qed.

Lemma len64_app {A} (l1 l2 : list A) : len64 (l1 ++ l2) = len64 l1 + len64 l2.
Proof. unfold len64. rewrite length_app. lia. Qed.

Lemma len64_nil {A} : len64 (@nil A) = 0.
Proof. done. Qed.

Lemma len64_cons {A} (x : A) l : len64 (x :: l) = 1 + len64 l.
Proof. unfold len64. cbn [length]. lia. Qed.

Lemma len64_nonneg {A} (l : list A) : 0 <= len64 l.
Proof. unfold len64. lia. Qed.

Lemma len64_zero {A} (l : list A) : len64 l = 0 <-> l = [].
Proof. unfold len64. destruct l; cbn [length]; split; (done || lia). Qed.

Lemma predictions_app cs1 cs2 : predictions (cs1 ++ cs2) = predictions cs1 ++ predictions cs2.
Proof. apply omap_app. Qed.

Lemma failures_app cs1 cs2 : failures (cs1 ++ cs2) = failures cs1 ++ failures cs2.
Proof. apply List.filter_app. Qed.

Lemma pending_pairs_app l1 l2 : pending_pairs (l1 ++ l2) = pending_pairs l1 ++ pending_pairs l2.
Proof. apply fmap_app. Qed.

Lemma len64_delete {A} (l : list A) k x :
  l !! k = Some x -> len64 (delete k l) = len64 l - 1.
Proof.
  intros H. unfold len64. rewrite length_delete by eauto. 
  apply lookup_lt_Some in H. lia.
Qed.

Lemma pending_pairs_delete l k pd :
  l !! k = Some pd ->
  pending_pairs l ≡ₚ (Partition (pd_record pd), pd_currentOffset pd) :: pending_pairs (delete k l).
Proof.
  intros H. unfold pending_pairs. rewrite (delete_Permutation l k pd H) at 1. done.
Qed.

Lemma bad_list_running m : running (pc m) = true -> bad_list m = bad_offsets m.
Proof. unfold bad_list. by destruct (pc m). Qed.

Lemma alive_running p : running p = true -> alive p.
Proof. by destruct p. Qed.

Lemma add64_small a : 0 <= a < int64_max -> add64 a 1 = a + 1.
Proof.
  intros H. apply wrap64_id. unfold in_int64, int64_min, int64_max in *. lia.
Qed.

Lemma predictions_produce r c : predictions [CProduce r c] = [(Partition r, c)].
Proof. done. Qed.

Lemma pending_pairs_one r c t : pending_pairs [mkPending r c t] = [(Partition r, c)].
Proof. done. Qed.

Ltac len_lia :=
  rewrite ?len64_app in *; unfold len64 in *; cbn [length] in *; lia.

Lemma finalize_cases o m :
  exists cs w',
    cs = [CFlush (o_flush o); CEndTransaction (negb (willAbort m)) (o_end o)] /\
    predictions cs = [] /\ failed_frame (length (failures cs)) (pw m) w' /\
    ((failures cs = [] /\ finalize o m = set_pw w' (set_calls (calls m ++ cs) m)) \/
     (failures cs <> [] /\
      finalize o m = set_errored true (set_pw w' (set_calls (calls m ++ cs) m)))).
Proof.
  unfold finalize.
  destruct (o_flush o) as [e1|], (o_end o) as [e2|];
    eexists; eexists; (split; [reflexivity|]); (split; [done|]).
  - split; [|right; split; [done|]]; cycle 1.
    + unfold fail_transaction, count_failed, upd_status, upd_Status, log_call. cbn.
      rewrite <- app_assoc. reflexivity.
    + repeat split.
  - split; [|right; split; [done|]]; cycle 1.
    + unfold fail_transaction, count_failed, upd_status, upd_Status, log_call. cbn.
      rewrite <- app_assoc. reflexivity.
    + repeat split.
  - split; [|right; split; [done|]]; cycle 1.
    + unfold fail_transaction, count_failed, upd_status, upd_Status, log_call. cbn.
      rewrite <- app_assoc. reflexivity.
    + repeat split.
  - split; [|left; split; [done|]]; cycle 1.
    + unfold log_call. cbn. rewrite <- app_assoc. reflexivity.
    + repeat split.
Qed.

Ltac exists_added H :=
  let added := fresh "added" in
  destruct H as (added & ? & ? & ?); exists added; cbn;
  rewrite ?predictions_app, ?app_nil_r; repeat split; (congruence || done).

Section epoch_invariant.
Variable w : TransactionalProducerWorker.
Variable n : Z.
Hypothesis n_int64 : in_int64 n.

Lemma epoch_inv_enter m :
  epoch_inv w n m -> pc m = LoopTop -> loop_i m < arg_n m -> bad_offsets m = [] ->
  epoch_inv w n (set_pc Acquire m).
Proof.
  intros [] Hpc Hi Hb. unfold bad_list in *. rewrite Hpc in *.
  constructor; cbn; try done.
  - intros _. lia.
  - destruct inv_produced0 as [?|(? & ? & ? & ? & ?)]; [by left|done].
  - intuition.
Qed.

Lemma epoch_inv_leave m :
  epoch_inv w n m -> pc m = LoopTop -> epoch_inv w n (set_pc Finalize m).
Proof.
  intros [] Hpc. unfold bad_list in *. rewrite Hpc in *.
  constructor; cbn; try done.
  - destruct inv_produced0 as [?|(? & ? & ? & ? & ?)]; [by left|done].
  - destruct inv_capacity0 as (? & ? & H3). repeat split; [done..|]. intros [?|?]; [|done]. auto.
Qed.

Lemma epoch_inv_send m o m1 c r0 w1 w2 :
  epoch_inv w n m -> pc m = Acquire -> len64 (inflight m) < 4096 ->
  m1 = (if at_boundary m then crossed o (entered m) else entered m) ->
  currentOffsets m1 !! Z.to_nat (o_p o) = Some c ->
  newRecord (pw m1) 0 c (willAbort m1) = Ok (r0, w1) ->
  worker_frame w1 w2 ->
  epoch_inv w n (set_pc LoopTop (sent_one o c (with_Partition (o_p o) r0) w2 m1)).
Proof.
  intros [] Hpc Hsem Hm1 Hc Hr Hf.
  apply newRecord_frame in Hr.
  pose proof (worker_frame_trans _ _ _ Hr Hf)
    as (Hcfg & Hvo & _ & _ & _ & _ & Hrs & _ & Hact).
  assert (Hpw : config (pw m1) = config (pw m) /\ validOffsets (pw m1) = validOffsets (pw m)
                /\ Restarts (Status (pw m1)) = Restarts (Status (pw m))
                /\ Active (Status (pw m1)) = Active (Status (pw m))).
  { rewrite Hm1. by destruct (at_boundary m). }
  destruct Hpw as (Hcfg1 & Hvo1 & Hrs1 & Hact1).
  assert (Hcalls : predictions (calls m1) = predictions (calls m)
                   /\ failures (calls m1) = failures (calls m)).
  { rewrite Hm1. destruct (at_boundary m); cbn; [|done].
    rewrite predictions_app, failures_app. split; apply app_nil_r. }
  destruct Hcalls as [Hpred Hfail].
  assert (Hsame : loop_i m1 = loop_i m /\ produced m1 = add64 (produced m) 1
                  /\ errored m1 = errored m /\ bad_offsets m1 = bad_offsets m
                  /\ inflight m1 = inflight m /\ arg_n m1 = arg_n m).
  { rewrite Hm1. by destruct (at_boundary m). }
  destruct Hsame as (Hi & Hp & He & Hb & Hin & Harg).
  specialize (inv_i_lt0 Hpc).
  assert (Hi0 : 0 <= loop_i m) by (rewrite inv_i0; apply len64_nonneg).
  assert (Hprod : produced m = loop_i m).
  { destruct inv_produced0 as [?|(? & ? & ? & ? & ?)]; done. }
  assert (Hstep : add64 (loop_i m) 1 = loop_i m + 1).
  { apply add64_small. unfold in_int64, int64_max in *. lia. }
  unfold bad_list in *. rewrite Hpc in *.
  constructor; cbn.
  - done.
  - congruence.
  - congruence.
  - rewrite Hi, Hstep, predictions_app, len64_app, Hpred, <- inv_i0. done.
  - rewrite Hi, Hstep. lia.
  - done.
  - left. rewrite Hp, Hi, Hprod. done.
  - intros _. rewrite Hp, Hi, Hprod. done.
  - rewrite He, Hb, failures_app, Hfail. change (failures [_]) with (@nil ClientCall).
    by rewrite app_nil_r.
  - destruct inv_ledger0 as (added & Hadd & Hsub & Hcount). exists added.
    rewrite Hvo, Hvo1, Hin, Hb, predictions_app, Hpred, pending_pairs_app, !len64_app.
    rewrite predictions_produce, pending_pairs_one.
    split; [done|]. split.
    + cbn. rewrite app_assoc. by apply submseteq_app.
    + len_lia.
  - rewrite Hin, Hb, len64_app, len64_cons, len64_nil.
    destruct inv_capacity0 as (? & ? & H3). specialize (H3 (or_intror eq_refl)).
    repeat split; [len_lia..|]. intros [Hnil|?]; [|done]. rewrite Hnil in *. len_lia.
  - done.
  - congruence.
  - congruence.
Qed.

Lemma epoch_inv_break m cs :
  epoch_inv w n m -> pc m = Acquire -> length (failures cs) = 1%nat ->
  predictions cs = [] ->
  epoch_inv w n (set_pc Finalize (broke cs (entered m))).
Proof.
  intros [] Hpc Hlen Hpred.
  assert (Hfail : failures cs <> []) by (by destruct (failures cs)).
  specialize (inv_i_lt0 Hpc).
  assert (Hi0 : 0 <= loop_i m) by (rewrite inv_i0; apply len64_nonneg).
  assert (Hprod : produced m = loop_i m).
  { destruct inv_produced0 as [?|(? & ? & ? & ? & ?)]; done. }
  assert (Hstep : add64 (loop_i m) 1 = loop_i m + 1).
  { apply add64_small. unfold in_int64, int64_max in *. lia. }
  assert (Hne : failures (calls m ++ cs) <> []).
  { rewrite failures_app. intros [_ ?]%app_eq_nil. done. }
  unfold bad_list in *. rewrite Hpc in *.
  constructor; cbn; try done.
  - by rewrite predictions_app, Hpred, app_nil_r.
  - right. rewrite Hprod, Hstep. done.
  - split; [|done]. intros _. by right.
  - rewrite predictions_app, Hpred, app_nil_r. done.
  - destruct inv_capacity0 as (? & ? & H3). specialize (H3 (or_intror eq_refl)).
    repeat split; [done..|]. intros _. done.
Qed.

Lemma epoch_inv_finalize m o :
  epoch_inv w n m -> pc m = Finalize -> epoch_inv w n (set_pc Drain (finalize o m)).
Proof.
  intros [] Hpc.
  destruct (finalize_cases o m)
    as (cs & w' & _ & Hpred & (Hcfg & Hvo & _ & _ & _ & Hrs & _ & Hact & _) & Hcases).
  unfold bad_list in *. rewrite Hpc in *.
  assert (Hprod : produced m = loop_i m \/
                  produced m = loop_i m + 1 /\ loop_i m < n /\ failures (calls m) <> []).
  { destruct inv_produced0 as [?|(? & ? & ? & ? & ?)]; [by left|right; repeat split; done]. }
  assert (Hgrow : failures (calls m) <> [] -> failures (calls m ++ cs) <> []).
  { intros ?. rewrite failures_app. intros [? _]%app_eq_nil. done. }
  destruct inv_capacity0 as (? & ? & H3).
  assert (Hcap : len64 (inflight m) <= 4096 /\
                 len64 (bad_offsets m) + len64 (inflight m) <= 4097 /\
                 (bad_offsets m = [] \/ Drain = Acquire ->
                  len64 (bad_offsets m) + len64 (inflight m) <= 4096)).
  { repeat split; [done..|]. intros [?|?]; [auto|done]. }
  destruct Hcases as [[Hok ->]|[Hfail ->]]; constructor; cbn; try done;
    rewrite ?predictions_app, ?Hpred, ?app_nil_r; try done; try congruence.
  - destruct Hprod as [?|(? & ? & ?)]; [by left|right]. repeat split; auto.
  - rewrite failures_app, Hok, app_nil_r. done.
  - rewrite failures_app, Hok, app_nil_r. done.
  - exists_added inv_ledger0.
  - destruct Hprod as [?|(? & ? & ?)]; [by left|right]. repeat split; auto.
  - rewrite failures_app. by intros [_ ?]%app_eq_nil.
  - split; [|done]. intros _. right. rewrite failures_app. by intros [_ ?]%app_eq_nil.
  - exists_added inv_ledger0.
Qed.

Lemma epoch_inv_return m o :
  epoch_inv w n m -> pc m = Drain -> inflight m = [] ->
  pc (finish o m) = Exited \/ epoch_inv w n (finish o m).
Proof.
  intros [] Hpc Hin. unfold finish, produceCheckpoint, Chk.
  destruct (o_store o); [by left|right].
  unfold bad_list in *. rewrite Hpc in *. cbn [set_pw errored].
  destruct inv_ledger0 as (added & Hadd & Hsub & Hcount).
  destruct inv_capacity0 as (? & ? & H3).
  assert (Hi0 : 0 <= loop_i m) by (rewrite inv_i0; apply len64_nonneg).
  assert (Hbad : len64 (bad_offsets m) <= loop_i m).
  { rewrite inv_i0, Hcount. pose proof (len64_nonneg added).
    pose proof (len64_nonneg (inflight m)). lia. }
  assert (Hprod : loop_i m <= produced m <= int64_max).
  { unfold in_int64, int64_max in *.
    destruct inv_produced0 as [?|(? & ? & ?)]; lia. }
  destruct (errored m) eqn:He.
  - constructor; cbn; rewrite ?He; try done.
    + destruct inv_produced0 as [?|(? & ? & ? & ? & ?)]; [by left|right; repeat split; done].
    + exists added. done.
    + rewrite Hin. repeat split; len_lia.
    + intros c r e [= <- <- <-]. repeat split; [done| |done].
      apply wrap64_id. unfold in_int64, int64_min, int64_max in *.
      pose proof (len64_nonneg (bad_offsets m)). lia.
  - assert (Hnil : bad_offsets m = []).
    { destruct (bad_offsets m) eqn:Hb; [done|].
      assert (false = true); [|done]. apply inv_errored0. by left. }
    constructor; cbn; rewrite ?He; try done.
    + destruct inv_produced0 as [?|(? & ? & ? & ? & ?)]; [by left|right; repeat split; done].
    + by rewrite Hnil in inv_errored0.
    + exists added. rewrite Hnil in *. done.
    + repeat split; [done..|]. intros _. auto.
    + intros c r e [= <- <- <-]. repeat split; try done. len_lia.
Qed.

Local Arguments bad_list : simpl never.

Lemma epoch_inv_ack m k offset err now pd :
  epoch_inv w n m -> running (pc m) = true -> inflight m !! k = Some pd ->
  let m' := handler (pd_currentOffset pd) (pd_sentAt pd) (with_Offset offset (pd_record pd))
                    err now (set_inflight (delete k (inflight m)) m) in
  pc m' = Exited \/ epoch_inv w n m'.
Proof.
  intros [] Hrun Hk. cbn zeta. unfold handler, Chk.
  destruct err; [by left|right].
  pose proof (bad_list_running m Hrun) as Hbl.
  pose proof (alive_running _ Hrun) as Halive.
  pose proof (len64_delete _ _ _ Hk) as Hdel.
  pose proof (pending_pairs_delete _ _ _ Hk) as Hperm.
  destruct inv_ledger0 as (added & Hadd & Hsub & Hcount).
  destruct inv_capacity0 as (? & ? & H3).
  rewrite Hbl in *.
  cbn [Offset with_Offset Partition].
  destruct (offset =? pd_currentOffset pd) eqn:Hoff; cbn [negb].
  - apply Z.eqb_eq in Hoff.
    match goal with |- epoch_inv _ _ ?m1 =>
      pose proof (bad_list_running m1 Hrun : bad_list m1 = bad_offsets m) as Hbl' end.
    constructor; rewrite ?Hbl'; cbn; try done.
    + exists (added ++ [(Partition (pd_record pd), offset)]).
      rewrite Hadd, <- app_assoc. split; [done|]. split.
      * rewrite <- Hsub, Hperm, Hoff. apply Permutation_submseteq.
        rewrite <- app_assoc. done.
      * len_lia.
    + rewrite Hdel. repeat split; [lia..|]. intros Hc. specialize (H3 Hc). lia.
    + intros c r e Hpc. rewrite Hpc in Hrun. done.
  - cbn [bad_offsets upd_status set_pw set_inflight].
    destruct (16384 <=? len64 (bad_offsets m)) eqn:Hfull.
    { apply Z.leb_le in Hfull. pose proof (len64_nonneg (inflight m)). lia. }
    set (b := mkBadOffset _ _).
    match goal with |- epoch_inv _ _ ?m1 =>
      pose proof (bad_list_running m1 Hrun : bad_list m1 = bad_offsets m ++ [b]) as Hbl' end.
    constructor; rewrite ?Hbl'; cbn; try done.
    + split; [|done]. intros _. left. by intros [_ ?]%app_eq_nil.
    + exists added. split; [done|]. split.
      * rewrite <- Hsub, Hperm. apply submseteq_app; [done|]. by apply submseteq_cons.
      * len_lia.
    + rewrite Hdel, len64_app. repeat split; [len_lia..|].
      intros [Hnil|Hc]; [by apply app_eq_nil in Hnil as [_ ?]|].
      specialize (H3 (or_intror Hc)). len_lia.
    + intros c r e Hpc. rewrite Hpc in Hrun. done.
Qed.

Lemma epoch_inv_transition m ev m' :
  epoch_inv w n m -> transition m ev m' ->
  pc m' = Exited \/ pc m' = Panicked \/ epoch_inv w n m'.
Proof.
  intros Hinv Ht. destruct Ht.
  - right; right. by apply epoch_inv_enter.
  - right; right. by apply epoch_inv_leave.
  - right; right. by eapply epoch_inv_send.
  - right; right. by apply epoch_inv_break.
  - cbn. tauto.
  - right; right. by apply epoch_inv_finalize.
  - destruct (epoch_inv_return m o) as [?|?]; auto.
  - destruct (epoch_inv_ack m k offset err now pd) as [?|?]; auto.
Qed.
End epoch_invariant.

Lemma transition_running m ev m' : transition m ev m' -> running (pc m) = true.
Proof. intros Ht. destruct Ht; try done; by match goal with H : pc m = _ |- _ => rewrite H end. Qed.

Lemma step_running m ev m' : step m ev = Some m' -> running (pc m) = true.
Proof. intros H. eapply transition_running, step_transition, H. Qed.

(** A state that is not running is final. *)
Lemma run_final m evs m' : running (pc m) = false -> run m evs = Some m' -> m' = m.
Proof.
  intros Hpc. destruct evs as [|ev evs]; simpl; [congruence|].
  destruct (step m ev) eqn:Hs; [|done].
  apply step_running in Hs. congruence.
Qed.

Lemma produceInner_begin_started w n so :
  s_client so = None -> s_begin so = None -> produceInner_begin w n so = started w n so.
Proof. unfold produceInner_begin. by intros -> ->. Qed.

Lemma epoch_inv_started w n so : epoch_inv w n (started w n so).
Proof.
  constructor; cbn; try done.
  - lia.
  - by left.
  - split; [done|]. intros [?|?]; done.
  - exists []. by rewrite app_nil_r.
Qed.

Theorem epoch_invariant w n so m :
  in_int64 n -> s_client so = None -> s_begin so = None ->
  reachable w n so m ->
  pc m = Exited \/ pc m = Panicked \/ epoch_inv w n m.
Proof.
  intros Hn Hc Hb [evs Hrun]. unfold produceInner in Hrun. cbn [fst snd] in Hrun.
  rewrite produceInner_begin_started in Hrun by done.
  revert Hrun.
  apply (run_invariant (fun m => pc m = Exited \/ pc m = Panicked \/ epoch_inv w n m)).
  - intros m1 ev m2 [Hpc|[Hpc|Hinv]] Ht.
    + apply transition_running in Ht. by rewrite Hpc in Ht.
    + apply transition_running in Ht. by rewrite Hpc in Ht.
    + by eapply epoch_inv_transition.
  - right; right. apply epoch_inv_started.
Qed.

(** ** The status counters *)

Lemma wrap64_add_l a b : wrap64 (wrap64 a + b) = wrap64 (a + b).
Proof.
  unfold wrap64.
  replace ((a + 2 ^ 63) mod 2 ^ 64 - 2 ^ 63 + b + 2 ^ 63)
    with ((a + 2 ^ 63) mod 2 ^ 64 + b) by lia.
  rewrite Zplus_mod_idemp_l. do 2 f_equal. lia.
Qed.

Lemma wrap64_add_r a b : wrap64 (a + wrap64 b) = wrap64 (a + b).
Proof. rewrite Z.add_comm, wrap64_add_l. f_equal. lia. Qed.

Lemma add64_wrap a b : add64 (wrap64 a) b = wrap64 (a + b).
Proof. apply wrap64_add_l. Qed.

Lemma iter_add64 k x :
  Nat.iter k (fun x => add64 x 1) (wrap64 x) = wrap64 (x + Z.of_nat k).
Proof.
  induction k as [|k IH].
  - change (Z.of_nat 0) with 0. by rewrite Z.add_0_r.
  - rewrite Nat.iter_succ, IH, add64_wrap. replace (x + Z.of_nat k + 1) with (x + Z.of_nat (S k)) by lia.
    done.
Qed.

Section counters.
Variable w : TransactionalProducerWorker.
Variable n : Z.
Hypothesis n_int64 : in_int64 n.

Lemma counters_inv_transition m ev m' :
  epoch_inv w n m -> counters_inv w m -> transition m ev m' ->
  alive (pc m') -> counters_inv w m'.
Proof.
  intros Hinv [] Ht Halive. destruct Ht.
  - (* the loop condition holds *)
    unfold bad_list in *. rewrite H in *. constructor; done.
  - unfold bad_list in *. rewrite H in *. constructor; done.
  - (* a record is sent *)
    apply newRecord_frame in H5.
    pose proof (worker_frame_trans _ _ _ H5 H6)
      as (_ & Hvo & Hs & Ha & Hb & Hf & _ & Hl & _).
    assert (Hm1 : validOffsets (pw m1) = validOffsets (pw m)
                  /\ Sent (Status (pw m1)) = add64 (Sent (Status (pw m))) 1
                  /\ Acked (Status (pw m1)) = Acked (Status (pw m))
                  /\ BadOffsets (Status (pw m1)) = BadOffsets (Status (pw m))
                  /\ FailedTransactions (Status (pw m1)) = FailedTransactions (Status (pw m))
                  /\ latency (Status (pw m1)) = latency (Status (pw m))
                  /\ produced m1 = add64 (produced m) 1
                  /\ bad_offsets m1 = bad_offsets m
                  /\ failures (calls m1) = failures (calls m)).
    { rewrite H3. destruct (at_boundary m); cbn; repeat split.
      rewrite failures_app. apply app_nil_r. }
    destruct Hm1 as (Hvo1 & Hs1 & Ha1 & Hb1 & Hf1 & Hl1 & Hp1 & Hbo1 & Hfl1).
    unfold bad_list in *. rewrite H in *.
    constructor; cbn.
    + rewrite Hs, Hs1, Hp1, cnt_sent0, add64_wrap. unfold add64.
      rewrite wrap64_add_r. f_equal. lia.
    + rewrite Ha, Ha1, Hvo, Hvo1. done.
    + rewrite Hb, Hb1, Hbo1. done.
    + rewrite Hf, Hf1, failures_app, Hfl1. change (failures [_]) with (@nil ClientCall).
      rewrite app_nil_r. done.
    + rewrite Hl, Hl1, Hvo, Hvo1. done.
  - (* a boundary fails *)
    unfold bad_list in *. rewrite H in *.
    constructor; cbn; try done.
    + rewrite cnt_sent0, add64_wrap. unfold add64. rewrite wrap64_add_r. f_equal. lia.
    + rewrite cnt_failed0, add64_wrap, failures_app, len64_app. f_equal.
      unfold len64 at 3. rewrite H2. lia.
  - cbn in Halive. destruct Halive as (? & ? & ?). destruct H1; congruence.
  - (* the closing flush and end *)
    destruct (finalize_cases o m)
      as (cs & w' & _ & Hpred & (_ & Hvo & Hs & Ha & Hb & _ & Hl & _ & Hf) & Hcases).
    unfold bad_list in *. rewrite H in *.
    assert (Hfailed : FailedTransactions (Status w')
                      = wrap64 (FailedTransactions (Status w)
                                + len64 (failures (calls m ++ cs)))).
    { rewrite Hf, cnt_failed0, iter_add64, failures_app, len64_app. f_equal.
      unfold len64. lia. }
    destruct Hcases as [[_ ->]|[_ ->]]; constructor; cbn; try congruence;
      rewrite Hl, Hvo; done.
  - (* the return *)
    destruct Hinv. unfold finish, produceCheckpoint, Chk in *.
    destruct (o_store o); [cbn in Halive; by destruct Halive as (? & _)|].
    unfold bad_list in *. rewrite H in *. cbn [set_pw errored] in *.
    destruct (errored m) eqn:He; constructor; cbn; try done.
    assert (Hnil : bad_offsets m = []).
    { destruct (bad_offsets m) eqn:Hb; [done|].
      assert (false = true); [|done]. apply inv_errored0. by left. }
    by rewrite Hnil in cnt_bad0.
  - (* a callback *)
    pose proof (bad_list_running m H) as Hbl. rewrite Hbl in *.
    revert Halive. unfold handler, Chk.
    destruct err; [by intros (? & _)|].
    cbn [Offset with_Offset Partition].
    destruct (offset =? pd_currentOffset pd) eqn:Hoff; cbn [negb].
    + intros _.
      match goal with |- counters_inv _ ?m1 =>
        pose proof (bad_list_running m1 H : bad_list m1 = bad_offsets m) as Hbl' end.
      destruct cnt_latency0 as (samples & Hs & Hlen).
      constructor; rewrite ?Hbl'; cbn; try done.
      * rewrite cnt_acked0, add64_wrap, len64_app. f_equal. len_lia.
      * exists (samples ++ [(now - pd_sentAt pd) `quot` 1000]).
        rewrite Hs, <- app_assoc. split; [done|]. len_lia.
    + cbn [bad_offsets upd_status set_pw set_inflight].
      destruct (16384 <=? len64 (bad_offsets m)); [by intros (_ & _ & ?)|]. intros _.
      set (b := mkBadOffset _ _).
      match goal with |- counters_inv _ ?m1 =>
        pose proof (bad_list_running m1 H : bad_list m1 = bad_offsets m ++ [b]) as Hbl' end.
      constructor; rewrite ?Hbl'; cbn; try done.
      rewrite cnt_bad0, add64_wrap, len64_app. f_equal. len_lia.
Qed.

Lemma counters_inv_started so :
  wf_status (Status w) -> counters_inv w (started w n so).
Proof.
  intros (? & ? & ? & ? & ?).
  constructor; cbn; rewrite ?Z.sub_diag, ?Z.add_0_r; try (symmetry; by apply wrap64_id).
  exists []. by rewrite app_nil_r.
Qed.

Theorem counters_invariant so m :
  wf_status (Status w) -> s_client so = None -> s_begin so = None ->
  reachable w n so m -> alive (pc m) -> epoch_inv w n m /\ counters_inv w m.
Proof.
  intros Hwf Hc Hb [evs Hrun] Halive. unfold produceInner in Hrun. cbn [fst snd] in Hrun.
  rewrite produceInner_begin_started in Hrun by done.
  cut (alive (pc m) -> epoch_inv w n m /\ counters_inv w m); [auto|].
  revert Hrun.
  apply (run_invariant (fun m => alive (pc m) -> epoch_inv w n m /\ counters_inv w m)).
  - intros m1 ev m2 IH Ht Ha2.
    assert (Ha1 : alive (pc m1)) by (eapply alive_running, transition_running, Ht).
    destruct (IH Ha1) as [Hinv Hcnt].
    split.
    + destruct (epoch_inv_transition w n n_int64 m1 ev m2 Hinv Ht) as [?|[?|?]];
        [destruct Ha2 as (? & ? & ?); done..|done].
    + by eapply counters_inv_transition.
  - intros _. split; [apply epoch_inv_started | by apply counters_inv_started].
Qed.
End counters.

(** * The claims *)

(** ** C1: the expected-offset cursor *)

Lemma lookup_bump_all d offs (q : nat) :
  bump_all d offs !! q = (fun c => add64 c d) <$> (offs !! q).
Proof. unfold bump_all. apply list_lookup_fmap. Qed.

(** A step of the dispatch goroutine from [Acquire] back to the top of the
    loop is a whole iteration. *)
Lemma step_sent m o m' :
  pc m = Acquire -> step m (EvMain o) = Some m' -> pc m' = LoopTop ->
  exists c r0 w1 w2,
    let m1 := if at_boundary m then crossed o (entered m) else entered m in
    currentOffsets m1 !! Z.to_nat (o_p o) = Some c /\
    newRecord (pw m1) 0 c (willAbort m1) = Ok (r0, w1) /\
    worker_frame w1 w2 /\
    m' = set_pc LoopTop (sent_one o c (with_Partition (o_p o) r0) w2 m1).
Proof.
  intros Hpc Hs Hpc'. unfold step in Hs. rewrite Hpc in Hs.
  destruct (negb (len64 (inflight m) <? 4096)); [done|].
  destruct (_ && _); [done|].
  pose proof (loop_body_cases o m) as Hl.
  destruct (loop_body o m) as [m1|m1|how m1]; injection Hs as <-.
  - destruct Hl as (_ & _ & c & r0 & w1 & w2 & ? & ? & ? & ->). by exists c, r0, w1, w2.
  - done.
  - cbn in Hpc'. destruct Hl as ([?|?] & _); congruence.
Qed.

Lemma transition_cursor m ev m' :
  transition m ev m' -> running (pc m') = true ->
  ~ (pc m = Acquire /\ pc m' = LoopTop) ->
  currentOffsets m' = currentOffsets m.
Proof.
  intros Ht Hrun Hnot. destruct Ht; try done.
  - exfalso. by apply Hnot.
  - cbn in Hrun. by destruct H1 as [->| ->].
  - destruct (finalize_cases o m) as (cs & w' & _ & _ & _ & [[_ ->]|[_ ->]]); done.
  - unfold finish, produceCheckpoint, Chk. by repeat case_match.
  - unfold handler, Chk in *. by repeat case_match.
Qed.

(** C1. The per-partition expected-offset cursor moves as the specification
    prescribes. (1) Right after the first successful [BeginTransaction] every
    partition's cursor is its start offset plus 1. (2) One completed
    iteration of the dispatch loop moves the cursor of every partition by
    [advance]: 2 at a boundary whose transaction was committed, 1 at a
    boundary whose transaction was aborted, 0 between boundaries, and 1 more
    for the partition the record is sent to; the record is predicted at the
    cursor value before that last increment. (3) No other step of the epoch
    moves any cursor. Additions are those of [int64]; in range they are exact. *)
Theorem cursor_advance :
  (forall w n so,
     s_client so = None -> s_begin so = None ->
     currentOffsets (produceInner_begin w n so) = (fun c => add64 c 1) <$> s_offsets so)
  /\
  (forall m o m',
     pc m = Acquire -> step m (EvMain o) = Some m' -> pc m' = LoopTop ->
     exists r predicted,
       calls m' = calls m ++ boundary_calls m ++ [CProduce r predicted] /\
       Partition r = o_p o /\
       forall (q : nat) c,
         currentOffsets m !! q = Some c -> in_int64 c ->
         currentOffsets m' !! q = Some (wrap64 (c + advance m o q)) /\
         (in_int64 (c + advance m o q) ->
          currentOffsets m' !! q = Some (c + advance m o q)) /\
         (q = Z.to_nat (o_p o) -> predicted = wrap64 (c + advance m o q - 1)))
  /\
  (forall m ev m',
     step m ev = Some m' -> running (pc m') = true ->
     ~ (pc m = Acquire /\ pc m' = LoopTop) ->
     currentOffsets m' = currentOffsets m).
Proof.
  split; [|split].
  - intros w n so Hc Hb. by rewrite produceInner_begin_started.
  - intros m o m' Hpc Hs Hpc'.
    destruct (step_sent m o m' Hpc Hs Hpc') as (c0 & r0 & w1 & w2 & Hc0 & _ & _ & ->).
    exists (with_Partition (o_p o) r0), c0. split; [|split; [done|]].
    { unfold boundary_calls. destruct (at_boundary m); cbn; by rewrite <- ?app_assoc. }
    intros q c Hq Hrange.
    assert (Hadv : currentOffsets
                     (set_pc LoopTop
                        (sent_one o c0 (with_Partition (o_p o) r0) w2
                           (if at_boundary m then crossed o (entered m) else entered m)))
                   !! q = Some (wrap64 (c + advance m o q))
                 /\ (q = Z.to_nat (o_p o) -> c0 = wrap64 (c + advance m o q - 1))).
    { unfold advance. cbn [currentOffsets set_pc sent_one set_loop_i set_pw set_calls
                             set_inflight set_currentOffsets].
      destruct (at_boundary m); cbn in Hc0 |- *.
      - rewrite lookup_bump_all in Hc0.
        destruct (decide (q = Z.to_nat (o_p o))) as [->|Hne].
        + rewrite Hq in Hc0. cbn in Hc0. injection Hc0 as Hc0.
          rewrite list_lookup_insert_eq.
          2:{ unfold bump_all. rewrite length_fmap. by eapply lookup_lt_Some. }
          split.
          * by rewrite <- Hc0, add64_add64, Z.add_assoc.
          * intros _. rewrite <- Hc0. unfold add64.
            by replace (c + (boundary_delta (willAbort m) + 1) - 1)
              with (c + boundary_delta (willAbort m)) by lia.
        + rewrite list_lookup_insert_ne by done. rewrite lookup_bump_all, Hq. cbn.
          split; [|done]. unfold add64. by rewrite Z.add_0_r.
      - destruct (decide (q = Z.to_nat (o_p o))) as [->|Hne].
        + rewrite Hq in Hc0. injection Hc0 as Hc0.
          rewrite list_lookup_insert_eq by (by eapply lookup_lt_Some).
          split.
          * rewrite <- Hc0. unfold add64. by rewrite Z.add_0_l.
          * intros _. rewrite <- Hc0. symmetry.
            replace (c + (0 + 1) - 1) with c by lia. by apply wrap64_id.
        + rewrite list_lookup_insert_ne by done. rewrite Hq.
          split; [|done]. f_equal. symmetry.
          replace (c + (0 + 0)) with c by lia. by apply wrap64_id. }
    destruct Hadv as [Hadv Hpred]. split; [done|]. split; [|done].
    intros Hin. by rewrite Hadv, wrap64_id.
  - intros m ev m' Hs Hrun Hnot. apply step_transition in Hs.
    by eapply transition_cursor.
Qed.

(** The iteration that crosses the committed boundary of the small run:
    the cursors go from 12 and 21 to 14 and 24, and the record is predicted
    at 23. *)
Lemma cursor_advance_witness :
  pc ex_m1 = Acquire /\ step ex_m1 (EvMain (ex_oracle 1 true)) = Some ex_m2 /\
  pc ex_m2 = LoopTop /\ at_boundary ex_m1 = true /\ willAbort ex_m1 = false /\
  currentOffsets ex_m1 = [12; 21] /\ currentOffsets ex_m2 = [14; 24] /\
  exists r predicted,
    calls ex_m2 = calls ex_m1 ++ boundary_calls ex_m1 ++ [CProduce r predicted] /\
    Partition r = o_p (ex_oracle 1 true) /\
    forall (q : nat) c,
      currentOffsets ex_m1 !! q = Some c -> in_int64 c ->
      currentOffsets ex_m2 !! q = Some (wrap64 (c + advance ex_m1 (ex_oracle 1 true) q)) /\
      (in_int64 (c + advance ex_m1 (ex_oracle 1 true) q) ->
       currentOffsets ex_m2 !! q = Some (c + advance ex_m1 (ex_oracle 1 true) q)) /\
      (q = Z.to_nat (o_p (ex_oracle 1 true)) ->
       predicted = wrap64 (c + advance ex_m1 (ex_oracle 1 true) q - 1)).
Proof.
  repeat (split; [vm_compute; reflexivity|]).
  apply (proj1 (proj2 cursor_advance) ex_m1 (ex_oracle 1 true) ex_m2);
    vm_compute; reflexivity.
Defined.

(** ** C2: what a completion callback records *)

Lemma reachable_intro w n so evs m : produceInner w n (so, evs) = Some m -> reachable w n so m.
Proof. intros H. by exists evs. Qed.

Lemma reachable_step w n so m ev m' :
  reachable w n so m -> step m ev = Some m' -> reachable w n so m'.
Proof.
  intros [evs Hrun] Hs. exists (evs ++ [ev]). unfold produceInner in *. cbn [fst snd] in *.
  rewrite run_app, Hrun. cbn. by rewrite Hs.
Qed.




(** ** C3: no new message after a bad offset has been seen *)

Lemma dispatched_app cs1 cs2 : dispatched (cs1 ++ cs2) = dispatched cs1 ++ dispatched cs2.
Proof. apply omap_app. Qed.

Lemma length_dispatched cs : length (dispatched cs) = length (predictions cs).
Proof.
  unfold dispatched, predictions.
  induction cs as [|[]]; cbn; auto.
Qed.

Lemma dispatched_nil cs : predictions cs = [] -> dispatched cs = [].
Proof.
  intros H. apply length_zero_iff_nil. by rewrite length_dispatched, H.
Qed.





(** In that run the late iteration does dispatch: one record before, two
    after. *)
Example late_iteration_dispatches :
  pc ex_m5 = Acquire /\ bad_offsets ex_m5 <> [] /\
  length (dispatched (calls ex_m5)) = 1%nat /\ length (dispatched (calls ex_m6)) = 2%nat.
Proof. repeat split; (vm_compute; (reflexivity || discriminate)). Qed.

(** ** C4: what an epoch returns *)

(** C4. An epoch (a call of [produceInner] whose client was built and whose
    first transaction began) that returns, returns no error, the list [r] of
    the bad offsets recorded during the epoch (the bad-offset counter rose by
    [len r]), and the count [produced - len r], where [produced] is the
    number of messages the epoch counted as produced (the sent counter rose
    by it). So with at least one bad offset the count is the produced count
    minus the bad offsets and the list is not empty, and with none the count
    is the full produced count and the list is empty. [produced] is the
    number of records dispatched, plus one when a failed transaction call
    left the loop after the count and before the dispatch. *)
Theorem produceInner_result w n so evs m c r e :
  in_int64 n -> wf_status (Status w) -> s_client so = None -> s_begin so = None ->
  produceInner w n (so, evs) = Some m -> pc m = Returned c r e ->
  e = None /\
  BadOffsets (Status (pw m)) = wrap64 (BadOffsets (Status w) + len64 r) /\
  Sent (Status (pw m)) = wrap64 (Sent (Status w) + produced m) /\
  (r <> [] -> c = produced m - len64 r /\ errored m = true) /\
  (r = [] -> c = produced m) /\
  len64 (dispatched (calls m)) <= produced m <= len64 (dispatched (calls m)) + 1 /\
  (failures (calls m) = [] -> produced m = len64 (dispatched (calls m))).
Proof.
  intros Hn Hwf Hc Hb Hrun Hpc.
  assert (Halive : alive (pc m)) by (by rewrite Hpc).
  destruct (counters_invariant w n Hn so m Hwf Hc Hb (reachable_intro _ _ _ _ _ Hrun) Halive)
    as [Hinv Hcnt].
  destruct (inv_returned _ _ _ Hinv c r e Hpc) as (-> & _ & -> & Hr).
  assert (Hlen : len64 (dispatched (calls m)) = loop_i m).
  { rewrite (inv_i _ _ _ Hinv). unfold len64. by rewrite length_dispatched. }
  pose proof (cnt_bad _ _ Hcnt) as Hbadc. unfold bad_list in Hbadc. rewrite Hpc in Hbadc.
  split; [done|]. split; [done|]. split; [apply Hcnt|].
  split; [|split; [|split]].
  - intros Hne. split; [done|]. destruct (errored m); [done|]. by destruct Hne; apply Hr.
  - intros ->. unfold len64. cbn. lia.
  - rewrite Hlen. destruct (inv_produced _ _ _ Hinv) as [->|(-> & _)]; lia.
  - intros Hclean. rewrite Hlen. by apply (inv_clean _ _ _ Hinv).
Qed.

(** The small run with its second record acknowledged one offset too high:
    two messages produced, one bad offset, a count of one. *)
Lemma produceInner_result_witness :
  pc ex_m7 = Returned 1 [mkBadOffset 1 24] None /\ produced ex_m7 = 2 /\
  (@None error = None /\
   BadOffsets (Status (pw ex_m7))
     = wrap64 (BadOffsets (Status ex_worker) + len64 [mkBadOffset 1 24]) /\
   Sent (Status (pw ex_m7)) = wrap64 (Sent (Status ex_worker) + produced ex_m7) /\
   ([mkBadOffset 1 24] <> [] ->
      1 = produced ex_m7 - len64 [mkBadOffset 1 24] /\ errored ex_m7 = true) /\
   ([mkBadOffset 1 24] = [] -> 1 = produced ex_m7) /\
   len64 (dispatched (calls ex_m7)) <= produced ex_m7
     <= len64 (dispatched (calls ex_m7)) + 1 /\
   (failures (calls ex_m7) = [] -> produced ex_m7 = len64 (dispatched (calls ex_m7)))).
Proof.
  split; [reflexivity|]. split; [reflexivity|].
  apply (produceInner_result ex_worker 2 ex_start (snd (ex_epoch 24)) ex_m7
           1 [mkBadOffset 1 24] None).
  - unfold in_int64, int64_min, int64_max. lia.
  - unfold wf_status, in_int64, int64_min, int64_max. cbn. lia.
  - reflexivity.
  - reflexivity.
  - vm_compute. reflexivity.
  - reflexivity.
Defined.

(** ** C5: the retry loop *)

(** What the caller of an epoch can rely on when it returns. *)
Lemma epoch_return w n env m c r e :
  in_int64 n -> produceInner w n env = Some m -> pc m = Returned c r e ->
  0 <= c <= Z.max 0 n /\
  Restarts (Status (pw m)) = Restarts (Status w) /\
  Active (Status (pw m)) = Active (Status w) /\
  config (pw m) = config w.
Proof.
  intros Hn Hrun Hpc. destruct env as [so evs].
  destruct (s_client so) as [err|] eqn:Hc.
  { unfold produceInner, produceInner_begin in Hrun. cbn [fst snd] in Hrun.
    rewrite Hc in Hrun. apply run_final in Hrun; [|done]. subst m.
    cbn in Hpc. injection Hpc as <- <- <-. cbn. repeat split; lia. }
  destruct (s_begin so) as [err|] eqn:Hb.
  { unfold produceInner, produceInner_begin in Hrun. cbn [fst snd] in Hrun.
    rewrite Hc, Hb in Hrun. apply run_final in Hrun; [|done]. subst m.
    cbn in Hpc. injection Hpc as <- <- <-. cbn. repeat split; lia. }
  destruct (epoch_invariant w n so m Hn Hc Hb (reachable_intro _ _ _ _ _ Hrun))
    as [H|[H|Hinv]]; [congruence..|].
  destruct (inv_returned _ _ _ Hinv c r e Hpc) as (_ & Hin & -> & _).
  destruct (inv_ledger _ _ _ Hinv) as (added & _ & _ & Hcount).
  unfold bad_list in Hcount. rewrite Hpc, Hin in Hcount.
  pose proof (inv_i _ _ _ Hinv) as Hi. pose proof (inv_i_le _ _ _ Hinv) as Hle.
  pose proof (len64_nonneg added). pose proof (len64_nonneg r).
  split; [|by destruct Hinv].
  destruct (inv_produced _ _ _ Hinv) as [Hp|(Hp & ? & _)]; rewrite Hp; len_lia.
Qed.

Lemma sub64_exact n c : in_int64 n -> 0 <= c <= Z.max 0 n -> sub64 n c = n - c.
Proof.
  intros Hn Hc. apply wrap64_id. unfold in_int64, int64_min, int64_max in *. lia.
Qed.

Lemma incremented_succ k x : incremented k (add64 x 1) = incremented (S k) x.
Proof. unfold incremented. by rewrite Nat.iter_succ_r. Qed.

Lemma Wait_loop_spec envs : forall w n,
  in_int64 n ->
  let res := Wait_loop envs w n in
  let invs := w_invocations res in
  (forall k i, invs !! k = Some i ->
     inv_n i = remaining n (take k invs) /\
     Restarts (Status (inv_pw i)) = incremented k (Restarts (Status w)) /\
     Active (Status (inv_pw i)) = Active (Status w) /\
     config (inv_pw i) = config w)
  /\
  (forall k i, invs !! k = Some i -> (S k < length invs)%nat ->
     exists c r, inv_value i = Some (c, r, None) /\ 0 < remaining n (take (S k) invs))
  /\
  (w_outcome res = WaitReturned None <->
   exists i c r, last invs = Some i /\ inv_value i = Some (c, r, None) /\
                 remaining n invs <= 0)
  /\
  (forall err, w_outcome res = WaitReturned (Some err) <->
   exists i c r, last invs = Some i /\ inv_value i = Some (c, r, Some err))
  /\
  (forall e, w_outcome res = WaitReturned e ->
     Restarts (Status (w_pw res)) = incremented (length invs - 1) (Restarts (Status w)) /\
     Active (Status (w_pw res)) = Active (Status w)).
Proof.
  induction envs as [|env envs IH]; intros w n Hn.
  { cbn. repeat split; try done.
    - by intros (? & ? & ? & ? & _).
    - by intros (? & ? & ? & ? & _). }
  cbn [Wait_loop].
  destruct (produceInner w n env) as [m|] eqn:Hrun.
  2:{ cbn. repeat split; try done.
      - destruct k; cbn in *; [by simplify_eq|done].
      - destruct k; cbn in *; [by simplify_eq|done].
      - destruct k; cbn in *; [by simplify_eq|done].
      - destruct k; cbn in *; [by simplify_eq|done].
      - destruct k; cbn in *; [lia|done].
      - intros (? & ? & ? & [= <-] & ? & _). done.
      - intros (? & ? & ? & [= <-] & ? ). done. }
  set (here := mkInvocation w n (Some m)).
  assert (Hfirst : forall k i, [here] !! k = Some i ->
            inv_n i = remaining n (take k [here]) /\
            Restarts (Status (inv_pw i)) = incremented k (Restarts (Status w)) /\
            Active (Status (inv_pw i)) = Active (Status w) /\
            config (inv_pw i) = config w).
  { intros [|k] i Hk; cbn in Hk; [|done]. by simplify_eq. }
  destruct (pc m) as [ | | | |c r [err|]| | | ] eqn:Hpc;
    try (cbn; (split; [exact Hfirst|]); (split; [intros k i _ Hk; cbn in Hk; lia|]);
         split; [|split];
         [ split; [done|]; intros (? & ? & ? & [= <-] & Hv & _);
           unfold inv_value in Hv; cbn in Hv; by rewrite Hpc in Hv
         | intros err; split; [done|]; intros (? & ? & ? & [= <-] & Hv);
           unfold inv_value in Hv; cbn in Hv; by rewrite Hpc in Hv
         | done ]).
  - (* the epoch returned an error *)
    destruct (epoch_return w n env m c r (Some err) Hn Hrun Hpc) as (_ & Hrs & Hact & _).
    cbn. split; [exact Hfirst|]. split; [intros k i _ Hk; cbn in Hk; lia|].
    split; [|split].
    + split; [done|]. intros (? & ? & ? & [= <-] & Hv & _).
      unfold inv_value in Hv. cbn in Hv. rewrite Hpc in Hv. done.
    + intros err'. split.
      * intros [= <-]. exists here, c, r. split; [done|].
        unfold inv_value. cbn. by rewrite Hpc.
      * intros (? & ? & ? & [= <-] & Hv). unfold inv_value in Hv. cbn in Hv.
        rewrite Hpc in Hv. by simplify_eq.
    + intros _ _. done.
  - (* the epoch returned a count *)
    destruct (epoch_return w n env m c r None Hn Hrun Hpc) as (Hc & Hrs & Hact & Hcfg).
    rewrite (sub64_exact n c Hn Hc).
    assert (Hcount : inv_count here = c).
    { unfold inv_count, inv_value. cbn. by rewrite Hpc. }
    assert (Hvalue : inv_value here = Some (c, r, None)).
    { unfold inv_value. cbn. by rewrite Hpc. }
    destruct (n - c <=? 0) eqn:Hdone.
    + apply Z.leb_le in Hdone. cbn.
      split; [exact Hfirst|]. split; [intros k i _ Hk; cbn in Hk; lia|].
      split; [|split].
      * split; [|done]. intros _. exists here, c, r. rewrite Hcount. done.
      * intros err. split; [done|]. intros (? & ? & ? & [= <-] & Hv). congruence.
      * intros _ _. done.
    + apply Z.leb_gt in Hdone.
      set (w' := upd_Status _ (pw m)).
      assert (Hn' : in_int64 (n - c)).
      { unfold in_int64, int64_min, int64_max in *. lia. }
      specialize (IH w' (n - c) Hn').
      cbn zeta in IH. destruct IH as (IH1 & IH2 & IH3 & IH4 & IH5).
      set (rest := Wait_loop envs w' (n - c)) in *.
      cbn [w_outcome w_pw w_invocations].
      assert (Hrs' : Restarts (Status w') = add64 (Restarts (Status w)) 1).
      { subst w'. cbn. by rewrite Hrs. }
      assert (Hact' : Active (Status w') = Active (Status w)).
      { subst w'. cbn. done. }
      assert (Hcfg' : config w' = config w) by (subst w'; done).
      split; [|split; [|split; [|split]]].
      * intros [|k] i Hk; cbn in Hk.
        { injection Hk as <-. done. }
        destruct (IH1 k i Hk) as (? & ? & ? & ?). cbn [take remaining]. rewrite Hcount.
        repeat split; try congruence.
        rewrite <- incremented_succ. congruence.
      * intros [|k] i Hk Hlen; cbn in Hk, Hlen.
        { injection Hk as <-. exists c, r. split; [done|]. cbn. rewrite Hcount. done. }
        destruct (IH2 k i Hk) as (c' & r' & ? & ?); [lia|].
        exists c', r'. split; [done|]. cbn [take remaining]. by rewrite Hcount.
      * rewrite IH3. cbn [remaining]. rewrite Hcount.
        destruct (w_invocations rest) as [|i0 invs0] eqn:Hinvs.
        { split; [by intros (? & ? & ? & ? & _)|].
          intros (? & ? & ? & [= <-] & _ & Hrem). cbn in Hrem. lia. }
        by rewrite last_cons_cons.
      * intros err. rewrite IH4.
        destruct (w_invocations rest) as [|i0 invs0] eqn:Hinvs.
        { split; [by intros (? & ? & ? & ? & _)|].
          intros (? & ? & ? & [= <-] & Hv). congruence. }
        by rewrite last_cons_cons.
      * intros e He. destruct (IH5 e He) as [Hr5 Ha5]. split; [|congruence].
        rewrite Hr5, Hrs', incremented_succ. f_equal. cbn [length].
        destruct (w_invocations rest) as [|i0 invs0] eqn:Hinvs; [|cbn; lia].
        (* a returned loop has made a call *)
        exfalso. destruct e as [err|].
        -- apply IH4 in He as (? & ? & ? & ? & _). done.
        -- apply IH3 in He as (? & ? & ? & ? & _). done.
Qed.

Lemma Wait_outcome envs w :
  let w0 := upd_Status (set_Active true) w in
  let loop := Wait_loop envs w0 (wrap64 (messageCount (config w))) in
  w_outcome (Wait envs w) = w_outcome loop /\
  w_invocations (Wait envs w) = w_invocations loop /\
  (forall e, w_outcome loop = WaitReturned e ->
     w_pw (Wait envs w) = upd_Status (set_Active false) (w_pw loop)).
Proof.
  cbn zeta. unfold Wait.
  change (config (upd_Status (set_Active true) w)) with (config w).
  destruct (w_outcome (Wait_loop _ _ _)) as [e| [] | |] eqn:Hout; cbn; rewrite ?Hout; done.
Qed.


(** ** C6: fatal errors *)

Lemma step_final m ev : running (pc m) = false -> step m ev = None.
Proof.
  intros Hpc. destruct (step m ev) eqn:Hs; [|done].
  apply step_running in Hs. congruence.
Qed.

Lemma run_final_nil m evs m' :
  running (pc m) = false -> run m evs = Some m' -> evs = [] /\ m' = m.
Proof.
  intros Hpc Hrun. destruct evs as [|ev evs]; cbn in Hrun; [by injection Hrun as <-|].
  by rewrite (step_final _ ev Hpc) in Hrun.
Qed.

(** The only errors an epoch returns are those of its opening. *)
Lemma returned_error w n so evs m c r err :
  in_int64 n -> produceInner w n (so, evs) = Some m -> pc m = Returned c r (Some err) ->
  (s_client so = Some err \/ (s_client so = None /\ s_begin so = Some err)) /\
  c = 0 /\ r = [] /\ evs = [].
Proof.
  intros Hn Hrun Hpc.
  destruct (s_client so) as [e1|] eqn:Hc.
  { unfold produceInner, produceInner_begin in Hrun. cbn [fst snd] in Hrun.
    rewrite Hc in Hrun. apply run_final_nil in Hrun as [-> ->]; [|done].
    cbn in Hpc. injection Hpc as <- <- <-. auto. }
  destruct (s_begin so) as [e2|] eqn:Hb.
  { unfold produceInner, produceInner_begin in Hrun. cbn [fst snd] in Hrun.
    rewrite Hc, Hb in Hrun. apply run_final_nil in Hrun as [-> ->]; [|done].
    cbn in Hpc. injection Hpc as <- <- <-. auto. }
  destruct (epoch_invariant w n so m Hn Hc Hb (reachable_intro _ _ _ _ _ Hrun))
    as [H|[H|Hinv]]; [congruence..|].
  by destruct (inv_returned _ _ _ Hinv c r (Some err) Hpc) as (? & _).
Qed.

(** C6 (amended). A client-construction failure makes [produceInner] return
    that error at once, with a zero count and nothing done, and [Wait] hands
    any error an epoch returns to its caller without another call. A delivery
    failure reported on acknowledgement is not returned: the callback passes
    it to [util.Chk], which ends the process, so the epoch never returns and
    [Wait] neither; the only errors an epoch returns are those of client
    construction and of its first [BeginTransaction]. *)
Theorem fatal_errors :
  (forall w n so evs m err,
     s_client so = Some err -> produceInner w n (so, evs) = Some m ->
     pc m = Returned 0 [] (Some err) /\ pw m = w /\ calls m = [] /\ evs = [])
  /\
  (forall envs env w n m c r err,
     produceInner w n env = Some m -> pc m = Returned c r (Some err) ->
     Wait_loop (env :: envs) w n
     = mkWaitResult (WaitReturned (Some err)) (pw m) [mkInvocation w n (Some m)])
  /\
  (forall m k offset err now m',
     step m (EvAck k offset (Some err) now) = Some m' ->
     pc m' = Exited /\ forall ev, step m' ev = None)
  /\
  (forall envs env w n m,
     produceInner w n env = Some m -> pc m = Exited ->
     w_outcome (Wait_loop (env :: envs) w n) = WaitStopped Exited)
  /\
  (forall w n so evs m c r err,
     in_int64 n -> produceInner w n (so, evs) = Some m ->
     pc m = Returned c r (Some err) ->
     s_client so = Some err \/ (s_client so = None /\ s_begin so = Some err)).
Proof.
  split; [|split; [|split; [|split]]].
  - intros w n so evs m err Hc Hrun.
    unfold produceInner, produceInner_begin in Hrun. cbn [fst snd] in Hrun.
    rewrite Hc in Hrun. by apply run_final_nil in Hrun as [-> ->].
  - intros envs env w n m c r err Hrun Hpc. cbn [Wait_loop]. by rewrite Hrun, Hpc.
  - intros m k offset err now m' Hs. unfold step in Hs.
    destruct (running (pc m)); [|done]. destruct (inflight m !! k); [|done].
    injection Hs as <-. split; [done|]. intros ev. by apply step_final.
  - intros envs env w n m Hrun Hpc. cbn [Wait_loop]. by rewrite Hrun, Hpc.
  - intros w n so evs m c r err Hn Hrun Hpc.
    by destruct (returned_error w n so evs m c r err Hn Hrun Hpc) as (? & _).
Qed.

(** The client of the small run cannot be built: the epoch returns the error
    and [Wait] returns it after that one call. *)
Lemma fatal_errors_witness :
  (exists m, produceInner ex_worker 2 ex_no_client = Some m /\
     pc m = Returned 0 [] (Some "no broker"%string) /\ pw m = ex_worker /\ calls m = [] /\
     snd ex_no_client = []) /\
  w_outcome (Wait [ex_no_client] ex_worker) = WaitReturned (Some "no broker"%string) /\
  length (w_invocations (Wait [ex_no_client] ex_worker)) = 1%nat.
Proof.
  split; [|split; reflexivity].
  eexists. split; [reflexivity|].
  apply (proj1 fatal_errors ex_worker 2 (fst ex_no_client) (snd ex_no_client) _
           "no broker"%string); reflexivity.
Defined.

(** A delivery failure in the small run: the process ends in the callback;
    neither [produceInner] nor [Wait] returns the error. *)
Lemma delivery_failure_not_returned :
  (exists m, produceInner ex_worker 2 ex_delivery_failure = Some m /\ pc m = Exited) /\
  w_outcome (Wait [ex_delivery_failure] ex_worker) = WaitStopped Exited /\
  w_outcome (Wait [ex_delivery_failure] ex_worker)
    <> WaitReturned (Some "delivery failed"%string).
Proof.
  split; [|split].
  - eexists. split; vm_compute; reflexivity.
  - vm_compute. reflexivity.
  - vm_compute. discriminate.
Qed.

(** ** C7: failures of transaction calls *)

Lemma at_boundary_per m :
  at_boundary m = true ->
  (0 <? loop_i m) = true /\
  (wrap64 (msgsPerTransaction (config (pw m))) =? 0) = false /\
  (Z.rem (loop_i m) (wrap64 (msgsPerTransaction (config (pw m)))) =? 0) = true.
Proof.
  unfold at_boundary. intros [Hi Hrem]%andb_true_iff. repeat split; [done| |done].
  apply Z.eqb_neq. intros Hper. rewrite Hper, Z.rem_0_r_ext in Hrem by done.
  apply Z.ltb_lt in Hi. apply Z.eqb_eq in Hrem. lia.
Qed.

(** A failed call at a batch boundary. *)
Lemma boundary_failure m o m' :
  pc m = Acquire -> step m (EvMain o) = Some m' ->
  0 < nPartitions (config (pw m)) -> at_boundary m = true ->
  ~ (o_flush o = None /\ o_end o = None /\ o_begin o = None) ->
  pc m' = Finalize /\ errored m' = true /\
  FailedTransactions (Status (pw m')) = add64 (FailedTransactions (Status (pw m))) 1 /\
  dispatched (calls m') = dispatched (calls m) /\
  exists cs, calls m' = calls m ++ cs /\ length (failures cs) = 1%nat.
Proof.
  intros Hpc Hs Hn Hb Hfail. unfold step in Hs. rewrite Hpc in Hs.
  destruct (negb (len64 (inflight m) <? 4096)); [done|].
  destruct (_ && _); [done|]. injection Hs as <-.
  destruct (at_boundary_per m Hb) as (Hi & Hper & Hrem).
  unfold loop_body. fold (entered m).
  change (nPartitions (config (pw (entered m)))) with (nPartitions (config (pw m))).
  change (loop_i (entered m)) with (loop_i m).
  change (msgsPerTransaction (config (pw (entered m))))
    with (msgsPerTransaction (config (pw m))).
  replace (nPartitions (config (pw m)) <=? 0) with false by (symmetry; apply Z.leb_gt; lia).
  rewrite Hi, Hper, Hrem.
  pose proof (boundary_cases o (entered m)) as Hcases.
  destruct (boundary o (entered m)) as [m1|m1|]; [|clear Hfail|done].
  - destruct Hcases as (? & ? & ? & _). by destruct Hfail.
  - destruct Hcases as (cs & -> & Hlen & Hpred). cbn.
    rewrite dispatched_app, (dispatched_nil _ Hpred), app_nil_r. eauto 10.
Qed.

(** C7 (amended). A flush, end or begin of a transaction that fails at a
    batch boundary increments the failed-transaction counter, marks the epoch
    errored and leaves the loop for the finalization without building the
    record; the finalization calls flush and end-transaction whatever the
    first of them returns, counts each of the two that fails and marks the
    epoch errored when one does, and then waits for the callbacks; an epoch
    whose first [BeginTransaction] succeeded returns, when it returns, its
    count (produced less bad offsets) and no error. The first
    [BeginTransaction] of an epoch is the exception: its failure is counted
    too, but the epoch returns at once with that error and a zero count. *)
Theorem transaction_failures :
  (forall m o m',
     pc m = Acquire -> step m (EvMain o) = Some m' ->
     0 < nPartitions (config (pw m)) -> at_boundary m = true ->
     ~ (o_flush o = None /\ o_end o = None /\ o_begin o = None) ->
     pc m' = Finalize /\ errored m' = true /\
     FailedTransactions (Status (pw m')) = add64 (FailedTransactions (Status (pw m))) 1 /\
     dispatched (calls m') = dispatched (calls m) /\
     exists cs, calls m' = calls m ++ cs /\ length (failures cs) = 1%nat)
  /\
  (forall m o m',
     pc m = Finalize -> step m (EvMain o) = Some m' ->
     let cs := [CFlush (o_flush o); CEndTransaction (negb (willAbort m)) (o_end o)] in
     pc m' = Drain /\ calls m' = calls m ++ cs /\
     FailedTransactions (Status (pw m'))
       = incremented (length (failures cs)) (FailedTransactions (Status (pw m))) /\
     (failures cs <> [] -> errored m' = true) /\
     (failures cs = [] -> errored m' = errored m))
  /\
  (forall w n so evs m c r e,
     in_int64 n -> s_client so = None -> s_begin so = None ->
     produceInner w n (so, evs) = Some m -> pc m = Returned c r e ->
     e = None /\ c = produced m - len64 r)
  /\
  (forall w n so evs m err,
     s_client so = None -> s_begin so = Some err ->
     produceInner w n (so, evs) = Some m ->
     pc m = Returned 0 [] (Some err) /\
     FailedTransactions (Status (pw m)) = add64 (FailedTransactions (Status w)) 1 /\
     calls m = [CBeginTransaction (Some err)] /\ evs = []).
Proof.
  split; [|split; [|split]].
  - apply boundary_failure.
  - intros m o m' Hpc Hs. cbn zeta. unfold step in Hs. rewrite Hpc in Hs.
    injection Hs as <-.
    destruct (finalize_cases o m)
      as (cs & w' & -> & _ & (_ & _ & _ & _ & _ & _ & _ & _ & Hf) & [[Hok ->]|[Hne ->]]);
      cbn; rewrite Hf; repeat split; done.
  - intros w n so evs m c r e Hn Hc Hb Hrun Hpc.
    destruct (epoch_invariant w n so m Hn Hc Hb (reachable_intro _ _ _ _ _ Hrun))
      as [H|[H|Hinv]]; [congruence..|].
    by destruct (inv_returned _ _ _ Hinv c r e Hpc) as (? & _ & ? & _).
  - intros w n so evs m err Hc Hb Hrun.
    unfold produceInner, produceInner_begin in Hrun. cbn [fst snd] in Hrun.
    rewrite Hc, Hb in Hrun. by apply run_final_nil in Hrun as [-> ->].
Qed.

(** In the small run [EndTransaction] fails at the boundary before the
    second message: the loop is left with one record dispatched. *)
Lemma transaction_failures_witness :
  pc ex_m8 = Finalize /\ errored ex_m8 = true /\
  FailedTransactions (Status (pw ex_m8)) = add64 (FailedTransactions (Status (pw ex_m1))) 1 /\
  dispatched (calls ex_m8) = dispatched (calls ex_m1) /\
  exists cs, calls ex_m8 = calls ex_m1 ++ cs /\ length (failures cs) = 1%nat.
Proof.
  apply (proj1 transaction_failures ex_m1 ex_end_fails ex_m8).
  - reflexivity.
  - vm_compute. reflexivity.
  - vm_compute. reflexivity.
  - vm_compute. reflexivity.
  - vm_compute. intros (_ & H & _). discriminate H.
Defined.

(** The first [BeginTransaction] of an epoch fails: [produceInner] returns
    the error and [Wait] returns it to its caller. *)
Lemma first_begin_failure_is_returned :
  (exists m, produceInner ex_worker 2 ex_no_begin = Some m /\
     pc m = Returned 0 [] (Some "begin failed"%string) /\
     FailedTransactions (Status (pw m)) = 1) /\
  w_outcome (Wait [ex_no_begin] ex_worker) = WaitReturned (Some "begin failed"%string).
Proof.
  split.
  - eexists. repeat split; vm_compute; reflexivity.
  - vm_compute. reflexivity.
Qed.

(** ** C9: the sent counter *)

(** C9 (the code departs from the claim). In the small run
    [EndTransaction] fails at the boundary before the second message. The
    iteration has already counted the message ([produced] and [Sent]) when
    it breaks out of the loop, so the epoch ends with [Sent = 2] although a
    single record was dispatched to the client, returns a count of 2, and
    [Wait] reports the two requested messages as done. The acknowledgement
    counters stay within [Sent]. *)
Theorem sent_counts_undispatched_message :
  pc ex_m9 = Returned 2 [] None /\
  Sent (Status (pw ex_m9)) = 2 /\
  length (dispatched (calls ex_m9)) = 1%nat /\
  Acked (Status (pw ex_m9)) = 1 /\ BadOffsets (Status (pw ex_m9)) = 0 /\
  produceInner ex_worker 2 ex_boundary_failure = Some ex_m9 /\
  w_outcome (Wait [ex_boundary_failure] ex_worker) = WaitReturned None.
Proof. repeat split; vm_compute; reflexivity. Qed.

(** ** C8: the key of a record *)

Lemma prefix_append (a b : string) : String.prefix a (a +:+ b) = true.
Proof.
  induction a as [|c a IH]; [by destruct b|].
  rewrite append_cons. cbn [String.prefix]. by destruct (ascii_dec c c).
Qed.

(** C8. [newRecord] builds a record whenever the message size is not
    negative. The key of a record of a transaction that will be aborted
    starts with the sentinel "ABORTED MSG: ", whatever the message size, the
    timestamp settings and the partition (which is set afterwards); the key
    of any other record is the producer identifier, a dot and the sequence
    number as [%06d] and [%018d] print them, which for an identifier below
    10^6 and a sequence number below 10^18 (neither negative) is exactly six
    digits, a dot and eighteen digits: 25 characters, zero-padded decimal. *)
Theorem newRecord_key w producerId sequence aborted :
  0 <= messageSize (config w) ->
  exists r w',
    newRecord w producerId sequence aborted = Ok (r, w') /\
    (aborted = true ->
       Key r = "ABORTED MSG: " +:+ fmt_d0 6 producerId +:+ "." +:+ fmt_d0 18 sequence /\
       String.prefix "ABORTED MSG: " (Key r) = true) /\
    (aborted = false ->
       Key r = fmt_d0 6 producerId +:+ "." +:+ fmt_d0 18 sequence /\
       (0 <= producerId < 10 ^ 6 -> 0 <= sequence < 10 ^ 18 ->
        Key r = fixed_width 6 producerId +:+ "." +:+ fixed_width 18 sequence /\
        String.length (Key r) = 25%nat)).
Proof.
  intros Hsz. unfold newRecord.
  replace (messageSize (config w) <? 0) with false by (symmetry; apply Z.ltb_ge; lia).
  set (key := if negb aborted then _ else _).
  assert (Hkey :
    (aborted = true ->
       key = "ABORTED MSG: " +:+ fmt_d0 6 producerId +:+ "." +:+ fmt_d0 18 sequence /\
       String.prefix "ABORTED MSG: " key = true) /\
    (aborted = false ->
       key = fmt_d0 6 producerId +:+ "." +:+ fmt_d0 18 sequence /\
       (0 <= producerId < 10 ^ 6 -> 0 <= sequence < 10 ^ 18 ->
        key = fixed_width 6 producerId +:+ "." +:+ fixed_width 18 sequence /\
        String.length key = 25%nat))).
  { subst key. destruct aborted; cbn [negb].
    - split; [|done]. intros _. split; [reflexivity|apply prefix_append].
    - split; [done|]. intros _. split; [done|]. intros Hp Hs.
      rewrite (fmt_d0_fixed_width 6 producerId), (fmt_d0_fixed_width 18 sequence)
        by (done || lia).
      split; [done|].
      unfold fixed_width. rewrite !length_append, !length_fixed_digits. reflexivity. }
  destruct (negb (fakeTimestampMs w =? -1)); eexists _, _; (split; [reflexivity|]);
    exact Hkey.
Qed.

(** The second record of the small run would carry this key were its
    transaction not aborted: producer 0, sequence 23. *)
Lemma newRecord_key_witness :
  exists r w',
    newRecord ex_worker 0 23 false = Ok (r, w') /\
    (false = true ->
       Key r = "ABORTED MSG: " +:+ fmt_d0 6 0 +:+ "." +:+ fmt_d0 18 23 /\
       String.prefix "ABORTED MSG: " (Key r) = true) /\
    (false = false ->
       Key r = fmt_d0 6 0 +:+ "." +:+ fmt_d0 18 23 /\
       (0 <= 0 < 10 ^ 6 -> 0 <= 23 < 10 ^ 18 ->
        Key r = fixed_width 6 0 +:+ "." +:+ fixed_width 18 23 /\
        String.length (Key r) = 25%nat)).
Proof. apply (newRecord_key ex_worker 0 23 false). cbn. lia. Defined.

Example newRecord_keys :
  (exists w', newRecord ex_worker 0 23 false
              = Ok (KeySliceRecord "000000.000000000000000023" [Byte.x00], w')) /\
  (exists w', newRecord ex_worker 0 23 true
              = Ok (KeySliceRecord "ABORTED MSG: 000000.000000000000000023" [Byte.x00], w')).
Proof. split; eexists; vm_compute; reflexivity. Qed.

(** ** C10: the serialized status *)

(** C10 (the code departs from the claim). Whatever the status holds,
    [json.Marshal] writes five fields: sent, acked, bad_offsets,
    failed_transactions and restarts. The latency summary and the active
    flag both carry the tag "latency"; the encoder drops a name that two
    tagged fields claim, so neither is written: there is no "active" field and
    no "latency" field in the serialized form, also after [GetStatus] has
    refreshed the summary. *)
Theorem marshal_Status_fields s :
  keys (marshal_Status s)
  = ["sent"; "acked"; "bad_offsets"; "failed_transactions"; "restarts"]%string /\
  ~ In "active"%string (keys (marshal_Status s)) /\
  ~ In "latency"%string (keys (marshal_Status s)) /\
  (forall summarize w,
     keys (marshal_Status (Status (GetStatus summarize w))) = keys (marshal_Status s)) /\
  marshal_Status s
  = [("sent", JNum (Sent s)); ("acked", JNum (Acked s));
     ("bad_offsets", JNum (BadOffsets s));
     ("failed_transactions", JNum (FailedTransactions s));
     ("restarts", JNum (Restarts s))]%string.
Proof.
  assert (Hk : forall s', keys (marshal_Status s')
                = ["sent"; "acked"; "bad_offsets"; "failed_transactions"; "restarts"]%string)
    by reflexivity.
  split; [apply Hk|]. rewrite Hk.
  split; [|split; [|split]].
  - cbn. intros H. repeat (destruct H as [H|H]; [discriminate H|]). done.
  - cbn. intros H. repeat (destruct H as [H|H]; [discriminate H|]). done.
  - intros summarize w. apply Hk.
  - reflexivity.
Qed.

(** ** Every epoch can run to its return

    Nothing in the machine can get stuck: whatever state a running epoch is
    in, the environment can let it return (the callbacks of the records in
    flight run, the loop is left, the transaction is closed). The records it
    may still have to dispatch need a configuration that does not panic. *)






Lemma newRecord_lastCheckpoint w pid sq ab r w' :
  newRecord w pid sq ab = Ok (r, w') ->
  lastCheckpoint (Status w') = lastCheckpoint (Status w).
Proof. unfold newRecord. intros H. by repeat case_match; simplify_eq. Qed.

Lemma step_acquire_enabled m o :
  pc m = Acquire -> len64 (inflight m) < 4096 ->
  0 < nPartitions (config (pw m)) -> 0 <= o_p o < nPartitions (config (pw m)) ->
  step m (EvMain o)
  = Some match loop_body o m with
         | FNext m' => set_pc LoopTop m'
         | FBreak m' => set_pc Finalize m'
         | FStop how m' => set_pc how m'
         end.
Proof.
  intros Hpc Hsem Hn Hp. unfold step. rewrite Hpc.
  replace (len64 (inflight m) <? 4096) with true by (symmetry; by apply Z.ltb_lt).
  cbn [negb].
  replace (0 <=? o_p o) with true by (symmetry; apply Z.leb_le; lia).
  replace (o_p o <? nPartitions (config (pw m))) with true
    by (symmetry; apply Z.ltb_lt; lia).
  by rewrite andb_false_r.
Qed.


Lemma loop_body_dispatch m c :
  0 < nPartitions (config (pw m)) -> 0 <= messageSize (config (pw m)) ->
  at_boundary m = false ->
  (0 < loop_i m -> wrap64 (msgsPerTransaction (config (pw m))) <> 0) ->
  currentOffsets m !! 0%nat = Some c ->
  exists r w', loop_body (calm m) m = FNext (sent_one (calm m) c r w' (entered m)).
Proof.
  intros Hn Hsz Hb Hper Hc.
  unfold loop_body. fold (entered m).
  change (nPartitions (config (pw (entered m)))) with (nPartitions (config (pw m))).
  change (loop_i (entered m)) with (loop_i m).
  change (msgsPerTransaction (config (pw (entered m))))
    with (msgsPerTransaction (config (pw m))).
  replace (nPartitions (config (pw m)) <=? 0) with false by (symmetry; apply Z.leb_gt; lia).
  assert (Hd : exists r w', dispatch (calm m) (o_p (calm m)) (entered m)
                            = FNext (sent_one (calm m) c r w' (entered m))).
  { unfold dispatch. cbn [calm o_p Z.to_nat currentOffsets entered upd_status set_pw
                            set_produced].
    change (Z.to_nat 0) with 0%nat. rewrite Hc.
    cbn [pw willAbort set_currentOffsets].
    destruct (newRecord_total (pw (entered m)) 0 c (willAbort (entered m)) Hsz)
      as (r & w' & Hr).
    rewrite Hr. apply newRecord_lastCheckpoint in Hr.
    cbn [pw set_pw set_inflight log_call set_calls set_currentOffsets o_since calm].
    rewrite Hr. change (lastCheckpoint (Status (pw (entered m))))
      with (lastCheckpoint (Status (pw m))).
    rewrite Z.sub_diag. cbn. eauto. }
  unfold at_boundary in Hb.
  destruct (0 <? loop_i m) eqn:Hi; cbn [andb] in Hb; [|done].
  apply Z.ltb_lt in Hi.
  replace (wrap64 (msgsPerTransaction (config (pw m))) =? 0) with false
    by (symmetry; apply Z.eqb_neq; auto).
  by rewrite Hb.
Qed.

Lemma step_ack_mismatch m pd now :
  running (pc m) = true -> inflight m = [pd] -> len64 (bad_offsets m) < 16384 ->
  exists m1,
    step m (EvAck 0 (pd_currentOffset pd + 1) None now) = Some m1 /\
    inflight m1 = [] /\ pc m1 = pc m /\ bad_offsets m1 <> [].
Proof.
  intros Hrun Hin Hroom. unfold step. rewrite Hrun, Hin. cbn [lookup list_lookup].
  eexists. split; [reflexivity|].
  unfold handler, Chk. cbn [Offset with_Offset].
  replace (pd_currentOffset pd + 1 =? pd_currentOffset pd) with false
    by (symmetry; apply Z.eqb_neq; lia).
  cbn [negb bad_offsets upd_status set_pw set_inflight].
  replace (16384 <=? len64 (bad_offsets m)) with false by (symmetry; apply Z.leb_gt; lia).
  cbn. repeat split. by intros [_ ?]%app_eq_nil.
Qed.







(** * Further properties of the worker *)

(** An epoch either failed to open (no client, or no first transaction) and
    returned that error at once, or it started. *)
Lemma epoch_cases w n env m :
  produceInner w n env = Some m ->
  (exists err, pc m = Returned 0 [] (Some err) /\ inflight m = [] /\
               bad_offsets m = [] /\ predictions (calls m) = [] /\
               validOffsets (pw m) = validOffsets w)
  \/ (s_client (fst env) = None /\ s_begin (fst env) = None /\ reachable w n (fst env) m).
Proof.
  intros Hrun. destruct env as [so evs]. cbn [fst].
  destruct (s_client so) as [err|] eqn:Hc.
  { left. unfold produceInner, produceInner_begin in Hrun. cbn [fst snd] in Hrun.
    rewrite Hc in Hrun. apply run_final in Hrun; [|done]. subst m. by exists err. }
  destruct (s_begin so) as [err|] eqn:Hb.
  { left. unfold produceInner, produceInner_begin in Hrun. cbn [fst snd] in Hrun.
    rewrite Hc, Hb in Hrun. apply run_final in Hrun; [|done]. subst m. by exists err. }
  right. repeat split; [done..|]. by exists evs.
Qed.

(** ** The channel of bad offsets is large enough *)



(** ** Every dispatched record is accounted for, once *)



(** ** How many transaction calls can fail in one epoch *)

Lemma failures_nil_produce r c : failures [CProduce r c] = [].
Proof. reflexivity. Qed.

Lemma failures_bound_transition m ev m' :
  failures_bound m -> transition m ev m' -> alive (pc m') -> failures_bound m'.
Proof.
  intros (Hloop & Hfin & Hall) Ht Halive. unfold failures_bound.
  destruct Ht.
  - cbn. rewrite Hloop by auto. cbn. repeat split; intros; done || lia.
  - cbn. rewrite Hloop by auto. cbn. repeat split; intros; done || lia.
  - assert (Hcs : failures (calls (sent_one o c (with_Partition (o_p o) r0) w2 m1)) = []).
    { subst m1. cbn. rewrite failures_app, failures_nil_produce, app_nil_r.
      destruct (at_boundary m); cbn; rewrite ?failures_app, Hloop by auto; done. }
    cbn. cbn in Hcs. rewrite Hcs. cbn. repeat split; intros; done || lia.
  - cbn. rewrite failures_app, Hloop by auto. cbn.
    repeat split; [intros [?|?]; done|intros _; lia|lia].
  - destruct Halive as (? & ? & ?). cbn in *. destruct H1; congruence.
  - destruct (finalize_cases o m) as (cs & w' & -> & _ & _ & [[Hf ->]|[Hf ->]]); cbn;
      rewrite failures_app, length_app; specialize (Hfin H);
      (repeat split; [intros [?|?]; done|done|]);
      unfold failures in *; cbn; repeat case_match; cbn; lia.
  - unfold finish, produceCheckpoint, Chk in *.
    destruct (o_store o); [destruct Halive as (? & _); done|].
    cbn in *. destruct (errored m); cbn in *;
      (repeat split; [intros [?|?]; done|intros ?; done|done]).
  - unfold handler, Chk in *. destruct err; [destruct Halive as (? & _); done|].
    cbn [Offset with_Offset]. destruct (negb _).
    + cbn. destruct (16384 <=? _); cbn in *; [destruct Halive as (? & ? & ?); done|].
      done.
    + cbn. done.
Qed.

Lemma failures_bound_reachable w n so m :
  s_client so = None -> s_begin so = None ->
  reachable w n so m -> alive (pc m) -> failures_bound m.
Proof.
  intros Hc Hb [evs Hrun]. unfold produceInner in Hrun. cbn [fst snd] in Hrun.
  rewrite produceInner_begin_started in Hrun by done. revert Hrun.
  apply (run_invariant (fun m => alive (pc m) -> failures_bound m)).
  - intros m1 ev m2 IH Ht Ha2. eapply failures_bound_transition; [|done..].
    eapply IH, alive_running, transition_running, Ht.
  - intros _. unfold failures_bound, failures. cbn. repeat split; intros; done || lia.
Qed.

(** X4. A started epoch adds to [FailedTransactions] the number of transaction
    calls that failed, and that is at most three: none as long as the loop
    runs (the first failure leaves it), at most one when the loop has been
    left, and at most two more from the closing flush and end. *)
Theorem failed_transactions_bounded w n so m :
  in_int64 n -> wf_status (Status w) -> s_client so = None -> s_begin so = None ->
  reachable w n so m -> alive (pc m) ->
  FailedTransactions (Status (pw m))
    = wrap64 (FailedTransactions (Status w) + len64 (failures (calls m))) /\
  len64 (failures (calls m)) <= 3 /\
  (pc m = LoopTop \/ pc m = Acquire -> failures (calls m) = []) /\
  (pc m = Finalize -> len64 (failures (calls m)) <= 1).
Proof.
  intros Hn Hwf Hc Hb Hreach Halive.
  destruct (counters_invariant w n Hn so m Hwf Hc Hb Hreach Halive) as [_ Hcnt].
  destruct (failures_bound_reachable w n so m Hc Hb Hreach Halive) as (H1 & H2 & H3).
  split; [apply Hcnt|]. unfold len64. repeat split; [lia|done|].
  intros Hpc. specialize (H2 Hpc). lia.
Qed.

Lemma failed_transactions_bounded_witness :
  FailedTransactions (Status (pw ex_m9))
    = wrap64 (FailedTransactions (Status ex_worker) + len64 (failures (calls ex_m9))) /\
  len64 (failures (calls ex_m9)) <= 3 /\
  (pc ex_m9 = LoopTop \/ pc ex_m9 = Acquire -> failures (calls ex_m9) = []) /\
  (pc ex_m9 = Finalize -> len64 (failures (calls ex_m9)) <= 1).
Proof.
  apply (failed_transactions_bounded ex_worker 2 ex_start ex_m9).
  - unfold in_int64, int64_min, int64_max. lia.
  - unfold wf_status, in_int64, int64_min, int64_max. cbn. lia.
  - reflexivity.
  - reflexivity.
  - exists (snd ex_boundary_failure). vm_compute. reflexivity.
  - repeat split; discriminate.
Defined.

(** ** What a successful [Wait] has delivered *)






(** ** An epoch never reports more than it was asked for *)

(** X6. Whatever happens during an epoch, the count it returns lies between 0
    and the count requested, and so does the number of records it gave to
    the client; the count and the bad offsets together never exceed the
    request. Asked for nothing (or for a negative count), it gives no record
    to the client, adds nothing to the ledger and returns zero. *)
Theorem produceInner_count_bounds w n env m c r e :
  in_int64 n -> produceInner w n env = Some m -> pc m = Returned c r e ->
  0 <= c <= Z.max 0 n /\
  c + len64 r <= Z.max 0 n /\
  len64 (dispatched (calls m)) <= Z.max 0 n /\
  (n <= 0 ->
     c = 0 /\ r = [] /\ dispatched (calls m) = [] /\
     validOffsets (pw m) = validOffsets w).
Proof.
  intros Hn Hrun Hpc.
  destruct (epoch_return w n env m c r e Hn Hrun Hpc) as (Hc & _).
  assert (Hd : len64 (dispatched (calls m)) = len64 (predictions (calls m))).
  { unfold len64. by rewrite length_dispatched. }
  split; [done|].
  destruct (epoch_cases _ _ _ _ Hrun) as [(err & Hpc' & _ & _ & Hp & Hv)|(Hcl & Hb & Hreach)].
  { rewrite Hpc in Hpc'. injection Hpc' as -> -> ->. rewrite Hd, Hp.
    change (len64 []) with 0. repeat split; try lia; try done. by apply dispatched_nil. }
  destruct (epoch_invariant w n _ m Hn Hcl Hb Hreach) as [H|[H|Hinv]]; [congruence..|].
  destruct (inv_returned _ _ _ Hinv c r e Hpc) as (_ & Hin & Hcount & _).
  destruct (inv_ledger _ _ _ Hinv) as (added & Hadd & _ & Hlen).
  unfold bad_list in Hlen. rewrite Hpc, Hin in Hlen.
  pose proof (inv_i _ _ _ Hinv) as Hi. pose proof (inv_i_le _ _ _ Hinv) as Hle.
  pose proof (len64_nonneg added). pose proof (len64_nonneg r).
  change (len64 (@nil Pending)) with 0 in Hlen.
  assert (Hprod : produced m <= Z.max 0 n).
  { destruct (inv_produced _ _ _ Hinv) as [Hp|(Hp & ? & _)]; lia. }
  split; [lia|]. split; [lia|].
  intros Hn0.
  assert (Hz : len64 (predictions (calls m)) = 0) by lia.
  assert (Ha : added = []) by (apply len64_zero; lia).
  assert (Hr : r = []) by (apply len64_zero; lia).
  subst added r. rewrite app_nil_r in Hadd.
  repeat split; try done.
  - change (len64 (@nil BadOffset)) with 0 in *. lia.
  - apply dispatched_nil. by apply len64_zero.
Qed.

Lemma produceInner_count_bounds_witness :
  0 <= 1 <= Z.max 0 2 /\
  1 + len64 [mkBadOffset 1 24] <= Z.max 0 2 /\
  len64 (dispatched (calls ex_m7)) <= Z.max 0 2 /\
  (2 <= 0 ->
     1 = 0 /\ [mkBadOffset 1 24] = [] /\ dispatched (calls ex_m7) = [] /\
     validOffsets (pw ex_m7) = validOffsets ex_worker).
Proof.
  apply (produceInner_count_bounds ex_worker 2 (ex_epoch 24) ex_m7 1 [mkBadOffset 1 24] None).
  - unfold in_int64, int64_min, int64_max. lia.
  - vm_compute. reflexivity.
  - reflexivity.
Defined.

(** ** [Wait] never overshoots *)

Lemma inv_count_bounds w n env m :
  in_int64 n -> 0 <= n -> produceInner w n env = Some m ->
  0 <= inv_count (mkInvocation w n (Some m)) <= n.
Proof.
  intros Hn Hn0 Hrun. unfold inv_count, inv_value. cbn.
  destruct (pc m) as [ | | | |c r e| | | ] eqn:Hpc; try lia.
  destruct (epoch_return w n env m c r e Hn Hrun Hpc) as (Hc & _). lia.
Qed.

Lemma Wait_loop_exact envs : forall w n,
  in_int64 n -> 0 <= n ->
  let res := Wait_loop envs w n in
  let invs := w_invocations res in
  (forall k i, invs !! k = Some i ->
     0 <= inv_count i <= inv_n i /\ inv_n i <= n /\ ((0 < k)%nat -> 0 < inv_n i))
  /\ 0 <= remaining n invs
  /\ (w_outcome res = WaitReturned None -> remaining n invs = 0).
Proof.
  induction envs as [|env envs IH]; intros w n Hn Hn0; cbn zeta.
  { cbn. repeat split; done. }
  cbn [Wait_loop].
  destruct (produceInner w n env) as [m|] eqn:Hrun.
  2:{ cbn. repeat split; try done; try lia.
      all: destruct k; cbn in *; simplify_eq; cbn; lia. }
  pose proof (inv_count_bounds w n env m Hn Hn0 Hrun) as Hcb.
  set (here := mkInvocation w n (Some m)) in *.
  assert (Hone : forall k i, [here] !! k = Some i ->
            0 <= inv_count i <= inv_n i /\ inv_n i <= n /\ ((0 < k)%nat -> 0 < inv_n i)).
  { intros [|k] i Hk; cbn in Hk; [|done]. simplify_eq. cbn. repeat split; lia. }
  destruct (pc m) as [ | | | |c r [err|]| | | ] eqn:Hpc;
    try (cbn [w_outcome w_pw w_invocations remaining];
         split; [exact Hone|]; split; [lia|done]).
  assert (Hcount : inv_count here = c).
  { unfold inv_count, inv_value. cbn. by rewrite Hpc. }
  destruct (epoch_return w n env m c r None Hn Hrun Hpc) as (Hc & _).
  rewrite (sub64_exact n c Hn Hc).
  destruct (n - c <=? 0) eqn:Hdone.
  - apply Z.leb_le in Hdone. cbn [w_outcome w_pw w_invocations remaining].
    split; [exact Hone|]. split; lia.
  - apply Z.leb_gt in Hdone.
    assert (Hn' : in_int64 (n - c)).
    { unfold in_int64, int64_min, int64_max in *. lia. }
    destruct (IH (upd_Status (fun s => set_Restarts (add64 (Restarts s) 1) s) (pw m))
                 (n - c) Hn' ltac:(lia)) as (IH1 & IH2 & IH3).
    cbn [w_outcome w_pw w_invocations remaining]. rewrite Hcount.
    split; [|split; [done|done]].
    intros [|k] i Hk; cbn in Hk.
    + simplify_eq. cbn. repeat split; lia.
    + destruct (IH1 k i Hk) as (? & ? & Hpos). repeat split; try lia.
      intros _. destruct k; [|apply Hpos; lia].
      (* the second call gets the positive remainder *)
      destruct (Wait_loop_spec envs
                  (upd_Status (fun s => set_Restarts (add64 (Restarts s) 1) s) (pw m))
                  (n - c) Hn') as (Hs & _).
      destruct (Hs 0%nat i Hk) as (-> & _). rewrite take_0. cbn [remaining]. lia.
Qed.

(** X7. For a requested total that is not negative, every call of
    [produceInner] is given a count between 0 and the total (positive from
    the second call on) and returns a count between 0 and what it was given;
    the remainder never becomes negative, and when [Wait] returns [nil] the
    counts of its epochs add up to exactly the requested total. *)
Theorem Wait_never_overshoots envs w :
  0 <= wrap64 (messageCount (config w)) ->
  let res := Wait envs w in
  let invs := w_invocations res in
  let total := wrap64 (messageCount (config w)) in
  (forall k i, invs !! k = Some i ->
     0 <= inv_count i <= inv_n i /\ inv_n i <= total /\ ((0 < k)%nat -> 0 < inv_n i))
  /\ 0 <= remaining total invs
  /\ (w_outcome res = WaitReturned None -> remaining total invs = 0).
Proof.
  intros Htotal. cbn zeta.
  destruct (Wait_outcome envs w) as (Hout & Hinvs & _). rewrite Hout, Hinvs.
  apply (Wait_loop_exact envs (upd_Status (set_Active true) w)
           (wrap64 (messageCount (config w))) (wrap64_range _) Htotal).
Qed.

Lemma Wait_never_overshoots_witness :
  (forall k i, w_invocations (Wait [ex_epoch 24; ex_epoch 23] ex_worker) !! k = Some i ->
     0 <= inv_count i <= inv_n i /\ inv_n i <= wrap64 (messageCount (config ex_worker)) /\
     ((0 < k)%nat -> 0 < inv_n i))
  /\ 0 <= remaining (wrap64 (messageCount (config ex_worker)))
            (w_invocations (Wait [ex_epoch 24; ex_epoch 23] ex_worker))
  /\ (w_outcome (Wait [ex_epoch 24; ex_epoch 23] ex_worker) = WaitReturned None ->
      remaining (wrap64 (messageCount (config ex_worker)))
        (w_invocations (Wait [ex_epoch 24; ex_epoch 23] ex_worker)) = 0).
Proof.
  apply (Wait_never_overshoots [ex_epoch 24; ex_epoch 23] ex_worker).
  vm_compute. discriminate.
Defined.

(** ** The log of client calls, step by step *)

Lemma dispatch_log o m :
  match dispatch o (o_p o) m with
  | FNext m' =>
    exists c r0 w1,
      currentOffsets m !! Z.to_nat (o_p o) = Some c /\
      newRecord (pw m) 0 c (willAbort m) = Ok (r0, w1) /\
      calls m' = calls m ++ [CProduce (with_Partition (o_p o) r0) c] /\
      willAbort m' = willAbort m /\ loop_i m' = add64 (loop_i m) 1 /\
      currentOffsets m' = <[Z.to_nat (o_p o) := add64 c 1]> (currentOffsets m) /\
      fakeTimestampMs (pw m') = fakeTimestampMs w1
  | _ => True
  end.
Proof.
  unfold dispatch.
  destruct (currentOffsets m !! Z.to_nat (o_p o)) as [c|] eqn:Hc; [|done].
  cbn [pw willAbort set_currentOffsets].
  destruct (newRecord (pw m) 0 c (willAbort m)) as [[r0 w1]| |] eqn:Hr; [|done..].
  unfold produceCheckpoint, Chk.
  cbn [pw set_pw set_inflight log_call set_calls set_currentOffsets upd_status].
  destruct (5000000000 <? o_since o - lastCheckpoint (Status w1)).
  - destruct (o_store o); [done|]. exists c, r0, w1. by repeat split.
  - exists c, r0, w1. by repeat split.
Qed.

Lemma boundary_log o m :
  match boundary o m with
  | FNext m' => m' = crossed o m
  | FBreak m' =>
    exists cs, break_shape (willAbort m) o cs /\ calls m' = calls m ++ cs /\
               willAbort m' = willAbort m /\ loop_i m' = loop_i m /\
               currentOffsets m' = currentOffsets m /\
               fakeTimestampMs (pw m') = fakeTimestampMs (pw m)
  | FStop _ _ => False
  end.
Proof.
  pose proof (boundary_cases o m) as Hb. unfold boundary in *. unfold break_shape.
  destruct (o_flush o) as [e1|].
  { exists [CFlush (Some e1)]. repeat split; try done. left. by split. }
  destruct (o_end o) as [e2|].
  { exists [CFlush None; CEndTransaction (negb (willAbort m)) (Some e2)].
    repeat split; try done.
    - right; left. by split.
    - cbn. by rewrite <- app_assoc. }
  destruct (o_begin o) as [e3|].
  { exists [CFlush None; CEndTransaction (negb (willAbort m)) None; CBeginTransaction (Some e3)].
    repeat split; try done.
    - right; right. by split.
    - cbn. by rewrite <- !app_assoc. }
  by destruct Hb as (_ & _ & _ & ->).
Qed.

Lemma step_log m ev m' :
  step m ev = Some m' -> alive (pc m') -> log_step m ev m'.
Proof.
  intros Hs Halive. destruct ev as [o|k offset err now]; unfold step in Hs.
  - destruct (pc m) eqn:Hpc; try done.
    + (* the loop condition *)
      destruct (_ && _); simplify_eq; apply LS_quiet; try done;
        right; left; cbn; auto.
    + (* an iteration *)
      destruct (negb (len64 (inflight m) <? 4096)); [done|].
      destruct ((0 <? nPartitions (config (pw m))) && _) eqn:Hp; [done|].
      injection Hs as <-.
      unfold loop_body in *. fold (entered m) in *.
      change (nPartitions (config (pw (entered m)))) with (nPartitions (config (pw m))) in *.
      change (loop_i (entered m)) with (loop_i m) in *.
      change (msgsPerTransaction (config (pw (entered m))))
        with (msgsPerTransaction (config (pw m))) in *.
      destruct (nPartitions (config (pw m)) <=? 0) eqn:Hn.
      { destruct Halive as (? & ? & ?). done. }
      apply Z.leb_gt in Hn.
      assert (Hrange : 0 <= o_p o < nPartitions (config (pw m))).
      { apply andb_false_iff in Hp as [Hp|Hp]; [apply Z.ltb_ge in Hp; lia|].
        apply negb_false_iff, andb_true_iff in Hp as [?%Z.leb_le ?%Z.ltb_lt]. lia. }
      assert (Hsend : forall m1,
        calls m1 = calls m ++ boundary_calls m ->
        willAbort m1 = (if at_boundary m then o_roll o else willAbort m) ->
        loop_i m1 = loop_i m -> currentOffsets m1 = cursors_at_dispatch m ->
        config (pw m1) = config (pw m) ->
        fakeTimestampMs (pw m1) = fakeTimestampMs (pw m) ->
        alive (pc match dispatch o (o_p o) m1 with
                  | FNext m' => set_pc LoopTop m'
                  | FBreak m' => set_pc Finalize m'
                  | FStop how m' => set_pc how m'
                  end) ->
        log_step m (EvMain o)
          match dispatch o (o_p o) m1 with
          | FNext m' => set_pc LoopTop m'
          | FBreak m' => set_pc Finalize m'
          | FStop how m' => set_pc how m'
          end).
      { intros m1 Hc1 Hw1 Hi1 Ho1 Hcfg1 Hf1 Ha.
        pose proof (dispatch_log o m1) as Hd. pose proof (dispatch_cases o m1) as Hd'.
        destruct (dispatch o (o_p o) m1) as [m2|m2|how m2]; [|done|].
        - destruct Hd as (c & r0 & w1 & Hc & Hr & Hcs & Hw & Hi & Ho & Hf).
          apply (LS_send m (EvMain o) _ o c r0 (pw m1) w1); cbn;
            rewrite ?Hw, ?Hi, ?Ho, ?Hcs, ?Hc1, ?Hi1, <- ?Ho1, <- ?app_assoc;
            try done; congruence.
        - destruct Hd' as ([->| ->] & _); destruct Ha as (? & ? & ?); done. }
      assert (Hplain : at_boundary m = false ->
                alive (pc match dispatch o (o_p o) (entered m) with
                          | FNext m' => set_pc LoopTop m'
                          | FBreak m' => set_pc Finalize m'
                          | FStop how m' => set_pc how m'
                          end) ->
                log_step m (EvMain o)
                  match dispatch o (o_p o) (entered m) with
                  | FNext m' => set_pc LoopTop m'
                  | FBreak m' => set_pc Finalize m'
                  | FStop how m' => set_pc how m'
                  end).
      { intros Hb Ha. apply Hsend; unfold boundary_calls, cursors_at_dispatch;
          rewrite ?Hb; cbn; rewrite ?app_nil_r; done. }
      unfold at_boundary in Hplain.
      destruct (0 <? loop_i m) eqn:Hi; cbn [andb] in *; [|by apply Hplain].
      destruct (wrap64 (msgsPerTransaction (config (pw m))) =? 0) eqn:Hper.
      { destruct Halive as (? & ? & ?). done. }
      destruct (Z.rem (loop_i m) (wrap64 (msgsPerTransaction (config (pw m)))) =? 0) eqn:Hrem;
        [|by apply Hplain].
      assert (Hat : at_boundary m = true).
      { unfold at_boundary. by rewrite Hi, Hrem. }
      pose proof (boundary_log o (entered m)) as Hb.
      destruct (boundary o (entered m)) as [m1|m1|]; [| |done].
      * subst m1. apply Hsend; unfold boundary_calls, cursors_at_dispatch;
          rewrite ?Hat; cbn; done.
      * destruct Hb as (cs & Hshape & Hcs & Hw & Hi' & Ho & Hf).
        by apply (LS_break m (EvMain o) _ o cs).
    + (* finalization *)
      injection Hs as <-. apply (LS_finalize m (EvMain o) _ o); try done; cbn.
      all: unfold finalize, fail_transaction, count_failed, log_call;
        destruct (o_flush o), (o_end o); cbn; rewrite <- ?app_assoc; done.
    + (* the return *)
      destruct (inflight m); [|done]. injection Hs as <-.
      unfold finish, produceCheckpoint, Chk in *.
      destruct (o_store o); [destruct Halive as (? & _); done|].
      cbn in *. destruct (errored m); apply LS_quiet; try done;
        right; right; cbn; eauto.
  - (* a callback *)
    destruct (running (pc m)); [|done].
    destruct (inflight m !! k) as [pd|]; [|done]. injection Hs as <-.
    unfold handler, Chk in *. destruct err; [destruct Halive as (? & _); done|].
    cbn [Offset with_Offset] in *. destruct (negb _).
    + cbn in *. destruct (16384 <=? _); cbn in *; [destruct Halive as (? & ? & ?); done|].
      apply LS_quiet; try done. by left.
    + apply LS_quiet; try done. by left.
Qed.

(** Induction over the states a started epoch reaches without a crash. *)
Lemma reachable_ind w n so (I : Machine -> Prop) :
  s_client so = None -> s_begin so = None ->
  I (started w n so) ->
  (forall m ev m',
     reachable w n so m -> alive (pc m) -> I m ->
     step m ev = Some m' -> alive (pc m') -> I m') ->
  forall m, reachable w n so m -> alive (pc m) -> I m.
Proof.
  intros Hc Hb H0 Hstep m [evs Hrun]. unfold produceInner in Hrun. cbn [fst snd] in Hrun.
  rewrite produceInner_begin_started in Hrun by done.
  revert m Hrun. induction evs as [|ev evs IH] using rev_ind; intros m Hrun Halive.
  - cbn in Hrun. by simplify_eq.
  - rewrite run_app in Hrun.
    destruct (run (started w n so) evs) as [m1|] eqn:Hr1; [|done].
    cbn in Hrun. destruct (step m1 ev) as [m2|] eqn:Hs; [|done]. simplify_eq.
    assert (Ha1 : alive (pc m1)) by (eapply alive_running, step_running, Hs).
    apply (Hstep m1 ev m); try done; [|by apply IH].
    exists evs. unfold produceInner. cbn [fst snd].
    by rewrite produceInner_begin_started.
Qed.

(** ** The sentinel of a key and the fate of its transaction *)

(** The first character of a formatted number is a digit or a minus sign. *)
Definition not_A (s : string) : Prop :=
  exists c t, s = String c t /\ c <> "A"%char.

Lemma pretty_N_go_head x s : (0 < x)%N \/ not_A s -> not_A (pretty_N_go x s).
Proof.
  revert s. induction (N.lt_wf_0 x) as [x _ IH]; intros s Hs.
  destruct (decide (0 < x)%N) as [Hx|Hx].
  - rewrite pretty_N_go_step by done. apply IH; [by apply N.div_lt|].
    right. eexists _, _. split; [done|].
    unfold pretty_N_char. by repeat case_match.
  - assert (x = 0%N) as -> by lia. rewrite pretty_N_go_0. by destruct Hs; [lia|].
Qed.

Lemma fmt_d0_head w v : not_A (fmt_d0 w v).
Proof.
  unfold fmt_d0. destruct (v <? 0).
  { eexists _, _. split; [apply append_cons|done]. }
  assert (Hd : not_A (pretty (Z.abs_N v))).
  { unfold pretty, pretty_N. destruct (decide _) as [|Hne].
    - by eexists _, _.
    - apply pretty_N_go_head. left. lia. }
  destruct (w - String.length (pretty (Z.abs_N v)))%nat as [|k]; [done|].
  eexists _, _. split; [apply append_cons|done].
Qed.

Lemma prefix_cons a s1 b s2 :
  String.prefix (String a s1) (String b s2)
  = if ascii_dec a b then String.prefix s1 s2 else false.
Proof. reflexivity. Qed.

(** [newRecord] puts the sentinel in the key exactly when it is told that the
    transaction will be aborted. *)
Lemma newRecord_sentinel w pid sq ab r w' :
  newRecord w pid sq ab = Ok (r, w') -> aborted_key r = ab.
Proof.
  unfold newRecord, aborted_key. intros H.
  assert (Hkey : Key r = if negb ab
                         then fmt_d0 6 pid +:+ "." +:+ fmt_d0 18 sq
                         else "ABORTED MSG: " +:+ fmt_d0 6 pid +:+ "." +:+ fmt_d0 18 sq).
  { by repeat case_match; simplify_eq. }
  clear H. rewrite Hkey. destruct ab; cbn [negb].
  - apply prefix_append.
  - destruct (fmt_d0_head 6 pid) as (c & t & Heq & Hc). rewrite Heq, !(append_cons c).
    rewrite prefix_cons. by destruct (ascii_dec _ _).
Qed.

Lemma open_records_snoc cs c : open_records (cs ++ [c]) = note_call (open_records cs) c.
Proof. unfold open_records. by rewrite fold_left_app. Qed.

Lemma sentinel_inv_snoc cs wa c :
  sentinel_inv cs wa -> call_agrees wa c -> sentinel_inv (cs ++ [c]) wa.
Proof.
  intros [Hopen Hends] Hc. split.
  - rewrite open_records_snoc. destruct c as [[?|]| |?|r ?]; cbn; try done.
    apply Forall_app. split; [done|]. by constructor.
  - intros k commit res Hk.
    destruct (decide (k < length cs)%nat) as [Hlt|Hge].
    + rewrite lookup_app_l in Hk by done. rewrite take_app_le by lia. by eapply Hends.
    + rewrite lookup_app_r in Hk by lia.
      destruct (k - length cs)%nat as [|j] eqn:Hj; [|done]. cbn in Hk. simplify_eq.
      assert (k = length cs) as -> by lia. rewrite take_app_length.
      cbn in Hc. subst commit. by rewrite negb_involutive.
Qed.

(** A transaction without records may be given either fate. *)
Lemma sentinel_inv_fresh cs wa wa' :
  sentinel_inv cs wa -> open_records cs = [] -> sentinel_inv cs wa'.
Proof. intros [_ Hends] Hnil. split; [by rewrite Hnil|done]. Qed.

Lemma sentinel_inv_step m ev m' :
  sentinel_inv (calls m) (willAbort m) -> log_step m ev m' ->
  sentinel_inv (calls m') (willAbort m').
Proof.
  intros Hinv Hl.
  destruct Hl as [Hcs Hw _ _ _
                 |o c r0 w0 w1 _ _ _ Hcs Hw _ _ _ _ _ Hr _
                 |o cs _ _ _ Hshape Hcs Hw _ _ _
                 |o _ _ Hcs Hw _ _ _].
  - by rewrite Hcs, Hw.
  - rewrite Hcs. apply newRecord_sentinel in Hr.
    assert (Hkey : call_agrees (willAbort m') (CProduce (with_Partition (o_p o) r0) c)).
    { exact Hr. }
    rewrite app_assoc. apply sentinel_inv_snoc; [|done].
    unfold boundary_calls. rewrite Hw. destruct (at_boundary m).
    + apply (sentinel_inv_fresh _ (willAbort m)).
      * change [CFlush None; CEndTransaction (negb (willAbort m)) None; CBeginTransaction None]
          with ([CFlush None] ++ [CEndTransaction (negb (willAbort m)) None]
                ++ [CBeginTransaction None]).
        rewrite !app_assoc. by repeat apply sentinel_inv_snoc.
      * change [CFlush None; CEndTransaction (negb (willAbort m)) None; CBeginTransaction None]
          with ([CFlush None; CEndTransaction (negb (willAbort m)) None]
                ++ [CBeginTransaction None]).
        rewrite app_assoc. by rewrite open_records_snoc.
    + by rewrite app_nil_r.
  - rewrite Hcs, Hw. destruct Hshape as [[_ ->]|[[_ ->]|[_ ->]]].
    + by apply sentinel_inv_snoc.
    + change [CFlush None; CEndTransaction (negb (willAbort m)) (o_end o)]
        with ([CFlush None] ++ [CEndTransaction (negb (willAbort m)) (o_end o)]).
      rewrite app_assoc. by repeat apply sentinel_inv_snoc.
    + change [CFlush None; CEndTransaction (negb (willAbort m)) None;
              CBeginTransaction (o_begin o)]
        with ([CFlush None] ++ [CEndTransaction (negb (willAbort m)) None]
              ++ [CBeginTransaction (o_begin o)]).
      rewrite !app_assoc. by repeat apply sentinel_inv_snoc.
  - rewrite Hcs, Hw.
    change [CFlush (o_flush o); CEndTransaction (negb (willAbort m)) (o_end o)]
      with ([CFlush (o_flush o)] ++ [CEndTransaction (negb (willAbort m)) (o_end o)]).
    rewrite app_assoc. by repeat apply sentinel_inv_snoc.
Qed.

(** X8. In the log of an epoch, every [EndTransaction] asks to commit a
    transaction none of whose records carries the sentinel [ABORTED MSG: ] in
    its key, or to abort one all of whose records carry it; and the records
    of the transaction that is still open announce the fate the worker has
    drawn for it. The records of a transaction are those given to the client
    since the last [BeginTransaction] that succeeded. *)
Theorem sentinel_matches_fate w n so m :
  s_client so = None -> s_begin so = None -> reachable w n so m -> alive (pc m) ->
  (forall k commit res,
     calls m !! k = Some (CEndTransaction commit res) ->
     Forall (fun r => aborted_key r = negb commit) (open_records (take k (calls m))))
  /\ Forall (fun r => aborted_key r = willAbort m) (open_records (calls m)).
Proof.
  intros Hc Hb Hreach Halive.
  cut (sentinel_inv (calls m) (willAbort m)); [by intros [? ?]|].
  revert m Hreach Halive. apply (reachable_ind w n so); [done..| |].
  - split; [by constructor|]. intros [|[|k]] commit res Hk; done.
  - intros m ev m' _ _ Hinv Hs Ha. eapply sentinel_inv_step; [done|]. by apply step_log.
Qed.

Lemma sentinel_matches_fate_witness :
  (forall k commit res,
     calls ex_m7 !! k = Some (CEndTransaction commit res) ->
     Forall (fun r => aborted_key r = negb commit) (open_records (take k (calls ex_m7))))
  /\ Forall (fun r => aborted_key r = willAbort ex_m7) (open_records (calls ex_m7)).
Proof.
  apply (sentinel_matches_fate ex_worker 2 ex_start ex_m7).
  - reflexivity.
  - reflexivity.
  - exists (snd (ex_epoch 24)). vm_compute. reflexivity.
  - repeat split; discriminate.
Defined.

(** In the small run the first transaction is committed and its record has a
    plain key; the second is aborted and its record carries the sentinel. *)
Example sentinel_in_small_run :
  calls ex_m7 !! 3%nat = Some (CEndTransaction true None) /\
  (aborted_key <$> open_records (take 3 (calls ex_m7))) = [false] /\
  calls ex_m7 !! 7%nat = Some (CEndTransaction false None) /\
  (aborted_key <$> open_records (take 7 (calls ex_m7))) = [true].
Proof. vm_compute. done. Qed.

(** ** The size of the transactions *)

Lemma batches_app cs l : batches (cs ++ l) = fold_left count_call l (batches cs).
Proof. unfold batches. by rewrite fold_left_app. Qed.

Lemma at_boundary_divides m :
  wrap64 (msgsPerTransaction (config (pw m))) <> 0 ->
  at_boundary m = true <->
  0 < loop_i m /\ (Z.abs (wrap64 (msgsPerTransaction (config (pw m)))) | loop_i m).
Proof.
  intros Hper. unfold at_boundary.
  rewrite andb_true_iff, Z.ltb_lt, Z.eqb_eq, Z.rem_divide by done.
  by rewrite Z.divide_abs_l.
Qed.

Lemma batch_inv_step w n m ev m' :
  in_int64 n -> epoch_inv w n m ->
  wrap64 (msgsPerTransaction (config w)) <> 0 ->
  batch_inv (Z.abs (wrap64 (msgsPerTransaction (config w)))) (loop_i m) (batches (calls m)) ->
  log_step m ev m' ->
  batch_inv (Z.abs (wrap64 (msgsPerTransaction (config w)))) (loop_i m') (batches (calls m')).
Proof.
  intros Hn Hinv Hper Hb Hl.
  set (q := Z.abs (wrap64 (msgsPerTransaction (config w)))) in *.
  assert (Hq : 0 < q) by (subst q; lia).
  destruct Hl as [Hcs _ Hi _ _
                 |o c r0 w0 w1 _ Hpc _ Hcs _ Hi _ _ _ _ _ _
                 |o cs _ _ _ Hshape Hcs _ Hi _ _
                 |o _ _ Hcs _ Hi _ _].
  - by rewrite Hcs, Hi.
  - destruct Hb as (current & closed & Hbs & Hall & Hsum & Hcur & Hpos).
    pose proof (len64_nonneg closed) as Hk.
    pose proof (inv_i_lt _ _ _ Hinv Hpc) as Hlt.
    assert (Hi' : loop_i m' = loop_i m + 1).
    { rewrite Hi. apply wrap64_id. unfold in_int64, int64_min, int64_max in *. nia. }
    rewrite Hcs, batches_app, Hbs, Hi'.
    pose proof (at_boundary_divides m) as Hat.
    rewrite (inv_config _ _ _ Hinv) in Hat. specialize (Hat Hper). fold q in Hat.
    unfold boundary_calls. destruct (at_boundary m).
    + (* the open transaction is full *)
      destruct (proj1 Hat eq_refl) as [Hi0 [z Hz]].
      assert (Hd : current = (z - len64 closed) * q) by lia.
      assert (0 < z - len64 closed) by nia.
      assert (z - len64 closed <= 1) by nia.
      assert (current = q) as -> by nia.
      exists 1, (q :: closed). cbn. repeat split; try lia.
      * by constructor.
      * rewrite len64_cons. lia.
    + exists (current + 1), closed. cbn. repeat split; try done; try lia.
      destruct (decide (0 < loop_i m)) as [Hi0|Hi0]; [|nia].
      destruct (decide (current = q)) as [->|]; [|lia].
      assert (at_boundary_holds : false = true); [|done].
      apply Hat. split; [done|]. exists (1 + len64 closed). lia.
  - rewrite Hcs, batches_app, Hi.
    destruct Hb as (current & closed & Hbs & Hrest). rewrite Hbs.
    exists current, closed.
    destruct Hshape as [[_ ->]|[[_ ->]|[He ->]]]; cbn; try done.
    by destruct He as [e ->].
  - rewrite Hcs, batches_app, Hi.
    destruct Hb as (current & closed & Hbs & Hrest). rewrite Hbs.
    by exists current, closed.
Qed.

(** X9. Transactions hold [msgsPerTransaction] records each. In the log of an
    epoch, every transaction but the one opened last holds exactly that many
    records, and the last holds at most that many; [msgsPerTransaction] is
    read as the [int64] the source converts it to, without its sign. *)
Theorem transaction_sizes w n so m :
  in_int64 n -> s_client so = None -> s_begin so = None ->
  wrap64 (msgsPerTransaction (config w)) <> 0 ->
  reachable w n so m -> alive (pc m) ->
  let q := Z.abs (wrap64 (msgsPerTransaction (config w))) in
  exists current closed,
    batches (calls m) = current :: closed /\
    Forall (fun b => b = q) closed /\
    0 <= current <= q /\
    len64 (dispatched (calls m)) = current + q * len64 closed.
Proof.
  intros Hn Hc Hb Hper Hreach Halive. cbn zeta.
  cut (batch_inv (Z.abs (wrap64 (msgsPerTransaction (config w)))) (loop_i m)
         (batches (calls m))).
  { intros (current & closed & Hbs & Hall & Hsum & Hcur & _).
    exists current, closed. repeat split; try done; try lia.
    destruct (epoch_invariant w n so m Hn Hc Hb Hreach) as [H|[H|Hinv]];
      [destruct Halive as (? & ? & ?); done..|].
    rewrite <- Hsum, (inv_i _ _ _ Hinv). unfold len64. by rewrite length_dispatched. }
  revert m Hreach Halive. apply (reachable_ind w n so); [done..| |].
  - exists 0, []. split; [reflexivity|]. split; [constructor|].
    change (len64 (@nil Z)) with 0. cbn [loop_i started]. lia.
  - intros m ev m' Hreach Ha Hinv Hs Ha'.
    destruct (epoch_invariant w n so m Hn Hc Hb Hreach) as [H|[H|Hinv']];
      [destruct Ha as (? & ? & ?); done..|].
    eapply batch_inv_step; [done..|]. by apply step_log.
Qed.

Lemma transaction_sizes_witness :
  let q := Z.abs (wrap64 (msgsPerTransaction (config ex_worker))) in
  exists current closed,
    batches (calls ex_m7) = current :: closed /\
    Forall (fun b => b = q) closed /\
    0 <= current <= q /\
    len64 (dispatched (calls ex_m7)) = current + q * len64 closed.
Proof.
  apply (transaction_sizes ex_worker 2 ex_start ex_m7).
  - unfold in_int64, int64_min, int64_max. lia.
  - reflexivity.
  - reflexivity.
  - vm_compute. discriminate.
  - exists (snd (ex_epoch 24)). vm_compute. reflexivity.
  - repeat split; discriminate.
Defined.

(** ** Fake timestamps *)

Lemma newRecord_timestamp w pid sq ab r w' :
  newRecord w pid sq ab = Ok (r, w') ->
  (fakeTimestampMs w = -1 -> Timestamp r = None /\ fakeTimestampMs w' = -1) /\
  (fakeTimestampMs w <> -1 ->
     Timestamp r = Some (mul64 (fakeTimestampMs w) 1000000) /\
     fakeTimestampMs w' = add64 (fakeTimestampMs w) 1).
Proof.
  unfold newRecord. intros H.
  destruct (messageSize (config w) <? 0); [done|].
  destruct (fakeTimestampMs w =? -1) eqn:Hf; cbn [negb] in H; simplify_eq.
  - apply Z.eqb_eq in Hf. split; [done|]. by intros [].
  - apply Z.eqb_neq in Hf. split; [done|]. intros _. done.
Qed.

Lemma dispatched_boundary_calls m : dispatched (boundary_calls m) = [].
Proof. unfold boundary_calls. by destruct (at_boundary m). Qed.

Lemma dispatched_send cs m r c :
  dispatched (cs ++ boundary_calls m ++ [CProduce r c]) = dispatched cs ++ [r].
Proof. by rewrite !dispatched_app, dispatched_boundary_calls. Qed.

Lemma dispatched_break wa o cs : break_shape wa o cs -> dispatched cs = [].
Proof. by intros [[_ ->]|[[_ ->]|[_ ->]]]. Qed.

(** What an event does to the records given to the client: nothing, or one
    more, built by [newRecord] from the worker's fake-timestamp counter. *)
Lemma log_step_dispatched m ev m' :
  log_step m ev m' ->
  (dispatched (calls m') = dispatched (calls m) /\
   fakeTimestampMs (pw m') = fakeTimestampMs (pw m) /\ pc m <> Acquire \/
   dispatched (calls m') = dispatched (calls m) /\
   fakeTimestampMs (pw m') = fakeTimestampMs (pw m) /\ loop_i m' = loop_i m)
  \/ exists r w0 w1 c wa,
       pc m = Acquire /\ loop_i m' = add64 (loop_i m) 1 /\
       dispatched (calls m') = dispatched (calls m) ++ [r] /\
       fakeTimestampMs w0 = fakeTimestampMs (pw m) /\
       fakeTimestampMs (pw m') = fakeTimestampMs w1 /\
       exists r0 p, newRecord w0 0 c wa = Ok (r0, w1) /\ r = with_Partition p r0.
Proof.
  intros [Hcs _ Hi _ Hf
         |o c r0 w0 w1 _ Hpc _ Hcs _ Hi _ _ _ Hf0 Hr Hf
         |o cs _ _ _ Hshape Hcs _ Hi _ Hf
         |o _ _ Hcs _ Hi _ Hf].
  - left. right. by rewrite Hcs.
  - right. exists (with_Partition (o_p o) r0), w0, w1, c, (willAbort m').
    rewrite Hcs, dispatched_send. repeat split; try done. by exists r0, (o_p o).
  - left. right. rewrite Hcs, dispatched_app, (dispatched_break _ _ _ Hshape), app_nil_r.
    done.
  - left. right. rewrite Hcs, dispatched_app. cbn. by rewrite app_nil_r.
Qed.

(** X10. With fake timestamps switched off ([fakeTimestampMs] is -1) no record
    is given a timestamp and the counter stays at -1. With a counter that
    starts at [t >= 0] (and [t + n] in range), the [k]-th record of the
    epoch is stamped [t + k] milliseconds, in nanoseconds as an [int64]
    product, and the counter ends at [t] plus the number of records given to
    the client: the next epoch goes on from there. *)
Theorem fake_timestamps w n so m :
  in_int64 n -> s_client so = None -> s_begin so = None ->
  reachable w n so m -> alive (pc m) ->
  (fakeTimestampMs w = -1 ->
     fakeTimestampMs (pw m) = -1 /\
     Forall (fun r => Timestamp r = None) (dispatched (calls m)))
  /\
  (0 <= fakeTimestampMs w -> fakeTimestampMs w + n <= int64_max ->
     fakeTimestampMs (pw m) = fakeTimestampMs w + len64 (dispatched (calls m)) /\
     forall (k : nat) r,
       dispatched (calls m) !! k = Some r ->
       Timestamp r = Some (mul64 (fakeTimestampMs w + Z.of_nat k) 1000000)).
Proof.
  intros Hn Hc Hb Hreach Halive. split.
  - intros Hoff. revert m Hreach Halive. apply (reachable_ind w n so); [done..| |].
    + split; [done|]. constructor.
    + intros m ev m' _ _ [Hf Hall] Hs Ha.
      destruct (log_step_dispatched m ev m' (step_log _ _ _ Hs Ha))
        as [[(Hd & Hf' & _)|(Hd & Hf' & _)]
           |(r & w0 & w1 & c & wa & _ & _ & Hd & Hf0 & Hf1 & r0 & p & Hr & ->)].
      * by rewrite Hd, Hf'.
      * by rewrite Hd, Hf'.
      * destruct (newRecord_timestamp _ _ _ _ _ _ Hr) as [Hminus _].
        destruct Hminus as [Ht Hw1]; [congruence|].
        rewrite Hd, Hf1. split; [done|]. apply Forall_app. split; [done|].
        by constructor.
  - intros Ht0 Htn.
    cut (loop_i m = len64 (dispatched (calls m)) /\
         fakeTimestampMs (pw m) = fakeTimestampMs w + len64 (dispatched (calls m)) /\
         forall (k : nat) r,
           dispatched (calls m) !! k = Some r ->
           Timestamp r = Some (mul64 (fakeTimestampMs w + Z.of_nat k) 1000000)).
    { by intros (_ & ? & ?). }
    revert m Hreach Halive. apply (reachable_ind w n so); [done..| |].
    + cbn. change (len64 (dispatched [CBeginTransaction None])) with 0.
      repeat split; [lia|]. intros k r Hk. done.
    + intros m ev m' Hreach Ha (Hi & Hf & Hall) Hs Ha'.
      destruct (epoch_invariant w n so m Hn Hc Hb Hreach) as [H|[H|Hinv]];
        [destruct Ha as (? & ? & ?); done..|].
      destruct (epoch_invariant w n so m' Hn Hc Hb (reachable_step _ _ _ _ _ _ Hreach Hs))
        as [H|[H|Hinv']]; [destruct Ha' as (? & ? & ?); done..|].
      assert (Hi' : loop_i m' = len64 (dispatched (calls m'))).
      { rewrite (inv_i _ _ _ Hinv'). unfold len64. by rewrite length_dispatched. }
      split; [done|].
      destruct (log_step_dispatched m ev m' (step_log _ _ _ Hs Ha'))
        as [[(Hd & Hf' & _)|(Hd & Hf' & _)]
           |(r & w0 & w1 & c & wa & Hpc & _ & Hd & Hf0 & Hf1 & r0 & p & Hr & ->)].
      * by rewrite Hd, Hf'.
      * by rewrite Hd, Hf'.
      * pose proof (inv_i_lt _ _ _ Hinv Hpc) as Hlt.
        pose proof (len64_nonneg (dispatched (calls m))) as H0.
        destruct (newRecord_timestamp _ _ _ _ _ _ Hr) as [_ Hplus].
        destruct Hplus as [Ht Hw1]; [lia|].
        rewrite Hd, Hf1, Hw1, Hf0, Hf, len64_app. split.
        { change (len64 [with_Partition p r0]) with 1.
          unfold add64. rewrite Z.add_assoc. apply wrap64_id.
          unfold in_int64, int64_min, int64_max in *. lia. }
        intros k r Hk.
        destruct (decide (k < length (dispatched (calls m)))%nat) as [Hk'|Hk'].
        { rewrite lookup_app_l in Hk by done. by apply Hall. }
        rewrite lookup_app_r in Hk by lia.
        destruct (k - length (dispatched (calls m)))%nat as [|j] eqn:Hj; [|done].
        cbn in Hk. simplify_eq. cbn [Timestamp with_Partition]. rewrite Ht, Hf0, Hf.
        do 3 f_equal. unfold len64. lia.
Qed.

Lemma fake_timestamps_witness :
  (fakeTimestampMs ex_worker_ts = -1 ->
     fakeTimestampMs (pw ex_ts) = -1 /\
     Forall (fun r => Timestamp r = None) (dispatched (calls ex_ts)))
  /\
  (0 <= fakeTimestampMs ex_worker_ts -> fakeTimestampMs ex_worker_ts + 2 <= int64_max ->
     fakeTimestampMs (pw ex_ts)
       = fakeTimestampMs ex_worker_ts + len64 (dispatched (calls ex_ts)) /\
     forall (k : nat) r,
       dispatched (calls ex_ts) !! k = Some r ->
       Timestamp r = Some (mul64 (fakeTimestampMs ex_worker_ts + Z.of_nat k) 1000000)).
Proof.
  apply (fake_timestamps ex_worker_ts 2 ex_start ex_ts).
  - unfold in_int64, int64_min, int64_max. lia.
  - reflexivity.
  - reflexivity.
  - exists (snd (ex_epoch 23)). vm_compute. reflexivity.
  - repeat split; discriminate.
Defined.

(** The two records of that run are stamped 1000 ms and 1001 ms, and the
    counter is left at 1002. *)
Example fake_timestamps_small_run :
  Timestamp <$> dispatched (calls ex_ts) = [Some 1000000000; Some 1001000000] /\
  fakeTimestampMs (pw ex_ts) = 1002.
Proof. vm_compute. done. Qed.

(** ** Predicted offsets *)

Lemma predictions_boundary_calls m : predictions (boundary_calls m) = [].
Proof. unfold boundary_calls. by destruct (at_boundary m). Qed.

Lemma predictions_break wa o cs : break_shape wa o cs -> predictions cs = [].
Proof. by intros [[_ ->]|[[_ ->]|[_ ->]]]. Qed.

Lemma cursors_at_dispatch_lookup m q :
  cursors_at_dispatch m !! q
  = (fun c => if at_boundary m then add64 c (boundary_delta (willAbort m)) else c)
      <$> (currentOffsets m !! q).
Proof.
  unfold cursors_at_dispatch. destruct (at_boundary m).
  - apply lookup_bump_all.
  - by destruct (currentOffsets m !! q).
Qed.

(** The cursor an iteration dispatches from, within the room left. *)
Lemma dispatch_cursor so n m q c' :
  in_int64 n -> offsets_have_room so n -> cursor_inv so m ->
  0 <= loop_i m < n ->
  cursors_at_dispatch m !! q = Some c' ->
  exists c0 s,
    currentOffsets m !! q = Some c0 /\ s_offsets so !! q = Some s /\
    c0 <= c' <= c0 + 2 /\ s < c0 <= s + 1 + 3 * loop_i m /\
    add64 c' 1 = c' + 1.
Proof.
  intros Hn Hroom (Ha & _ & _) Hi. rewrite cursors_at_dispatch_lookup.
  destruct (currentOffsets m !! q) as [c0|] eqn:Hc0; [|done]. cbn. intros [= <-].
  destruct (Ha q c0 Hc0) as (s & Hs & Hlo & Hhi).
  destruct (Hroom s (list_elem_of_lookup_2 _ _ _ Hs)) as [Hmin Hmax].
  exists c0, s. split; [done|]. split; [done|].
  assert (Hexact : forall d, 0 <= d <= 2 -> add64 c0 d = c0 + d).
  { intros d Hd. apply wrap64_id. unfold in_int64, int64_min, int64_max in *. lia. }
  assert (Hone : forall c, c0 <= c <= c0 + 2 -> add64 c 1 = c + 1).
  { intros c Hc. apply wrap64_id. unfold in_int64, int64_min, int64_max in *. lia. }
  unfold boundary_delta.
  destruct (at_boundary m); [destruct (willAbort m)|]; rewrite ?Hexact by lia;
    (split; [lia|]; split; [lia|]; first [apply Hone; lia|lia]).
Qed.

Lemma cursor_inv_quiet so m m' :
  cursor_inv so m ->
  predictions (calls m') = predictions (calls m) ->
  currentOffsets m' = currentOffsets m -> loop_i m' = loop_i m ->
  cursor_inv so m'.
Proof. intros Hinv Hp Hc Hi. unfold cursor_inv. by rewrite Hp, Hc, Hi. Qed.

Lemma cursor_inv_step w n so m ev m' :
  in_int64 n -> offsets_have_room so n -> epoch_inv w n m ->
  cursor_inv so m -> log_step m ev m' -> cursor_inv so m'.
Proof.
  intros Hn Hroom Hinv Hcur Hl.
  destruct Hl as [Hcs _ Hi Ho _
                 |o c r0 w0 w1 _ Hpc Hrange Hcs _ Hi Hlook Ho _ _ _ _
                 |o cs _ _ _ Hshape Hcs _ Hi Ho _
                 |o _ _ Hcs _ Hi Ho _].
  - apply (cursor_inv_quiet so m); [done|by rewrite Hcs|done..].
  - (* an iteration *)
    pose proof (inv_i_lt _ _ _ Hinv Hpc) as Hlt.
    assert (Hi0 : 0 <= loop_i m).
    { rewrite (inv_i _ _ _ Hinv). apply len64_nonneg. }
    assert (Hi' : loop_i m' = loop_i m + 1).
    { rewrite Hi. apply wrap64_id. unfold in_int64, int64_min, int64_max in *. lia. }
    assert (Hp' : predictions (calls m')
                  = predictions (calls m) ++ [(o_p o, c)]).
    { by rewrite Hcs, !predictions_app, predictions_boundary_calls, predictions_produce. }
    pose proof (dispatch_cursor so n m _ c Hn Hroom Hcur (conj Hi0 Hlt) Hlook)
      as (cp & sp & Hcp & Hsp & Hcpc & Hcps & Hc1).
    assert (Hnew : forall q c2, currentOffsets m' !! q = Some c2 ->
              exists c0 s, currentOffsets m !! q = Some c0 /\ s_offsets so !! q = Some s /\
                           c0 <= c2 <= c0 + 3 /\ s < c0 <= s + 1 + 3 * loop_i m /\
                           (q = Z.to_nat (o_p o) -> c2 = c + 1)).
    { intros q c2. rewrite Ho.
      intros [(<- & <- & _)|(Hne & Hq)]%list_lookup_insert_Some.
      - exists cp, sp. rewrite Hc1. repeat split; try done; lia.
      - destruct (dispatch_cursor so n m _ c2 Hn Hroom Hcur (conj Hi0 Hlt) Hq)
          as (c0 & s & ? & ? & ? & ? & _).
        exists c0, s. repeat split; try done; lia. }
    assert (Hkeep : forall q c0, currentOffsets m !! q = Some c0 ->
              exists c2, currentOffsets m' !! q = Some c2 /\ c0 <= c2).
    { intros q c0 Hq.
      assert (Hsome : is_Some (currentOffsets m' !! q)).
      { rewrite Ho, list_lookup_insert_is_Some, cursors_at_dispatch_lookup, Hq. by eexists. }
      destruct Hsome as [c2 Hc2]. exists c2. split; [done|].
      destruct (Hnew q c2 Hc2) as (c0' & _ & Hq' & _ & ? & _). simplify_eq. lia. }
    destruct Hcur as (Ha & Hb & Hc).
    split; [|split].
    + intros q c2 Hq. destruct (Hnew q c2 Hq) as (c0 & s & _ & Hs & ? & ? & _).
      exists s. split; [done|]. lia.
    + intros p a. rewrite Hp'. intros [Hold|Hin%list_elem_of_singleton]%elem_of_app.
      * destruct (Hb p a Hold) as (Hp0 & c0 & Hq & Hlt0). split; [done|].
        destruct (Hkeep _ _ Hq) as (c2 & Hc2 & ?). exists c2. split; [done|]. lia.
      * injection Hin as -> ->. split; [lia|].
        destruct (Hkeep _ _ Hcp) as (c2 & Hc2 & _). exists c2. split; [done|].
        destruct (Hnew _ _ Hc2) as (_ & _ & _ & _ & _ & _ & Hsame).
        rewrite Hsame by done. lia.
    + intros i j p a b Hij. rewrite Hp'.
      intros Hi1 [(Hj & Hjo)|(Hj & Hjn)]%lookup_snoc_Some.
      * rewrite lookup_app_l in Hi1 by lia. exact (Hc i j p a b Hij Hi1 Hjo).
      * injection Hjn as <- <-. rewrite lookup_app_l in Hi1 by lia.
        destruct (Hb _ _ (list_elem_of_lookup_2 _ _ _ Hi1)) as (_ & c0 & Hq & ?).
        simplify_eq. lia.
  - apply (cursor_inv_quiet so m); [done| |done..].
    by rewrite Hcs, predictions_app, (predictions_break _ _ _ Hshape), app_nil_r.
  - apply (cursor_inv_quiet so m); [done| |done..].
    by rewrite Hcs, predictions_app, app_nil_r.
Qed.

Lemma cursor_inv_started w n so :
  offsets_have_room so n -> cursor_inv so (started w n so).
Proof.
  intros Hroom. split; [|split].
  - intros q c. cbn [currentOffsets started loop_i]. rewrite lookup_bump_all.
    destruct (s_offsets so !! q) as [s|] eqn:Hs; [|done]. cbn. intros [= <-].
    destruct (Hroom s (list_elem_of_lookup_2 _ _ _ Hs)) as [Hmin Hmax].
    exists s. split; [done|]. unfold add64. rewrite wrap64_id; [lia|].
    unfold in_int64, int64_min, int64_max in *. lia.
  - intros p a H. cbn in H. by apply elem_of_nil in H.
  - intros i j p a b _ H. done.
Qed.

(** X11. When the start offsets leave room for the epoch (no cursor can pass the
    largest [int64]), the offsets predicted for one partition strictly
    increase in the order the records are given to the client, so no two
    records of an epoch are predicted at the same place; and the cursor of a
    partition is always past every offset predicted for it. *)
Theorem predicted_offsets_increase w n so m :
  in_int64 n -> s_client so = None -> s_begin so = None ->
  offsets_have_room so n ->
  reachable w n so m -> alive (pc m) ->
  (forall (i j : nat) p a b, (i < j)%nat ->
     predictions (calls m) !! i = Some (p, a) ->
     predictions (calls m) !! j = Some (p, b) -> a < b)
  /\ NoDup (predictions (calls m))
  /\ (forall (q : nat) c a,
        currentOffsets m !! q = Some c ->
        (Z.of_nat q, a) ∈ predictions (calls m) -> a < c).
Proof.
  intros Hn Hc Hb Hroom Hreach Halive.
  cut (cursor_inv so m).
  { intros (_ & Hcur & Hinc). split; [done|]. split.
    - apply NoDup_alt. intros i j [p a] Hi Hj.
      destruct (Nat.lt_total i j) as [Hlt|[->|Hlt]]; [|done|].
      + pose proof (Hinc i j p a a Hlt Hi Hj). lia.
      + pose proof (Hinc j i p a a Hlt Hj Hi). lia.
    - intros q c a Hq Hin. destruct (Hcur _ _ Hin) as (_ & c' & Hq' & ?).
      rewrite Nat2Z.id in Hq'. simplify_eq. done. }
  revert m Hreach Halive. apply (reachable_ind w n so); [done..| |].
  - by apply cursor_inv_started.
  - intros m ev m' Hreach Ha Hinv Hs Ha'.
    destruct (epoch_invariant w n so m Hn Hc Hb Hreach) as [H|[H|Hinv']];
      [destruct Ha as (? & ? & ?); done..|].
    eapply cursor_inv_step; [done..|]. by apply step_log.
Qed.

Lemma predicted_offsets_increase_witness :
  (forall (i j : nat) p a b, (i < j)%nat ->
     predictions (calls ex_m7) !! i = Some (p, a) ->
     predictions (calls ex_m7) !! j = Some (p, b) -> a < b)
  /\ NoDup (predictions (calls ex_m7))
  /\ (forall (q : nat) c a,
        currentOffsets ex_m7 !! q = Some c ->
        (Z.of_nat q, a) ∈ predictions (calls ex_m7) -> a < c).
Proof.
  apply (predicted_offsets_increase ex_worker 2 ex_start ex_m7).
  - unfold in_int64, int64_min, int64_max. lia.
  - reflexivity.
  - reflexivity.
  - intros s Hs. unfold int64_min, int64_max.
    apply elem_of_cons in Hs as [->|Hs]; [lia|].
    apply list_elem_of_singleton in Hs as ->. lia.
  - exists (snd (ex_epoch 24)). vm_compute. reflexivity.
  - repeat split; discriminate.
Defined.

(** ** Configurations that make an iteration panic *)

(** [rand.Int31n] panics unless its argument is positive: with no partition
    configured the first iteration panics, after it has been counted. *)
Lemma step_no_partitions m o m' :
  pc m = Acquire -> nPartitions (config (pw m)) <= 0 ->
  step m (EvMain o) = Some m' ->
  pc m' = Panicked /\ calls m' = calls m /\
  Sent (Status (pw m')) = add64 (Sent (Status (pw m))) 1.
Proof.
  intros Hpc Hn Hs. unfold step in Hs. rewrite Hpc in Hs.
  destruct (negb (len64 (inflight m) <? 4096)); [done|].
  assert (Hp : (0 <? nPartitions (config (pw m))) = false) by (apply Z.ltb_ge; lia).
  rewrite Hp in Hs. cbn [andb] in Hs. injection Hs as <-.
  unfold loop_body. cbn [pw set_produced upd_status set_pw upd_Status set_Status config].
  assert (Hle : (nPartitions (config (pw m)) <=? 0) = true) by (apply Z.leb_le; lia).
  rewrite Hle. done.
Qed.

(** The remainder by zero panics: with a batch size of zero the iteration
    after the first message panics, after it has been counted. *)
Lemma step_zero_batch m o m' :
  pc m = Acquire -> wrap64 (msgsPerTransaction (config (pw m))) = 0 -> 0 < loop_i m ->
  step m (EvMain o) = Some m' ->
  (pc m' = Panicked /\ calls m' = calls m /\
   Sent (Status (pw m')) = add64 (Sent (Status (pw m))) 1).
Proof.
  intros Hpc Hper Hi Hs. unfold step in Hs. rewrite Hpc in Hs.
  destruct (negb (len64 (inflight m) <? 4096)); [done|].
  destruct ((0 <? nPartitions (config (pw m))) && _); [done|].
  injection Hs as <-.
  unfold loop_body. cbn [pw set_produced upd_status set_pw upd_Status set_Status config loop_i].
  destruct (nPartitions (config (pw m)) <=? 0); [done|].
  assert (Hi' : (0 <? loop_i m) = true) by (by apply Z.ltb_lt).
  rewrite Hi', Hper. done.
Qed.

(** X12. An epoch of a worker without partitions gives no record to the client.
    Asked for at least one message it never returns: its first iteration
    panics in [rand.Int31n], with the message already counted in [Sent]. *)
Theorem no_partitions_no_return w n so m :
  in_int64 n -> s_client so = None -> s_begin so = None ->
  nPartitions (config w) <= 0 ->
  reachable w n so m ->
  (alive (pc m) ->
     dispatched (calls m) = [] /\ forall c r e, pc m = Returned c r e -> n <= 0)
  /\
  (forall o m',
     pc m = Acquire -> step m (EvMain o) = Some m' ->
     pc m' = Panicked /\ dispatched (calls m') = [] /\
     Sent (Status (pw m')) = add64 (Sent (Status (pw m))) 1).
Proof.
  intros Hn Hc Hb Hparts Hreach.
  assert (Hall : alive (pc m) ->
            dispatched (calls m) = [] /\ (pc m = LoopTop \/ pc m = Acquire \/ n <= 0)).
  { revert m Hreach. apply (reachable_ind w n so); [done..| |].
    - split; [done|]. by left.
    - intros m ev m' Hreach Ha [Hd Hpc] Hs Ha'.
      destruct (epoch_invariant w n so m Hn Hc Hb Hreach) as [H|[H|Hinv]];
        [destruct Ha as (? & ? & ?); done..|].
      assert (Hrun : running (pc m) = true) by (eapply step_running, Hs).
      assert (Hi : loop_i m = 0).
      { rewrite (inv_i _ _ _ Hinv). unfold len64.
        by rewrite <- length_dispatched, Hd. }
      destruct (inv_ledger _ _ _ Hinv) as (added & _ & _ & Hlen).
      rewrite <- (inv_i _ _ _ Hinv), Hi, (bad_list_running _ Hrun) in Hlen.
      pose proof (len64_nonneg added). pose proof (len64_nonneg (bad_offsets m)).
      pose proof (len64_nonneg (inflight m)).
      assert (Hbad : bad_offsets m = []) by (apply len64_zero; lia).
      assert (Hin : inflight m = []) by (apply len64_zero; lia).
      split.
      + destruct (step_log _ _ _ Hs Ha')
          as [Hcs _ _ _ _
             |o c r0 w0 w1 _ _ Hrange _ _ _ _ _ _ _ _ _
             |o cs _ _ Hat _ _ _ _ _ _
             |o _ _ Hcs _ _ _ _].
        * by rewrite Hcs.
        * rewrite (inv_config _ _ _ Hinv) in Hrange. lia.
        * unfold at_boundary in Hat. rewrite Hi in Hat. done.
        * rewrite Hcs, dispatched_app, Hd. done.
      + pose proof (step_transition _ _ _ Hs) as Ht.
        destruct Ht as [o Hp _ _|o Hp Hleave|o m1 c r0 w1 w2 Hp _ _ _ _ _ _ _
                       |o cs Hp _ Hat _ _|o how m2 cs Hp _ Hhow _ _
                       |o Hp|o Hp _|k offset err now pd _ Hk]; cbn [pc set_pc].
        * by right; left.
        * right; right. rewrite (inv_arg _ _ _ Hinv), Hi in Hleave.
          destruct (decide (0 < n)); [|lia]. by destruct Hleave.
        * by left.
        * unfold at_boundary in Hat. rewrite Hi in Hat. done.
        * destruct Ha' as (? & ? & ?). cbn in *. destruct Hhow; congruence.
        * right; right. destruct Hpc as [?|[?|?]]; [congruence..|done].
        * right; right. destruct Hpc as [?|[?|?]]; [congruence..|done].
        * rewrite Hin in Hk. done. }
  split.
  - intros Halive. destruct (Hall Halive) as [Hd Hpc]. split; [done|].
    intros c r e Hret. destruct Hpc as [?|[?|?]]; [congruence..|done].
  - intros o m' Hpc Hs.
    assert (Halive : alive (pc m)) by (by rewrite Hpc).
    destruct (epoch_invariant w n so m Hn Hc Hb Hreach) as [H|[H|Hinv]]; [congruence..|].
    destruct (step_no_partitions m o m' Hpc) as (Hp & Hcs & Hsent); [|done|].
    { by rewrite (inv_config _ _ _ Hinv). }
    rewrite Hcs. by destruct (Hall Halive) as [-> _].
Qed.

Lemma no_partitions_no_return_witness :
  (alive (pc ex_none) ->
     dispatched (calls ex_none) = [] /\ forall c r e, pc ex_none = Returned c r e -> 2 <= 0)
  /\
  (forall o m',
     pc ex_none = Acquire -> step ex_none (EvMain o) = Some m' ->
     pc m' = Panicked /\ dispatched (calls m') = [] /\
     Sent (Status (pw m')) = add64 (Sent (Status (pw ex_none))) 1).
Proof.
  apply (no_partitions_no_return ex_worker_none 2 ex_start ex_none).
  - unfold in_int64, int64_min, int64_max. lia.
  - reflexivity.
  - reflexivity.
  - cbn. lia.
  - exists [EvMain quiet]. vm_compute. reflexivity.
Defined.

(** X13. With a batch size of zero an epoch gives at most one record to the
    client: the iteration for the second panics on the remainder by zero,
    with the message already counted in [Sent]. *)
Theorem zero_batch_size w n so m :
  in_int64 n -> s_client so = None -> s_begin so = None ->
  wrap64 (msgsPerTransaction (config w)) = 0 ->
  reachable w n so m ->
  (alive (pc m) -> len64 (dispatched (calls m)) <= 1)
  /\
  (forall o m',
     pc m = Acquire -> 0 < loop_i m -> step m (EvMain o) = Some m' ->
     pc m' = Panicked /\ dispatched (calls m') = dispatched (calls m) /\
     Sent (Status (pw m')) = add64 (Sent (Status (pw m))) 1).
Proof.
  intros Hn Hc Hb Hper Hreach. split.
  - intros Halive.
    destruct (epoch_invariant w n so m Hn Hc Hb Hreach) as [H|[H|Hinv]];
      [destruct Halive as (? & ? & ?); done..|].
    cut (loop_i m <= 1).
    { rewrite (inv_i _ _ _ Hinv). unfold len64. by rewrite length_dispatched. }
    clear Hinv. revert m Hreach Halive. apply (reachable_ind w n so); [done..| |].
    + cbn. lia.
    + intros m ev m' Hreach Ha Hi Hs Ha'.
      destruct (epoch_invariant w n so m Hn Hc Hb Hreach) as [H|[H|Hinv]];
        [destruct Ha as (? & ? & ?); done..|].
      destruct (step_log _ _ _ Hs Ha')
        as [_ _ Hi' _ _
           |o c r0 w0 w1 -> Hpc _ _ _ Hi' _ _ _ _ _ _
           |o cs _ _ _ _ _ _ Hi' _ _
           |o _ _ _ _ Hi' _ _]; [lia| |lia..].
      destruct (decide (0 < loop_i m)) as [Hpos|Hzero].
      * destruct (step_zero_batch m o m' Hpc) as (Hp & _); [|done..|].
        { by rewrite (inv_config _ _ _ Hinv). }
        destruct Ha' as (? & ? & ?). done.
      * pose proof (inv_i _ _ _ Hinv) as Hlen.
        pose proof (len64_nonneg (predictions (calls m))).
        assert (loop_i m = 0) as Hz by lia. rewrite Hi', Hz. done.
  - intros o m' Hpc Hi Hs.
    destruct (epoch_invariant w n so m Hn Hc Hb Hreach) as [H|[H|Hinv]]; [congruence..|].
    destruct (step_zero_batch m o m' Hpc) as (Hp & Hcs & Hsent); [|done..|].
    { by rewrite (inv_config _ _ _ Hinv). }
    by rewrite Hcs.
Qed.

Lemma zero_batch_size_witness :
  (alive (pc ex_zero) -> len64 (dispatched (calls ex_zero)) <= 1)
  /\
  (forall o m',
     pc ex_zero = Acquire -> 0 < loop_i ex_zero -> step ex_zero (EvMain o) = Some m' ->
     pc m' = Panicked /\ dispatched (calls m') = dispatched (calls ex_zero) /\
     Sent (Status (pw m')) = add64 (Sent (Status (pw ex_zero))) 1).
Proof.
  apply (zero_batch_size ex_worker_zero 2 ex_start ex_zero).
  - unfold in_int64, int64_min, int64_max. lia.
  - reflexivity.
  - reflexivity.
  - reflexivity.
  - exists ex_first. vm_compute. reflexivity.
Defined.

(** In those two states the next iteration panics. *)
Example panics_in_small_runs :
  pc ex_none = Acquire /\
  (pc <$> step ex_none (EvMain (ex_oracle 0 false))) = Some Panicked /\
  pc ex_zero = Acquire /\ loop_i ex_zero = 1 /\
  (pc <$> step ex_zero (EvMain (ex_oracle 0 false))) = Some Panicked.
Proof. vm_compute. done. Qed.

(** ** What [newRecord] builds *)

Lemma newRecord_Key w pid sq ab r w' :
  newRecord w pid sq ab = Ok (r, w') ->
  Key r = (if ab then "ABORTED MSG: " else "") +:+ fmt_d0 6 pid +:+ "." +:+ fmt_d0 18 sq.
Proof.
  unfold newRecord. intros H.
  destruct ab; cbn [negb] in H; by repeat case_match; simplify_eq.
Qed.


(** ** The key determines the record *)

Lemma append_inj_length (a a' b b' : string) :
  String.length a = String.length a' -> a +:+ b = a' +:+ b' -> a = a' /\ b = b'.
Proof.
  revert a'. induction a as [|x a IH]; intros [|x' a'] Hlen Heq; try done.
  rewrite !append_cons in Heq. injection Heq as -> Heq. cbn in Hlen.
  destruct (IH a') as [-> ->]; [lia|done|done].
Qed.

Lemma digit_char_inj d d' :
  (d < 10)%N -> (d' < 10)%N -> digit_char d = digit_char d' -> d = d'.
Proof.
  intros Hd Hd'. rewrite <- !pretty_N_char_digit by done. by apply pretty_N_char_inj.
Qed.

Lemma fixed_digits_inj w : forall v v',
  (v < 10 ^ N.of_nat w)%N -> (v' < 10 ^ N.of_nat w)%N ->
  fixed_digits w v "" = fixed_digits w v' "" -> v = v'.
Proof.
  induction w as [|w IH]; intros v v' Hv Hv' Heq.
  - cbn in Hv, Hv'. lia.
  - cbn [fixed_digits] in Heq.
    rewrite (fixed_digits_acc w (v `div` 10)), (fixed_digits_acc w (v' `div` 10)) in Heq.
    replace (N.of_nat (S w)) with (N.succ (N.of_nat w)) in Hv, Hv' by lia.
    rewrite N.pow_succ_r' in Hv, Hv'.
    apply append_inj_length in Heq as [Hhigh Hlow].
    2:{ by rewrite !length_fixed_digits. }
    injection Hlow as Hlow.
    apply digit_char_inj in Hlow; [|apply N.mod_lt; lia..].
    apply IH in Hhigh; [|apply N.Div0.div_lt_upper_bound; lia..].
    rewrite (N.div_mod' v 10), (N.div_mod' v' 10). congruence.
Qed.

Lemma fixed_width_inj w a b :
  0 <= a < 10 ^ Z.of_nat w -> 0 <= b < 10 ^ Z.of_nat w ->
  fixed_width w a = fixed_width w b -> a = b.
Proof.
  intros Ha Hb Heq. unfold fixed_width in Heq.
  assert (Hpow : Z.of_N (10 ^ N.of_nat w) = 10 ^ Z.of_nat w).
  { rewrite N2Z.inj_pow. f_equal. lia. }
  apply fixed_digits_inj in Heq; lia.
Qed.

(** X15. Within the fixed width (a producer identifier below [10^6], a sequence
    number below [10^18], neither negative) the key of a record determines
    the identifier, the sequence number and whether the record belongs to a
    transaction that will be aborted: two records with the same key were
    built from the same three values. *)
Theorem key_determines_record w1 w2 p1 p2 s1 s2 a1 a2 r1 r2 w1' w2' :
  0 <= p1 < 10 ^ 6 -> 0 <= p2 < 10 ^ 6 -> 0 <= s1 < 10 ^ 18 -> 0 <= s2 < 10 ^ 18 ->
  newRecord w1 p1 s1 a1 = Ok (r1, w1') -> newRecord w2 p2 s2 a2 = Ok (r2, w2') ->
  Key r1 = Key r2 -> p1 = p2 /\ s1 = s2 /\ a1 = a2.
Proof.
  intros Hp1 Hp2 Hs1 Hs2 Hr1 Hr2 Hkey.
  assert (Ha : a1 = a2).
  { rewrite <- (newRecord_sentinel _ _ _ _ _ _ Hr1), <- (newRecord_sentinel _ _ _ _ _ _ Hr2).
    unfold aborted_key. by rewrite Hkey. }
  subst a2.
  rewrite (newRecord_Key _ _ _ _ _ _ Hr1), (newRecord_Key _ _ _ _ _ _ Hr2) in Hkey.
  rewrite !(fmt_d0_fixed_width 6), !(fmt_d0_fixed_width 18) in Hkey by (done || lia).
  apply append_inj_length in Hkey as [_ Hkey]; [|done].
  apply append_inj_length in Hkey as [Hp Hkey].
  2:{ unfold fixed_width. by rewrite !length_fixed_digits. }
  apply (append_inj_length "." ".") in Hkey as [_ Hs]; [|done].
  apply fixed_width_inj in Hp; [|done..]. apply fixed_width_inj in Hs; [|done..].
  done.
Qed.

(** Two records with the same key, one of them stamped: both were built for
    offset 23 of producer 0. *)
Lemma key_determines_record_witness : 0 = 0 /\ 23 = 23 /\ false = false.
Proof.
  apply (key_determines_record ex_worker ex_worker_ts 0 0 23 23 false false
           (KeySliceRecord "000000.000000000000000023" [Byte.x00])
           (with_Timestamp 1000000000 (KeySliceRecord "000000.000000000000000023" [Byte.x00]))
           ex_worker (set_fakeTimestampMs 1001 ex_worker_ts)).
  - lia.
  - lia.
  - lia.
  - lia.
  - vm_compute. reflexivity.
  - vm_compute. reflexivity.
  - reflexivity.
Defined.

(** ** Checkpoints *)

Lemma dispatch_checkpoint o m :
  match dispatch o (o_p o) m with
  | FNext m' =>
    if 5000000000 <? o_since o - lastCheckpoint (Status (pw m))
    then o_store o = None /\ lastCheckpoint (Status (pw m')) = o_now o
    else lastCheckpoint (Status (pw m')) = lastCheckpoint (Status (pw m))
  | FBreak _ => False
  | FStop _ _ => True
  end.
Proof.
  unfold dispatch.
  destruct (currentOffsets m !! Z.to_nat (o_p o)) as [c|]; [|done].
  cbn [pw willAbort set_currentOffsets].
  destruct (newRecord (pw m) 0 c (willAbort m)) as [[r0 w1]| |] eqn:Hr; [|done..].
  apply newRecord_lastCheckpoint in Hr.
  unfold produceCheckpoint, Chk.
  cbn [pw set_pw set_inflight log_call set_calls set_currentOffsets upd_status].
  rewrite Hr.
  destruct (5000000000 <? o_since o - lastCheckpoint (Status (pw m))).
  - by destruct (o_store o).
  - done.
Qed.

Lemma loop_body_checkpoint o m :
  match loop_body o m with
  | FNext m' =>
    if 5000000000 <? o_since o - lastCheckpoint (Status (pw m))
    then o_store o = None /\ lastCheckpoint (Status (pw m')) = o_now o
    else lastCheckpoint (Status (pw m')) = lastCheckpoint (Status (pw m))
  | FBreak m' => lastCheckpoint (Status (pw m')) = lastCheckpoint (Status (pw m))
  | FStop _ _ => True
  end.
Proof.
  unfold loop_body. fold (entered m).
  change (nPartitions (config (pw (entered m)))) with (nPartitions (config (pw m))).
  change (loop_i (entered m)) with (loop_i m).
  change (msgsPerTransaction (config (pw (entered m))))
    with (msgsPerTransaction (config (pw m))).
  destruct (nPartitions (config (pw m)) <=? 0); [done|].
  assert (Hsend : forall m1,
            lastCheckpoint (Status (pw m1)) = lastCheckpoint (Status (pw m)) ->
            match dispatch o (o_p o) m1 with
            | FNext m' =>
              if 5000000000 <? o_since o - lastCheckpoint (Status (pw m))
              then o_store o = None /\ lastCheckpoint (Status (pw m')) = o_now o
              else lastCheckpoint (Status (pw m')) = lastCheckpoint (Status (pw m))
            | FBreak m' => lastCheckpoint (Status (pw m')) = lastCheckpoint (Status (pw m))
            | FStop _ _ => True
            end).
  { intros m1 Hm1. pose proof (dispatch_checkpoint o m1) as Hd.
    destruct (dispatch o (o_p o) m1); [|done..]. by rewrite Hm1 in Hd. }
  destruct (0 <? loop_i m); [|by apply Hsend].
  destruct (wrap64 (msgsPerTransaction (config (pw m))) =? 0); [done|].
  destruct (Z.rem (loop_i m) (wrap64 (msgsPerTransaction (config (pw m)))) =? 0);
    [|by apply Hsend].
  pose proof (boundary_cases o (entered m)) as Hb.
  destruct (boundary o (entered m)) as [m1|m1|]; [| |done].
  - destruct Hb as (_ & _ & _ & ->). by apply Hsend.
  - by destruct Hb as (cs & -> & _).
Qed.

(** X16. The time of the last checkpoint moves only when an iteration finds that
    more than five seconds have passed since it: the iteration then stores
    the ledger and logs the status, and the new time is the one it read
    before. A store that fails there, or at the checkpoint that closes an
    epoch, ends the process; the closing checkpoint leaves the time alone. *)
Theorem checkpoint_timing m ev m' :
  step m ev = Some m' ->
  (alive (pc m') ->
   lastCheckpoint (Status (pw m')) <> lastCheckpoint (Status (pw m)) ->
   exists o, ev = EvMain o /\ pc m = Acquire /\ pc m' = LoopTop /\
             5000000000 < o_since o - lastCheckpoint (Status (pw m)) /\
             o_store o = None /\ lastCheckpoint (Status (pw m')) = o_now o)
  /\
  (forall o, ev = EvMain o -> pc m = Acquire -> pc m' = LoopTop ->
     5000000000 < o_since o - lastCheckpoint (Status (pw m)) ->
     o_store o = None /\ lastCheckpoint (Status (pw m')) = o_now o)
  /\
  (forall o, ev = EvMain o -> pc m = Drain ->
     match o_store o with
     | Some _ => pc m' = Exited
     | None => exists c r, pc m' = Returned c r None /\ pw m' = pw m
     end).
Proof.
  intros Hs.
  assert (Hloop : forall o, ev = EvMain o -> pc m = Acquire ->
            match loop_body o m with
            | FNext m1 => m' = set_pc LoopTop m1
            | FBreak m1 => m' = set_pc Finalize m1
            | FStop how m1 => m' = set_pc how m1
            end).
  { intros o -> Hpc. unfold step in Hs. rewrite Hpc in Hs.
    destruct (negb _); [done|]. destruct (_ && _); [done|]. injection Hs as <-.
    by destruct (loop_body o m). }
  split; [|split].
  - intros Halive Hne. destruct ev as [o|k offset err now].
    + exists o. destruct (pc m) eqn:Hpc; try (by unfold step in Hs; rewrite Hpc in Hs).
      * unfold step in Hs. rewrite Hpc in Hs. by destruct (_ && _); simplify_eq.
      * specialize (Hloop o eq_refl eq_refl).
        pose proof (loop_body_checkpoint o m) as Hc.
        pose proof (loop_body_cases o m) as Hcases.
        destruct (loop_body o m) as [m1|m1|how m1]; subst m'; cbn in *.
        -- destruct (5000000000 <? _) eqn:Hdue; [|done].
           apply Z.ltb_lt in Hdue. by destruct Hc.
        -- done.
        -- destruct Halive as (? & ? & ?). by destruct Hcases as [[?|?] _].
      * unfold step in Hs. rewrite Hpc in Hs. injection Hs as <-. exfalso. apply Hne.
        unfold finalize, fail_transaction, count_failed.
        by destruct (o_flush o), (o_end o).
      * unfold step in Hs. rewrite Hpc in Hs. destruct (inflight m); [|done].
        injection Hs as <-. exfalso. apply Hne.
        unfold finish, produceCheckpoint, Chk.
        destruct (o_store o); [done|]. cbn. by destruct (errored m).
    + exfalso. apply Hne. unfold step in Hs.
      destruct (running (pc m)); [|done]. destruct (inflight m !! k); [|done].
      injection Hs as <-. unfold handler, Chk. destruct err; [done|].
      cbn [Offset with_Offset]. destruct (negb _); [|done].
      cbn. by destruct (16384 <=? _).
  - intros o Hev Hpc Hpc' Hdue. specialize (Hloop o Hev Hpc).
    pose proof (loop_body_checkpoint o m) as Hc.
    pose proof (loop_body_cases o m) as Hcases.
    apply Z.ltb_lt in Hdue. rewrite Hdue in Hc.
    destruct (loop_body o m) as [m1|m1|how m1]; subst m'; cbn in *; [done|done|].
    destruct Hcases as [[?|?] _]; congruence.
  - intros o -> Hpc. unfold step in Hs. rewrite Hpc in Hs.
    destruct (inflight m); [|done]. injection Hs as <-.
    unfold finish, produceCheckpoint, Chk. destruct (o_store o); [done|].
    cbn. destruct (errored m); eauto.
Qed.

Lemma checkpoint_timing_witness :
  (alive (pc ex_checkpointed) ->
   lastCheckpoint (Status (pw ex_checkpointed)) <> lastCheckpoint (Status (pw ex_acquire)) ->
   exists o, EvMain ex_late = EvMain o /\ pc ex_acquire = Acquire /\
             pc ex_checkpointed = LoopTop /\
             5000000000 < o_since o - lastCheckpoint (Status (pw ex_acquire)) /\
             o_store o = None /\ lastCheckpoint (Status (pw ex_checkpointed)) = o_now o)
  /\
  (forall o, EvMain ex_late = EvMain o -> pc ex_acquire = Acquire ->
     pc ex_checkpointed = LoopTop ->
     5000000000 < o_since o - lastCheckpoint (Status (pw ex_acquire)) ->
     o_store o = None /\ lastCheckpoint (Status (pw ex_checkpointed)) = o_now o)
  /\
  (forall o, EvMain ex_late = EvMain o -> pc ex_acquire = Drain ->
     match o_store o with
     | Some _ => pc ex_checkpointed = Exited
     | None => exists c r, pc ex_checkpointed = Returned c r None /\
                           pw ex_checkpointed = pw ex_acquire
     end).
Proof.
  apply (checkpoint_timing ex_acquire (EvMain ex_late) ex_checkpointed).
  vm_compute. reflexivity.
Defined.

(** Six seconds after the worker was made, its first dispatch takes a
    checkpoint; one nanosecond later it would not take another. *)
Example checkpoint_in_small_run :
  lastCheckpoint (Status (pw ex_acquire)) = 0 /\
  lastCheckpoint (Status (pw ex_checkpointed)) = 6000000001 /\
  (5000000000 <? 6000000002 - lastCheckpoint (Status (pw ex_checkpointed))) = false.
Proof. vm_compute. done. Qed.

(** ** Counters that start at zero *)



(** The small run on the fresh worker: two messages acknowledged, two ledger
    entries. *)
Example counters_in_small_run :
  w_outcome (Wait [ex_epoch 23] ex_worker) = WaitReturned None /\
  Acked (Status (w_pw (Wait [ex_epoch 23] ex_worker))) = 2 /\
  validOffsets (w_pw (Wait [ex_epoch 23] ex_worker)) = [(0, 11); (1, 23)].
Proof. vm_compute. done. Qed.

(** ** The records given to the client *)

Lemma newRecord_Value w pid sq ab r w' :
  newRecord w pid sq ab = Ok (r, w') ->
  Value r = replicate (Z.to_nat (messageSize (config w))) Byte.x00 /\
  Partition r = 0 /\ Offset r = 0.
Proof. unfold newRecord. intros H. by repeat case_match; simplify_eq. Qed.

Lemma well_formed_boundary_calls cfg m : Forall (well_formed_call cfg) (boundary_calls m).
Proof. unfold boundary_calls. destruct (at_boundary m); by repeat constructor. Qed.

Lemma well_formed_break cfg wa o cs : break_shape wa o cs -> Forall (well_formed_call cfg) cs.
Proof. intros [[_ ->]|[[_ ->]|[_ ->]]]; by repeat constructor. Qed.

(** X18. Every record an epoch gives to the client goes to a partition of the
    topic, has a payload of [messageSize] zero bytes and no offset of its
    own, and spells in its key the offset predicted for it, as the sequence
    number of producer 0, after the sentinel when its transaction is to be
    aborted ([well_formed_call] says so of one call of the log). *)
Theorem dispatched_records w n so m :
  in_int64 n -> s_client so = None -> s_begin so = None ->
  reachable w n so m -> alive (pc m) ->
  Forall (well_formed_call (config w)) (calls m).
Proof.
  intros Hn Hc Hb Hreach Halive.
  revert m Hreach Halive. apply (reachable_ind w n so); [done..| |].
  - by repeat constructor.
  - intros m ev m' Hreach Ha Hall Hs Ha'.
    destruct (epoch_invariant w n so m Hn Hc Hb Hreach) as [H|[H|Hinv]];
      [destruct Ha as (? & ? & ?); done..|].
    destruct (step_log _ _ _ Hs Ha')
      as [Hcs _ _ _ _
         |o c r0 w0 w1 _ _ Hrange Hcs _ _ _ _ Hcfg _ Hr _
         |o cs _ _ _ Hshape Hcs _ _ _ _
         |o _ _ Hcs _ _ _ _]; rewrite Hcs.
    + done.
    + rewrite !Forall_app. split; [done|]. split; [apply well_formed_boundary_calls|].
      constructor; [|done].
      destruct (newRecord_Value _ _ _ _ _ _ Hr) as (Hv & _ & Ho).
      pose proof (newRecord_Key _ _ _ _ _ _ Hr) as Hk.
      pose proof (newRecord_sentinel _ _ _ _ _ _ Hr) as Hab.
      rewrite Hcfg, (inv_config _ _ _ Hinv) in Hv.
      rewrite (inv_config _ _ _ Hinv) in Hrange.
      cbn. unfold aborted_key in *. cbn. by rewrite Hab.
    + apply Forall_app. split; [done|]. by eapply well_formed_break.
    + apply Forall_app. split; [done|]. by repeat constructor.
Qed.

Lemma dispatched_records_witness :
  Forall (well_formed_call (config ex_worker)) (calls ex_m7).
Proof.
  apply (dispatched_records ex_worker 2 ex_start ex_m7).
  - unfold in_int64, int64_min, int64_max. lia.
  - reflexivity.
  - reflexivity.
  - exists (snd (ex_epoch 24)). vm_compute. reflexivity.
  - repeat split; discriminate.
Defined.

(** ** The order of the client calls *)

Lemma in_order_snoc cs c :
  in_order (cs ++ [c])
  = in_order cs && match last cs with Some a => may_follow a c | None => true end.
Proof.
  induction cs as [|a cs IH]; [done|].
  destruct cs as [|b cs].
  - cbn. by rewrite andb_true_r.
  - change (in_order ((a :: b :: cs) ++ [c]))
      with (may_follow a b && in_order ((b :: cs) ++ [c])).
    rewrite IH, last_cons_cons.
    change (in_order (a :: b :: cs)) with (may_follow a b && in_order (b :: cs)).
    by rewrite andb_assoc.
Qed.

Lemma head_snoc (cs cs' : list ClientCall) c :
  head cs = Some c -> head (cs ++ cs') = Some c.
Proof. by destruct cs. Qed.

(** Appending one call that may follow the last one. *)
Lemma in_order_extend cs c a :
  in_order cs = true -> last cs = Some a -> may_follow a c = true ->
  in_order (cs ++ [c]) = true /\ last (cs ++ [c]) = Some c.
Proof.
  intros Ho Hl Hf. rewrite in_order_snoc, Ho, Hl, Hf. split; [done|apply last_snoc].
Qed.

Lemma order_inv_step m ev m' : order_inv m -> log_step m ev m' -> order_inv m'.
Proof.
  intros (Ho & Hh & Hloop & Hfin & Hend) Hl. unfold order_inv.
  destruct Hl as [Hcs _ _ _ _ Hpc
                 |o c r0 w0 w1 _ Hpc _ Hcs _ _ _ _ _ _ _ _ Hpc'
                 |o cs _ Hpc _ Hshape Hcs _ _ _ _ Hpc'
                 |o _ Hpc Hcs _ _ _ _ Hpc'].
  - rewrite Hcs. split; [done|]. split; [done|].
    destruct Hpc as [->|[(Htop & [-> | ->])|(Hd & c & r & e & ->)]].
    + done.
    + split; [auto|]. split; [done|]. intros [?|(? & ? & ? & ?)]; done.
    + split; [intros [?|?]; done|]. split; [auto|]. intros [?|(? & ? & ? & ?)]; done.
    + split; [intros [?|?]; done|]. split; [done|]. intros _. apply Hend. by left.
  - (* an iteration *)
    assert (Hopen : tail_open (calls m)) by auto.
    unfold tail_open in Hopen. destruct (last (calls m)) as [a|] eqn:Hlast; [|done].
    assert (Hrec : forall cs b, in_order cs = true -> last cs = Some b ->
              match b with CProduce _ _ | CBeginTransaction None => True | _ => False end ->
              in_order (cs ++ [CProduce (with_Partition (o_p o) r0) c]) = true).
    { intros cs b Hcs' Hb Hopen'.
      apply (in_order_extend cs _ b); [done..|]. by destruct b as [[?|]| | |]. }
    assert (Hbefore : exists b,
              in_order (calls m ++ boundary_calls m) = true /\
              last (calls m ++ boundary_calls m) = Some b /\
              match b with CProduce _ _ | CBeginTransaction None => True | _ => False end).
    { unfold boundary_calls. destruct (at_boundary m).
      - exists (CBeginTransaction None).
        change [CFlush None; CEndTransaction (negb (willAbort m)) None; CBeginTransaction None]
          with ([CFlush None] ++ [CEndTransaction (negb (willAbort m)) None]
                ++ [CBeginTransaction None]).
        rewrite !app_assoc.
        destruct (in_order_extend (calls m) (CFlush None) a) as [H1 L1]; [done..| |].
        { by destruct a as [[?|]| | |]. }
        destruct (in_order_extend _ (CEndTransaction (negb (willAbort m)) None) _ H1 L1)
          as [H2 L2]; [done|].
        destruct (in_order_extend _ (CBeginTransaction None) _ H2 L2) as [H3 L3]; [done|].
        done.
      - exists a. by rewrite app_nil_r. }
    destruct Hbefore as (b & Hob & Hlb & Hb).
    rewrite Hcs, app_assoc. split; [by eapply Hrec|].
    split; [rewrite <- app_assoc; by apply head_snoc|].
    rewrite Hpc'. split; [|split; [done|intros [?|(? & ? & ? & ?)]; done]].
    intros _. unfold tail_open. by rewrite last_snoc.
  - (* a failed call of the boundary *)
    assert (Hopen : tail_open (calls m)) by auto.
    unfold tail_open in Hopen. destruct (last (calls m)) as [a|] eqn:Hlast; [|done].
    assert (Hflush : forall f, may_follow a (CFlush f) = true).
    { intros f. by destruct a as [[?|]| | |]. }
    rewrite Hcs, Hpc'.
    assert (Hres : in_order (calls m ++ cs) = true /\ tail_failed (calls m ++ cs)).
    { unfold tail_failed. destruct Hshape as [[[e He] ->]|[[[e He] ->]|[[e He] ->]]].
      - destruct (in_order_extend (calls m) (CFlush (o_flush o)) a) as [H1 L1]; [done..|].
        split; [done|]. by rewrite L1, He.
      - change [CFlush None; CEndTransaction (negb (willAbort m)) (o_end o)]
          with ([CFlush None] ++ [CEndTransaction (negb (willAbort m)) (o_end o)]).
        rewrite app_assoc.
        destruct (in_order_extend (calls m) (CFlush None) a) as [H1 L1]; [done..|].
        destruct (in_order_extend _ (CEndTransaction (negb (willAbort m)) (o_end o)) _ H1 L1)
          as [H2 L2]; [done|].
        split; [done|]. by rewrite L2, He.
      - change [CFlush None; CEndTransaction (negb (willAbort m)) None;
                CBeginTransaction (o_begin o)]
          with ([CFlush None] ++ [CEndTransaction (negb (willAbort m)) None]
                ++ [CBeginTransaction (o_begin o)]).
        rewrite !app_assoc.
        destruct (in_order_extend (calls m) (CFlush None) a) as [H1 L1]; [done..|].
        destruct (in_order_extend _ (CEndTransaction (negb (willAbort m)) None) _ H1 L1)
          as [H2 L2]; [done|].
        destruct (in_order_extend _ (CBeginTransaction (o_begin o)) _ H2 L2)
          as [H3 L3]; [done|].
        split; [done|]. by rewrite L3, He. }
    destruct Hres as [Hor Htf].
    split; [done|]. split; [by apply head_snoc|].
    split; [intros [?|?]; done|]. split; [auto|]. intros [?|(? & ? & ? & ?)]; done.
  - (* the closing flush and end *)
    assert (Hlast : exists a, last (calls m) = Some a /\
                              forall f, may_follow a (CFlush f) = true).
    { destruct (Hfin Hpc) as [H|H].
      - unfold tail_open in H. destruct (last (calls m)) as [a|]; [|done].
        exists a. split; [done|]. intros f. by destruct a as [[?|]| | |].
      - unfold tail_failed in H. destruct (last (calls m)) as [a|]; [|done].
        exists a. split; [done|]. intros f. by destruct a as [[?|]|[?|]|? [?|]|]. }
    destruct Hlast as (a & Hlast & Hflush).
    change [CFlush (o_flush o); CEndTransaction (negb (willAbort m)) (o_end o)]
      with ([CFlush (o_flush o)] ++ [CEndTransaction (negb (willAbort m)) (o_end o)]) in Hcs.
    rewrite app_assoc in Hcs.
    destruct (in_order_extend (calls m) (CFlush (o_flush o)) a) as [H1 L1]; [done..|].
    destruct (in_order_extend _ (CEndTransaction (negb (willAbort m)) (o_end o)) _ H1 L1)
      as [H2 L2]; [done|].
    rewrite Hcs, Hpc'. split; [done|].
    split; [rewrite <- app_assoc; by apply head_snoc|].
    split; [intros [?|?]; done|]. split; [done|].
    intros _. unfold tail_closed. by rewrite L2.
Qed.

(** X19. The calls an epoch makes to the client follow the transaction protocol.
    The log starts with the begin that opened the epoch and is a chain of
    [may_follow]: a record comes after a record or after a begin that
    succeeded; an end comes right after a flush; a begin right after an end
    that succeeded; a flush after a record, after a begin, or after a flush
    or an end that failed. While the loop runs the last call is a record or
    a successful begin, and when the epoch has returned the last call is an
    end of the transaction. *)
Theorem calls_in_order w n so m :
  s_client so = None -> s_begin so = None -> reachable w n so m -> alive (pc m) ->
  in_order (calls m) = true /\
  head (calls m) = Some (CBeginTransaction None) /\
  (pc m = LoopTop \/ pc m = Acquire -> tail_open (calls m)) /\
  (forall c r e, pc m = Returned c r e -> tail_closed (calls m)).
Proof.
  intros Hc Hb Hreach Halive.
  cut (order_inv m).
  { intros (? & ? & ? & _ & Hend). repeat split; try done.
    intros c r e Hpc. apply Hend. right. eauto. }
  revert m Hreach Halive. apply (reachable_ind w n so); [done..| |].
  - unfold order_inv. cbn. repeat split; try done.
    intros [?|(? & ? & ? & ?)]; done.
  - intros m ev m' _ _ Hinv Hs Ha. eapply order_inv_step; [done|]. by apply step_log.
Qed.

Lemma calls_in_order_witness :
  in_order (calls ex_m7) = true /\
  head (calls ex_m7) = Some (CBeginTransaction None) /\
  (pc ex_m7 = LoopTop \/ pc ex_m7 = Acquire -> tail_open (calls ex_m7)) /\
  (forall c r e, pc ex_m7 = Returned c r e -> tail_closed (calls ex_m7)).
Proof.
  apply (calls_in_order ex_worker 2 ex_start ex_m7).
  - reflexivity.
  - reflexivity.
  - exists (snd (ex_epoch 24)). vm_compute. reflexivity.
  - repeat split; discriminate.
Defined.

(** ** [Wait] has no limit on retries *)

(** The state after the first record has been acknowledged one offset too
    high: nothing in flight, one bad offset in the channel. *)
Lemma first_record_misplaced w n so s offs :
  1 <= n -> 0 < nPartitions (config w) -> 0 <= messageSize (config w) ->
  s_offsets so = s :: offs ->
  exists evs m b,
    run (started w n so) evs = Some m /\
    pc m = LoopTop /\ inflight m = [] /\ bad_offsets m = [b] /\ errored m = true /\
    produced m = 1.
Proof.
  intros Hn Hparts Hsize Hoffs.
  set (m1 := set_pc Acquire (started w n so)).
  destruct (loop_body_dispatch m1 (add64 s 1)) as (r & w' & Hbody); try done.
  { cbn. rewrite Hoffs. done. }
  assert (Hs1 : step (started w n so) (EvMain quiet) = Some m1).
  { unfold step. cbn [pc started loop_i arg_n bad_offsets].
    replace (0 <? n) with true by (symmetry; apply Z.ltb_lt; lia). done. }
  assert (Hs2 : step m1 (EvMain (calm m1))
                = Some (set_pc LoopTop (sent_one (calm m1) (add64 s 1) r w' (entered m1)))).
  { rewrite step_acquire_enabled; [by rewrite Hbody|done| |done|].
    - cbn. change (len64 []) with 0. lia.
    - cbn. lia. }
  set (m2 := set_pc LoopTop (sent_one (calm m1) (add64 s 1) r w' (entered m1))) in *.
  destruct (step_ack_mismatch m2 (mkPending r (add64 s 1) 0) 0) as (m3 & Hs3 & Hin & Hpc & _);
    [done|done|by cbn|].
  cbn [pd_currentOffset] in Hs3.
  assert (Hm3 : bad_offsets m3 = [mkBadOffset (Partition r) (add64 s 1 + 1)] /\
                errored m3 = true /\ produced m3 = 1).
  { unfold step in Hs3. cbn in Hs3. unfold handler, Chk in Hs3. cbn in Hs3.
    replace (add64 s 1 + 1 =? add64 s 1) with false in Hs3
      by (symmetry; apply Z.eqb_neq; lia).
    cbn in Hs3. by simplify_eq. }
  destruct Hm3 as (Hbad & Herr & Hprod).
  exists [EvMain quiet; EvMain (calm m1); EvAck 0 (add64 s 1 + 1) None 0], m3,
    (mkBadOffset (Partition r) (add64 s 1 + 1)).
  cbn [run]. rewrite Hs1, Hs2, Hs3. by repeat split.
Qed.

(** From there the epoch returns, with a count of zero. *)
Lemma return_with_bad_offset m b :
  pc m = LoopTop -> inflight m = [] -> bad_offsets m = [b] -> errored m = true ->
  produced m = 1 ->
  exists m',
    run m [EvMain quiet; EvMain quiet; EvMain quiet] = Some m' /\
    pc m' = Returned 0 [b] None.
Proof.
  intros Hpc Hin Hbad Herr Hprod. cbn [run]. unfold step at 1. rewrite Hpc, Hbad.
  rewrite andb_false_r.
  unfold step at 1. cbn [pc set_pc].
  unfold step at 1. cbn [pc set_pc inflight].
  assert (Hin' : inflight (finalize quiet (set_pc Finalize m)) = []).
  { unfold finalize. by cbn. }
  rewrite Hin'. eexists. split; [reflexivity|].
  unfold finish, produceCheckpoint, Chk, finalize. cbn. rewrite Herr. cbn.
  by rewrite Hprod, Hbad.
Qed.

Lemma epoch_stalls w n so :
  1 <= n -> s_client so = None -> s_begin so = None ->
  0 < nPartitions (config w) -> 0 <= messageSize (config w) -> s_offsets so <> [] ->
  exists evs m b, produceInner w n (so, evs) = Some m /\ pc m = Returned 0 [b] None.
Proof.
  intros Hn Hc Hb Hparts Hsize Hoffs.
  destruct (s_offsets so) as [|s offs] eqn:Hso; [done|].
  destruct (first_record_misplaced w n so s offs)
    as (evs & m & b & Hrun & Hpc & Hin & Hbad & Herr & Hprod); [done..|].
  destruct (return_with_bad_offset m b) as (m' & Hrun' & Hret); [done..|].
  exists (evs ++ [EvMain quiet; EvMain quiet; EvMain quiet]), m', b.
  unfold produceInner. cbn [fst snd]. rewrite produceInner_begin_started by done.
  rewrite run_app, Hrun. done.
Qed.

Lemma Wait_loop_stalls k : forall w n,
  1 <= n -> in_int64 n -> 0 < nPartitions (config w) -> 0 <= messageSize (config w) ->
  exists envs,
    let res := Wait_loop envs w n in
    length (w_invocations res) = k /\
    w_outcome res = WaitRunning /\
    Forall (fun i => inv_n i = n /\ exists b, inv_value i = Some (0, [b], None))
           (w_invocations res) /\
    Restarts (Status (w_pw res)) = incremented k (Restarts (Status w)).
Proof.
  induction k as [|k IH]; intros w n Hn Hn64 Hparts Hsize.
  { exists []. cbn. by repeat split. }
  set (so := mkStart None (replicate (Z.to_nat (nPartitions (config w))) 0) None false).
  destruct (epoch_stalls w n so) as (evs & m & b & Hrun & Hpc); [done..| |].
  { subst so. cbn. destruct (Z.to_nat (nPartitions (config w))) eqn:Hz; [lia|done]. }
  destruct (epoch_return w n _ m 0 [b] None Hn64 Hrun Hpc) as (_ & Hrs & _ & Hcfg).
  set (w' := upd_Status (fun s => set_Restarts (add64 (Restarts s) 1) s) (pw m)).
  destruct (IH w' n) as (envs & Hlen & Hout & Hall & Hrest); [done..| | |].
  { subst w'. cbn. by rewrite Hcfg. }
  { subst w'. cbn. by rewrite Hcfg. }
  exists ((so, evs) :: envs).
  cbn [Wait_loop]. rewrite Hrun, Hpc.
  rewrite (sub64_exact n 0 Hn64) by lia. rewrite Z.sub_0_r.
  replace (n <=? 0) with false by (symmetry; apply Z.leb_gt; lia).
  fold w'. cbn [w_outcome w_pw w_invocations length].
  split; [by rewrite Hlen|]. split; [done|]. split.
  - constructor; [|done]. split; [done|]. exists b. unfold inv_value. cbn. by rewrite Hpc.
  - rewrite Hrest. subst w'. cbn. by rewrite Hrs, incremented_succ.
Qed.

(** X20. [Wait] retries for as long as epochs fall short, without a limit: for a
    worker that has at least one message to send (and a partition to send it
    to) and for every [k] there is an environment in which [Wait] has run
    [k] epochs, each of them returning a count of zero with one bad offset,
    has counted [k] restarts, and is about to run the next. (In each epoch
    the topic has one offset per partition and the first record is
    acknowledged one offset too high.) *)
Theorem Wait_has_no_retry_limit w k :
  1 <= wrap64 (messageCount (config w)) ->
  0 < nPartitions (config w) -> 0 <= messageSize (config w) ->
  exists envs,
    let res := Wait envs w in
    length (w_invocations res) = k /\
    w_outcome res = WaitRunning /\
    Forall (fun i => inv_n i = wrap64 (messageCount (config w)) /\
                     exists b, inv_value i = Some (0, [b], None))
           (w_invocations res) /\
    Restarts (Status (w_pw res)) = incremented k (Restarts (Status w)).
Proof.
  intros Hcount Hparts Hsize.
  destruct (Wait_loop_stalls k (upd_Status (set_Active true) w)
              (wrap64 (messageCount (config w))) Hcount (wrap64_range _) Hparts Hsize)
    as (envs & Hlen & Hout & Hall & Hrs).
  exists envs. cbn zeta. unfold Wait.
  change (config (upd_Status (set_Active true) w)) with (config w).
  rewrite Hout. done.
Qed.

Lemma Wait_has_no_retry_limit_witness :
  exists envs,
    let res := Wait envs ex_worker in
    length (w_invocations res) = 3%nat /\
    w_outcome res = WaitRunning /\
    Forall (fun i => inv_n i = wrap64 (messageCount (config ex_worker)) /\
                     exists b, inv_value i = Some (0, [b], None))
           (w_invocations res) /\
    Restarts (Status (w_pw res)) = incremented 3 (Restarts (Status ex_worker)).
Proof.
  apply (Wait_has_no_retry_limit ex_worker 3).
  - vm_compute. discriminate.
  - cbn. lia.
  - cbn. lia.
Defined.
